(** * ModuloX coordination layer: a shallow embedding and its properties

    The development follows the Go packages of the repository:
    - [reliability]   circuit breaker, token bucket, retry with backoff;
    - [communication] the versioned state store and its watcher;
    - [distributed]   nodes, the cluster registry and the scheduler;
    - [workflow]      sequential and mixture workflows.

    Go values are modelled as follows.  [int] and [int64] are [Z] with the
    two's complement wrap-around written out ([wrap64]); [float64] is
    Rocq's primitive IEEE-754 binary64 type; [time.Time] is a reading of the
    monotonic clock in nanoseconds and [time.Duration] a number of
    nanoseconds; maps are [gmap]s; an [error] is a value of an inductive
    type and [nil] is [None]. Calls into caller-supplied code (agents,
    callbacks) thread an explicit world state. *)

From Stdlib Require Import ZArith QArith List Bool Lia Sorted.
From Stdlib Require Import PrimFloat FloatOps SpecFloat.
From stdpp Require Import base option strings list gmap pretty.

Local Open Scope Z_scope.

(** ** Machine integers, floats, clocks *)

Module Go.

Definition MinInt64 : Z := - 2 ^ 63.
Definition MaxInt64 : Z := 2 ^ 63 - 1.

(** Two's complement wrap-around of a 64-bit signed result. *)
Definition wrap64 (z : Z) : Z := (z + 2 ^ 63) mod 2 ^ 64 - 2 ^ 63.

(** Saturation, as [time.Time.Sub] does on overflow. *)
Definition sat64 (z : Z) : Z := Z.max MinInt64 (Z.min MaxInt64 z).

(** [float64(i)] for an integer [i]: nearest binary64, ties to even. *)
Definition float64 (i : Z) : float :=
  SF2Prim (binary_normalize prec emax i 0 false).

(** [int64(f)] for a float [f]: truncation toward zero.  For NaN, the
    infinities and values out of range Go leaves the result to the
    implementation; amd64 yields [MinInt64], which is what is used here. *)
Definition int64_of_float (f : float) : Z :=
  match Prim2SF f with
  | S754_zero _ => 0
  | S754_finite s m e =>
      let mag := if 0 <=? e then Z.pos m * 2 ^ e else Z.pos m / 2 ^ (- e) in
      let v := if s then - mag else mag in
      if (MinInt64 <=? v) && (v <=? MaxInt64) then v else MinInt64
  | _ => MinInt64
  end.

(** [time.Time]: nanoseconds on the monotonic clock. *)
Definition Time := Z.
(** [time.Duration]: nanoseconds. *)
Definition Duration := Z.

Definition Nanosecond : Duration := 1.
Definition Millisecond : Duration := 1000000.
Definition Second : Duration := 1000000000.

(** [t.Sub(u)] *)
Definition Sub (t u : Time) : Duration := sat64 (t - u).
(** [time.Since(u)], the clock reading [now]. *)
Definition Since (now u : Time) : Duration := Sub now u.

(** [d.Seconds()]: [float64(d / Second) + float64(d % Second) / 1e9],
    with Go's truncating division. *)
Definition Seconds (d : Duration) : float :=
  PrimFloat.add (float64 (Z.quot d Second))
                (PrimFloat.div (float64 (Z.rem d Second)) (float64 Second)).

(** Go errors.  Sentinel values of string type compare by value;
    [Wrapped] is [fmt.Errorf] with a [%w] verb. *)
Inductive error : Type :=
| ReliabilityError (msg : string)
| WorkflowError (msg : string)
| ContextCanceled
| ContextDeadlineExceeded
| ErrorString (msg : string)
| Wrapped (prefix : string) (cause : error).

#[export] Instance error_eq_dec : EqDecision error.
Proof. solve_decision. Defined.

(** [err.Error()] *)
Fixpoint Error (e : error) : string :=
  match e with
  | ReliabilityError m | WorkflowError m | ErrorString m => m
  | ContextCanceled => "context canceled"
  | ContextDeadlineExceeded => "context deadline exceeded"
  | Wrapped p c => p +:+ Error c
  end.

(** The string ["\n"]. *)
Definition LF : string := String (Ascii.ascii_of_nat 10) EmptyString.

(** [errors.Unwrap] *)
Definition Unwrap (e : error) : option error :=
  match e with Wrapped _ c => Some c | _ => None end.

End Go.
Export Go.

(** ** Caller-supplied code

    A Go closure or interface method may read and change anything it can
    reach; it is modelled as a transition on a world state [W] that also
    yields its result. *)

Module Call.

(** [func() error] *)
Definition Func (W : Type) : Type := W -> option error * W.

(** What a run does to the outside, in program order. *)
Inductive event : Type :=
| EvCall                      (* the callback was invoked *)
| EvWait (d : Duration).       (* a timer of duration [d] was awaited *)

#[export] Instance event_eq_dec : EqDecision event.
Proof. solve_decision. Defined.

(** The same callback, writing each invocation to a log kept next to the
    world. *)
Definition logged {W : Type} (fn : Func W) : Func (W * list event) :=
  fun s => let (r, w') := fn (fst s) in (r, (w', snd s ++ [EvCall])).

(** [select { case <-ctx.Done(): ...  case <-time.After(d): ... }]: the
    runtime picks the case; [Some e] is the context's error when [Done]
    won, [None] is the timer firing.  Time passing may change the world. *)
Definition Wait (W : Type) : Type := Duration -> W -> option error * W.

Definition logged_wait {W : Type} (wait : Wait W) : Wait (W * list event) :=
  fun d s => let (r, w') := wait d (fst s) in (r, (w', snd s ++ [EvWait d])).

Definition count_calls (tr : list event) : nat :=
  length (filter (fun e => e = EvCall) tr).

Definition waits (tr : list event) : list Duration :=
  omap (fun e => match e with EvWait d => Some d | EvCall => None end) tr.

End Call.
Export Call.

(** ** Package reliability *)

Module Reliability.

(** [ErrCircuitOpen], [ErrRateLimited] *)
Definition ErrCircuitOpen : error := ReliabilityError "circuit breaker is open".
Definition ErrRateLimited : error := ReliabilityError "rate limit exceeded".

(** *** circuit_breaker.go *)

Inductive CircuitState : Type :=
| StateClosed      (* normal operation *)
| StateOpen        (* failing, reject requests *)
| StateHalfOpen.   (* testing if service is healthy *)

#[export] Instance CircuitState_eq_dec : EqDecision CircuitState.
Proof. solve_decision. Defined.

Record CircuitBreaker : Type := mkCircuitBreaker {
  state : CircuitState;
  failureCount : Z;
  failureThreshold : Z;
  resetTimeout : Duration;
  lastFailure : Time
}.

(** The zero [time.Time] lies so far in the past that [time.Since] of it
    saturates. *)
Definition ZeroTime : Time := - 2 ^ 64.

Definition NewCircuitBreaker (failureThreshold : Z) (resetTimeout : Duration)
  : CircuitBreaker :=
  {| state := StateClosed; failureCount := 0;
     failureThreshold := failureThreshold; resetTimeout := resetTimeout;
     lastFailure := ZeroTime |}.

Definition set_state (cb : CircuitBreaker) (s : CircuitState) : CircuitBreaker :=
  {| state := s; failureCount := failureCount cb;
     failureThreshold := failureThreshold cb; resetTimeout := resetTimeout cb;
     lastFailure := lastFailure cb |}.

(** [AllowRequest], the clock reading [now]. *)
Definition AllowRequest (cb : CircuitBreaker) (now : Time) : bool * CircuitBreaker :=
  match state cb with
  | StateClosed => (true, cb)
  | StateOpen =>
      if resetTimeout cb <? Since now (lastFailure cb)
      then (true, set_state cb StateHalfOpen)
      else (false, cb)
  | StateHalfOpen => (true, cb)
  end.

(** [RecordResult], the clock reading [now]. *)
Definition RecordResult (cb : CircuitBreaker) (err : option error) (now : Time)
  : CircuitBreaker :=
  match err with
  | Some _ =>
      let cb1 :=
        {| state := state cb; failureCount := wrap64 (failureCount cb + 1);
           failureThreshold := failureThreshold cb;
           resetTimeout := resetTimeout cb; lastFailure := now |} in
      if bool_decide (state cb1 = StateHalfOpen)
         || (failureThreshold cb1 <=? failureCount cb1)
      then set_state cb1 StateOpen
      else cb1
  | None =>
      if bool_decide (state cb = StateHalfOpen)
      then {| state := StateClosed; failureCount := 0;
              failureThreshold := failureThreshold cb;
              resetTimeout := resetTimeout cb; lastFailure := lastFailure cb |}
      else cb
  end.

(** [Execute]; [t_allow] and [t_record] are the clock readings taken by
    [AllowRequest] and by [RecordResult]. *)
Definition Execute {W : Type} (cb : CircuitBreaker) (fn : Func W)
    (t_allow t_record : Time) (w : W) : option error * CircuitBreaker * W :=
  let (ok, cb1) := AllowRequest cb t_allow in
  if negb ok then (Some ErrCircuitOpen, cb1, w)
  else
    let (err, w') := fn w in
    (err, RecordResult cb1 err t_record, w').

(** *** rate_limiter.go *)

Record RateLimiter : Type := mkRateLimiter {
  rate : float;
  bucketSize : Z;
  tokens : float;
  lastRefill : Time
}.

Definition NewRateLimiter (rate : float) (bucketSize : Z) (now : Time) : RateLimiter :=
  {| rate := rate; bucketSize := bucketSize;
     tokens := float64 bucketSize; lastRefill := now |}.

(** The package's own [min] on [float64]. *)
Definition min (a b : float) : float := if PrimFloat.ltb a b then a else b.

(** [Allow], the clock reading [now]. *)
Definition Allow (rl : RateLimiter) (now : Time) : bool * RateLimiter :=
  let elapsed := Seconds (Sub now (lastRefill rl)) in
  let tokens1 :=
    min (float64 (bucketSize rl))
        (PrimFloat.add (tokens rl) (PrimFloat.mul elapsed (rate rl))) in
  if PrimFloat.leb 1 tokens1
  then (true, {| rate := rate rl; bucketSize := bucketSize rl;
                 tokens := PrimFloat.sub tokens1 1; lastRefill := now |})
  else (false, {| rate := rate rl; bucketSize := bucketSize rl;
                  tokens := tokens1; lastRefill := now |}).

(** *** retry.go *)

Record RetryConfig : Type := mkRetryConfig {
  MaxAttempts : Z;
  InitialDelay : Duration;
  MaxDelay : Duration;
  BackoffFactor : float;
  RetryableErrors : list error
}.

Definition DefaultRetryConfig : RetryConfig :=
  {| MaxAttempts := 3; InitialDelay := 100 * Millisecond;
     MaxDelay := 10 * Second; BackoffFactor := 2; RetryableErrors := [] |}.

Definition isRetryable (err : error) (retryableErrors : list error) : bool :=
  if (Z.of_nat (length retryableErrors) =? 0) then true
  else existsb (fun retryableErr => bool_decide (err = retryableErr)) retryableErrors.

(** The delay after a timer has fired:
    [delay = time.Duration(float64(delay) * config.BackoffFactor)], capped
    by [MaxDelay]. *)
Definition nextDelay (config : RetryConfig) (delay : Duration) : Duration :=
  let delay1 := int64_of_float (PrimFloat.mul (float64 delay) (BackoffFactor config)) in
  if MaxDelay config <? delay1 then MaxDelay config else delay1.

(** The loop of [Retry] from the head of an iteration, [err] and [delay]
    being the variables of the same name.  [fuel] bounds the number of
    iterations; [None] means it ran out. *)
Fixpoint retry_loop {W : Type} (fuel : nat) (wait : Wait W) (fn : Func W)
    (config : RetryConfig) (attempt : Z) (delay : Duration)
    (err : option error) (w : W) : option (option error * W) :=
  if negb (attempt <=? MaxAttempts config) then Some (err, w)
  else
    match fuel with
    | O => None
    | S fuel' =>
        let (err1, w1) := fn w in
        match err1 with
        | None => Some (None, w1)
        | Some e =>
            if negb (isRetryable e (RetryableErrors config)) then Some (err1, w1)
            else if attempt =? MaxAttempts config then Some (err1, w1)
            else
              let (done, w2) := wait delay w1 in
              match done with
              | Some ctxErr => Some (Some ctxErr, w2)
              | None =>
                  retry_loop fuel' wait fn config (wrap64 (attempt + 1))
                             (nextDelay config delay) err1 w2
              end
        end
    end.

(** [Retry]: one unit of fuel per permitted attempt. *)
Definition Retry {W : Type} (wait : Wait W) (fn : Func W) (config : RetryConfig)
    (w : W) : option (option error * W) :=
  retry_loop (Z.to_nat (MaxAttempts config)) wait fn config 1
             (InitialDelay config) None w.

End Reliability.

(** ** Package agent and the event client *)

Module Agents.

(** The [agent.Agent] interface as its callers use it.  [GetName] is called
    by the node and by the mixture workflow; its declaration is not part of
    the interface file, so it is a field here.  [Execute] returns Go's pair
    [(string, error)]. *)
Record Agent (W : Type) : Type := mkAgent {
  GetName : string;
  Execute : string -> W -> (string * option error) * W
}.
Arguments mkAgent {W} _ _.
Arguments GetName {W} _.
Arguments Execute {W} _ _ _.

(** One entry of the invocation log: who ran, on what, with what result. *)
Record call : Type := mkCall {
  callee : string;
  input : string;
  output : string * option error
}.

(** The same agent, writing each invocation to a log kept next to the world. *)
Definition logged_agent {W : Type} (a : Agent W) : Agent (W * list call) :=
  {| GetName := GetName a;
     Execute := fun task s =>
       let (r, w') := Execute a task (fst s) in
       (r, (w', snd s ++ [mkCall (GetName a) task r])) |}.

(** [communication.AgentClient] seen from its callers: each method is a
    remote call whose outcome the caller cannot predict. *)
Record AgentClient (W : Type) : Type := mkAgentClient {
  PublishEvent :
    string -> string -> list (string * string) -> W -> option error * W;
  SyncState : string -> string -> W -> (Z * option error) * W
}.
Arguments mkAgentClient {W} _ _.
Arguments PublishEvent {W} _ _ _ _ _.
Arguments SyncState {W} _ _ _ _.

End Agents.
Export Agents.

(** ** Package communication: state.go *)

Module Communication.

Record StateEntry (V : Type) : Type := mkStateEntry {
  Value : V;
  Version : Z;
  UpdatedAt : Time
}.
Arguments mkStateEntry {V} _ _ _.
Arguments Value {V} _.
Arguments Version {V} _.
Arguments UpdatedAt {V} _.

(** [StateStore]: the map [states]. *)
Abbreviation StateStore V := (gmap string (StateEntry V)).

Definition NewStateStore {V : Type} : StateStore V := ∅.

(** [StateStore.Set] (the bare name is reserved), the clock reading [now]. *)
Definition StateStore_Set {V : Type} (ss : StateStore V) (key : string) (value : V)
    (now : Time) : StateStore V :=
  let version :=
    match ss !! key with
    | Some currentEntry => wrap64 (Version currentEntry + 1)
    | None => 1
    end in
  <[key := {| Value := value; Version := version; UpdatedAt := now |}]> ss.

(** [Get]: [None] for [exists = false]. *)
Definition Get {V : Type} (ss : StateStore V) (key : string)
  : option (StateEntry V) := ss !! key.

(** [Watch].  The entries sent on the [updates] channel, in order, are
    the observable behaviour; the watcher goroutine keeps [lastVersion]. *)
Record Watcher (V : Type) : Type := mkWatcher {
  lastVersion : Z;
  updates : list (StateEntry V)
}.
Arguments mkWatcher {V} _ _.
Arguments lastVersion {V} _.
Arguments updates {V} _.

(** The call itself: the initial state is sent, the goroutine starts with
    [lastVersion = -1]. *)
Definition Watch {V : Type} (ss : StateStore V) (key : string) : Watcher V :=
  {| lastVersion := -1;
     updates := match Get ss key with Some entry => [entry] | None => [] end |}.

(** One firing of the ticker in the goroutine. *)
Definition Watch_tick {V : Type} (ss : StateStore V) (key : string)
    (wt : Watcher V) : Watcher V :=
  match Get ss key with
  | Some entry =>
      if lastVersion wt <? Version entry
      then {| lastVersion := Version entry; updates := updates wt ++ [entry] |}
      else wt
  | None => wt
  end.

(** What happens around a store that is being watched on [key]: writers
    call [Set] on any key, the ticker fires. *)
Inductive op (V : Type) : Type :=
| OpSet (key : string) (value : V) (now : Time)
| OpTick.
Arguments OpSet {V} _ _ _.
Arguments OpTick {V}.

Definition step {V : Type} (key : string) (s : StateStore V * Watcher V)
    (o : op V) : StateStore V * Watcher V :=
  match o with
  | OpSet k v now => (StateStore_Set (fst s) k v now, snd s)
  | OpTick => (fst s, Watch_tick (fst s) key (snd s))
  end.

(** A store [ss] on which [Watch key] is called and then [ops] happen. *)
Definition watch_run {V : Type} (ss : StateStore V) (key : string)
    (ops : list (op V)) : StateStore V * Watcher V :=
  foldl (step key) (ss, Watch ss key) ops.

(** A sequence of [Set] calls [(key, value, now)] on a store. *)
Definition apply_sets {V : Type} (ss : StateStore V)
    (calls : list (string * V * Time)) : StateStore V :=
  foldl (fun s c => StateStore_Set s c.1.1 c.1.2 c.2) ss calls.

End Communication.

(** ** Package types *)

Module Types.

Record TaskRequirements : Type := mkTaskRequirements {
  AgentID : string;
  Tags : list string;
  MinCPU : float;
  MinMem : Z
}.

End Types.

(** ** Package distributed *)

Module Distributed.

Inductive NodeStatus : Type :=
| StatusUnknown
| StatusHealthy
| StatusOverloaded
| StatusUnhealthy.

#[export] Instance NodeStatus_eq_dec : EqDecision NodeStatus.
Proof. solve_decision. Defined.

(** *** node.go *)

Record NodeConfig : Type := mkNodeConfig {
  ID : string;
  Address : string;
  ClusterAddr : string;
  Tags : list string
}.

Record Node (W : Type) : Type := mkNode {
  config : NodeConfig;
  client : AgentClient W;
  agents : gmap string (Agent W);
  capacity : Z;
  load : Z;
  status : NodeStatus;
  lastPing : Time
}.
Arguments mkNode {W} _ _ _ _ _ _ _.
Arguments config {W} _.
Arguments client {W} _.
Arguments agents {W} _.
Arguments capacity {W} _.
Arguments load {W} _.
Arguments status {W} _.
Arguments lastPing {W} _.

(** [NewNode]; [dialed] is what [communication.NewAgentClient] returned and
    [now] the clock reading. *)
Definition NewNode {W : Type} (config : NodeConfig)
    (dialed : AgentClient W + error) (now : Time) : Node W + error :=
  match dialed with
  | inr err => inr (Wrapped "failed to create agent client: " err)
  | inl client =>
      inl {| config := config; client := client; agents := ∅;
             capacity := 100; load := 0; status := StatusHealthy;
             lastPing := now |}
  end.

(** [RegisterAgent] *)
Definition RegisterAgent {W : Type} (n : Node W) (a : Agent W) (w : W)
  : option error * Node W * W :=
  if capacity n <=? load n
  then (Some (ErrorString "node is at capacity"), n, w)
  else
    let id := GetName a in
    let n1 := {| config := config n; client := client n;
                 agents := <[id := a]> (agents n);
                 capacity := capacity n; load := wrap64 (load n + 1);
                 status := status n; lastPing := lastPing n |} in
    let (err, w1) :=
      PublishEvent (client n) "agent_registered"
        ("Agent " +:+ id +:+ " registered on node " +:+ ID (config n))
        [("agent_id", id); ("node_id", ID (config n))] w in
    (err, n1, w1).

(** [ExecuteTask] *)
Definition ExecuteTask {W : Type} (n : Node W) (agentID task : string) (w : W)
  : (string * option error) * W :=
  match agents n !! agentID with
  | None => (("", Some (ErrorString ("agent not found: " +:+ agentID))), w)
  | Some agent =>
      let md := [("agent_id", agentID); ("node_id", ID (config n))] in
      let (err, w1) :=
        PublishEvent (client n) "task_start"
          ("Starting task on agent " +:+ agentID) md w in
      match err with
      | Some e => (("", Some (Wrapped "failed to publish start event: " e)), w1)
      | None =>
          let (r, w2) := Execute agent task w1 in
          match snd r with
          | Some e =>
              let (_, w3) :=
                PublishEvent (client n) "task_error"
                  ("Task failed on agent " +:+ agentID +:+ ": " +:+ Error e)
                  md w2 in
              (("", Some (Wrapped "task execution failed: " e)), w3)
          | None =>
              let (_, w3) :=
                PublishEvent (client n) "task_complete"
                  ("Task completed on agent " +:+ agentID) md w2 in
              ((fst r, None), w3)
          end
      end
  end.

(** [float64(n.load) / float64(n.capacity)] *)
Definition loadFactor {W : Type} (n : Node W) : float :=
  PrimFloat.div (float64 (load n)) (float64 (capacity n)).

(** [UpdateStatus], the clock reading [now]. *)
Definition UpdateStatus {W : Type} (n : Node W) (now : Time) : Node W :=
  {| config := config n; client := client n; agents := agents n;
     capacity := capacity n; load := load n;
     status := if PrimFloat.ltb (PrimFloat.div 8 10) (loadFactor n)
               then StatusOverloaded else StatusHealthy;
     lastPing := now |}.

(** *** cluster.go *)

Record ClusterConfig : Type := mkClusterConfig {
  ClusterAddress : string;
  HeartbeatInterval : Duration;
  NodeTimeout : Duration
}.

Record Cluster (W : Type) : Type := mkCluster {
  cluster_config : ClusterConfig;
  nodes : gmap string (Node W);
  cluster_client : AgentClient W
}.
Arguments mkCluster {W} _ _ _.
Arguments cluster_config {W} _.
Arguments nodes {W} _.
Arguments cluster_client {W} _.

(** [nodeMatchesRequirements] *)
Definition nodeMatchesRequirements {W : Type} (node : Node W)
    (requirements : Types.TaskRequirements) : bool :=
  if negb (String.eqb (Types.AgentID requirements) "")
     && negb (bool_decide (is_Some (agents node !! Types.AgentID requirements)))
  then false
  else if 0 <? Z.of_nat (length (Types.Tags requirements))
  then
    let nodeTags : gmap string bool :=
      foldl (fun m tag => <[tag := true]> m) ∅ (Tags (config node)) in
    forallb (fun requiredTag => default false (nodeTags !! requiredTag))
            (Types.Tags requirements)
  else true.

(** The body of the loop of [findSuitableNode] for one node; the pair is
    [(bestNode, lowestLoad)]. *)
Definition consider {W : Type} (requirements : Types.TaskRequirements)
    (best : option (Node W) * float) (node : Node W) : option (Node W) * float :=
  if negb (bool_decide (status node = StatusHealthy)) then best
  else if negb (nodeMatchesRequirements node requirements) then best
  else
    let loadFactor := loadFactor node in
    if PrimFloat.ltb loadFactor (snd best) then (Some node, loadFactor) else best.

(** [findSuitableNode].  Go leaves the order in which [range] walks a map
    unspecified; [visited] is the order of this walk over [c.nodes]. *)
Definition findSuitableNode {W : Type} (visited : list (Node W))
    (requirements : Types.TaskRequirements) : option (Node W) :=
  fst (foldl (consider requirements) (None, 1%float) visited).

(** The walks [range] may take over the cluster's map. *)
Definition walk_of {W : Type} (c : Cluster W) (visited : list (Node W)) : Prop :=
  visited ≡ₚ (map_to_list (nodes c)).*2.

Definition ErrNoSuitableNode : error := ErrorString "no suitable node found for task".

(** [ScheduleTask], [visited] as in [findSuitableNode]. *)
Definition ScheduleTask {W : Type} (visited : list (Node W)) (task : string)
    (requirements : Types.TaskRequirements) (w : W)
  : (string * option error) * W :=
  match findSuitableNode visited requirements with
  | None => (("", Some ErrNoSuitableNode), w)
  | Some node =>
      let (r, w1) := ExecuteTask node (Types.AgentID requirements) task w in
      match snd r with
      | Some err => (("", Some (Wrapped "task execution failed: " err)), w1)
      | None => ((fst r, None), w1)
      end
  end.

End Distributed.

(** ** Package workflow *)

Module Workflow.

(** [ctx.Err()] as the world has it: [Some] once [ctx.Done()] is closed. *)
Definition Context (W : Type) : Type := W -> option error.

(** *** SequentialWorkflow *)

(** The [for i, agent := range w.agents] loop of [Execute] from index [i];
    [len] is [len(w.agents)], [rest] the agents still to visit. *)
Fixpoint sequential_loop {W : Type} (ctx : Context W) (rest : list (Agent W))
    (i len : Z) (task finalResult : string) (w : W)
  : (string * option error) * W :=
  match rest with
  | [] => ((finalResult, None), w)
  | agent :: rest' =>
      match ctx w with
      | Some ctxErr => (("", Some ctxErr), w)
      | None =>
          let (r, w1) := Execute agent task w in
          match snd r with
          | Some execErr => (("", Some execErr), w1)
          | None =>
              let result := fst r in
              sequential_loop ctx rest' (i + 1) len result
                (if i =? len - 1 then result else finalResult) w1
          end
      end
  end.

(** [SequentialWorkflow.Execute] *)
Definition Sequential_Execute {W : Type} (ctx : Context W)
    (agents : list (Agent W)) (task : string) (w : W)
  : (string * option error) * W :=
  sequential_loop ctx agents 0 (Z.of_nat (length agents)) task "" w.

(** [AddAgent], for both workflows. *)
Definition AddAgent {W : Type} (agents : list (Agent W)) (a : Agent W)
  : list (Agent W) := agents ++ [a].

(** *** MixtureWorkflow *)

Record MixtureWorkflow (W : Type) : Type := mkMixtureWorkflow {
  agents : list (Agent W);
  aggregator : Agent W
}.
Arguments mkMixtureWorkflow {W} _ _.
Arguments agents {W} _.
Arguments aggregator {W} _.

(** [stringSliceToString] *)
Fixpoint stringSliceToString_from (i len : Z) (slice : list string)
    (result : string) : string :=
  match slice with
  | [] => result
  | s :: slice' =>
      let result1 := result +:+ s in
      let result2 :=
        if i <? len - 1 then result1 +:+ LF else result1 in
      stringSliceToString_from (i + 1) len slice' result2
  end.

Definition stringSliceToString (slice : list string) : string :=
  stringSliceToString_from 0 (Z.of_nat (length slice)) slice "".

(** A buffered channel of errors. *)
Record chan : Type := mkChan {
  buffer : list error;
  closed : bool
}.

(** [select { case err := <-errors: ...  default: }].  [None] is the
    default case; a closed and drained channel is always ready and yields
    the zero value [nil]. *)
Definition recv_or_default (ch : chan) : option (option error) :=
  match buffer ch with
  | err :: _ => Some (Some err)
  | [] => if closed ch then Some None else None
  end.

(** [fmt.Sprintf("%v", err)] *)
Definition fmt_v (err : option error) : string :=
  match err with Some e => Error e | None => "<nil>" end.

(** The state the member goroutines share: the [results] slice, the
    [errors] channel's buffer, the world. *)
Record shared (W : Type) : Type := mkShared {
  results : list string;
  errors : list error;
  world : W
}.
Arguments mkShared {W} _ _ _.
Arguments results {W} _.
Arguments errors {W} _.
Arguments world {W} _.

(** The goroutine started for member [index]. *)
Definition member {W : Type} (client : AgentClient W) (task : string)
    (index : nat) (a : Agent W) (st : shared W) : shared W :=
  let idx1 := pretty (index + 1)%nat in
  let (_, w0) :=
    PublishEvent client "agent_start"
      ("Starting agent " +:+ idx1 +:+ ": " +:+ GetName a)
      [("agent_index", idx1)] (world st) in
  let (r, w1) := Execute a task w0 in
  match snd r with
  | Some err =>
      let (_, w2) :=
        PublishEvent client "agent_error"
          ("Agent " +:+ idx1 +:+ " failed: " +:+ Error err)
          [("agent_index", idx1)] w1 in
      {| results := results st;
         errors := errors st ++ [Wrapped ("agent " +:+ pretty index +:+ " failed: ") err];
         world := w2 |}
  | None =>
      let result := fst r in
      let (v, w2) :=
        SyncState client ("agent_" +:+ idx1 +:+ "_result") result w1 in
      match snd v with
      | Some err =>
          {| results := results st;
             errors := errors st ++ [Wrapped "failed to sync state: " err];
             world := w2 |}
      | None =>
          let (_, w3) :=
            PublishEvent client "agent_complete"
              ("Agent " +:+ idx1 +:+ " completed")
              [("agent_index", idx1);
               ("state_version", pretty (fst v));
               ("result_length", pretty (String.length result))] w2 in
          {| results := <[index := result]> (results st);
             errors := errors st;
             world := w3 |}
      end
  end.

(** The members' goroutines up to [wg.Wait()].  Each goroutine touches the
    shared state only through the world, its own slot of [results] and a
    send on [errors]; [schedule] lists the members in the order in which
    they take their turn. *)
Definition run_members {W : Type} (client : AgentClient W)
    (wf : MixtureWorkflow W) (task : string) (schedule : list nat) (w : W)
  : shared W :=
  foldl (fun st index =>
           match agents wf !! index with
           | Some a => member client task index a st
           | None => st
           end)
        {| results := replicate (length (agents wf)) ""; errors := []; world := w |}
        schedule.

(** [MixtureWorkflow.Execute]; [dialed] is what
    [communication.NewAgentClient] returned.  The deferred [client.Close()]
    has its outcome dropped and is left out. *)
Definition Mixture_Execute {W : Type} (dialed : AgentClient W + error)
    (wf : MixtureWorkflow W) (task : string) (schedule : list nat) (w : W)
  : (string * option error) * W :=
  match dialed with
  | inr err => (("", Some (Wrapped "failed to create event client: " err)), w)
  | inl client =>
      let n := pretty (length (agents wf)) in
      let (err, w1) :=
        PublishEvent client "workflow_start"
          ("Starting mixture workflow with " +:+ n +:+ " agents")
          [("num_agents", n)] w in
      match err with
      | Some e => (("", Some (Wrapped "failed to publish start event: " e)), w1)
      | None =>
          let st := run_members client wf task schedule w1 in
          let errors := {| buffer := errors st; closed := true |} in
          match recv_or_default errors with
          | Some err =>
              let (_, w2) :=
                PublishEvent client "workflow_error"
                  ("Workflow failed: " +:+ fmt_v err) [] (world st) in
              (("", err), w2)
          | None =>
              let (_, w2) :=
                PublishEvent client "aggregation_start"
                  "Starting result aggregation"
                  [("num_results", pretty (length (results st)))] (world st) in
              let aggregatedInput :=
                "Aggregate the following results:" +:+ LF
                +:+ stringSliceToString (results st) in
              let (r, w3) := Execute (aggregator wf) aggregatedInput w2 in
              match snd r with
              | Some e =>
                  let (_, w4) :=
                    PublishEvent client "aggregation_error"
                      ("Aggregation failed: " +:+ Error e) [] w3 in
                  (("", Some (Wrapped "aggregation failed: " e)), w4)
              | None =>
                  let (_, w4) :=
                    PublishEvent client "workflow_complete"
                      "Mixture workflow completed successfully"
                      [("final_result_length", pretty (String.length (fst r)))]
                      w3 in
                  ((fst r, None), w4)
              end
          end
      end
  end.

End Workflow.

(** * Vocabulary of the specification *)

Module Spec.
Import Reliability.

(** The two calls that step a circuit breaker. *)
Inductive cb_call : Type :=
| CallAllowRequest (now : Time)
| CallRecordResult (err : option error) (now : Time).

Definition cb_step (cb : CircuitBreaker) (c : cb_call) : CircuitBreaker :=
  match c with
  | CallAllowRequest now => snd (AllowRequest cb now)
  | CallRecordResult err now => RecordResult cb err now
  end.

Definition cb_run (cb : CircuitBreaker) (cs : list cb_call) : CircuitBreaker :=
  foldl cb_step cb cs.

(** [resetTimeout] has elapsed since the last failure, as the breaker
    measures it: [time.Since(cb.lastFailure) > cb.resetTimeout]. *)
Definition timeout_elapsed (cb : CircuitBreaker) (now : Time) : Prop :=
  resetTimeout cb < Since now (lastFailure cb).

#[export] Instance timeout_elapsed_dec cb now : Decision (timeout_elapsed cb now).
Proof. unfold timeout_elapsed. apply _. Defined.

(** The breaker disallows a call made at [now]. *)
Definition rejects (cb : CircuitBreaker) (now : Time) : Prop :=
  state cb = StateOpen /\ ~ timeout_elapsed cb now.

#[export] Instance rejects_dec cb now : Decision (rejects cb now).
Proof. unfold rejects. apply _. Defined.

End Spec.

Module RateSpec.
Import Reliability.

(** The refill of the specification:
    [min(bucketSize, tokens + elapsedSeconds * rate)]. *)
Definition refilled (rl : RateLimiter) (now : Time) : float :=
  min (float64 (bucketSize rl))
      (PrimFloat.add (tokens rl)
         (PrimFloat.mul (Seconds (Sub now (lastRefill rl))) (rate rl))).

(** Successive calls of [Allow] at the given clock readings. *)
Fixpoint Allow_at (rl : RateLimiter) (times : list Time) : list bool * RateLimiter :=
  match times with
  | [] => ([], rl)
  | now :: times' =>
      let (ok, rl1) := Allow rl now in
      let (oks, rl2) := Allow_at rl1 times' in
      (ok :: oks, rl2)
  end.

End RateSpec.

Module StoreSpec.
Import Communication.

(** How many of the [Set] calls in [calls] write to [key]. *)
Definition writes_to {V : Type} (key : string) (calls : list (string * V * Time))
  : nat :=
  length (filter (fun c => c.1.1 = key) calls).

End StoreSpec.

Module WatchSpec.
Import Communication.

(** What the watcher goroutine maintains. *)
Definition watch_inv {V : Type} (ss : StateStore V) (key : string)
    (ops : list (op V)) (wt : Watcher V) (polled : list (StateEntry V)) : Prop :=
  updates wt = match Get ss key with Some e => [e] | None => [] end ++ polled /\
  StronglySorted Z.lt (Version <$> polled) /\
  lastVersion wt = default (-1) (last (Version <$> polled)) /\
  Forall (fun e => Version e <= lastVersion wt) polled /\
  Forall (fun e => exists ops1 ops2,
            ops = ops1 ++ OpTick :: ops2 /\
            Get (fst (watch_run ss key ops1)) key = Some e) polled /\
  (forall ops1 ops2 e,
      ops = ops1 ++ OpTick :: ops2 ->
      Get (fst (watch_run ss key ops1)) key = Some e ->
      Version e <= lastVersion wt).

End WatchSpec.

Module NodeSpec.
Import Distributed.

(** [k] successive calls [n.RegisterAgent(a)], results dropped. *)
Fixpoint RegisterAgent_times {W : Type} (k : nat) (n : Node W) (a : Agent W)
    (w : W) : Node W * W :=
  match k with
  | O => (n, w)
  | S k' =>
      let '(_, n1, w1) := RegisterAgent n a w in
      RegisterAgent_times k' n1 a w1
  end.

(** The event [RegisterAgent] publishes. *)
Definition registered_event {W : Type} (n : Node W) (a : Agent W) (w : W)
  : option error * W :=
  PublishEvent (client n) "agent_registered"
    ("Agent " +:+ GetName a +:+ " registered on node " +:+ ID (config n))
    [("agent_id", GetName a); ("node_id", ID (config n))] w.

End NodeSpec.

(** * Concrete collaborators, for the examples *)

Module Stubs.
Import Distributed.

(** A client whose calls all succeed. *)
Definition quiet_client {W : Type} : AgentClient W :=
  {| PublishEvent := fun _ _ _ w => (None, w);
     SyncState := fun _ _ w => ((1, None), w) |}.

(** An agent that answers [name(input)]. *)
Definition tagging {W : Type} (name : string) : Agent W :=
  {| GetName := name;
     Execute := fun input w => ((name +:+ "(" +:+ input +:+ ")", None), w) |}.

(** An agent that always fails with [msg]. *)
Definition failing {W : Type} (name msg : string) : Agent W :=
  {| GetName := name;
     Execute := fun _ w => (("", Some (ErrorString msg)), w) |}.

(** A node as [NewNode] makes it, holding [agents] and carrying [load]. *)
Definition node_with {W : Type} (id : string) (tags : list string)
    (agents : gmap string (Agent W)) (load : Z) (status : NodeStatus) : Node W :=
  {| config := {| ID := id; Address := ""; ClusterAddr := ""; Tags := tags |};
     client := quiet_client; agents := agents;
     capacity := 100; load := load; status := status; lastPing := 0 |}.

(** A cluster holding the given nodes under their ids. *)
Definition cluster_of {W : Type} (ns : list (Node W)) : Cluster W :=
  {| cluster_config :=
       {| ClusterAddress := ""; HeartbeatInterval := Second; NodeTimeout := Second |};
     nodes := list_to_map ((fun n => (ID (config n), n)) <$> ns);
     cluster_client := quiet_client |}.

(** Requirements naming an agent and tags only. *)
Definition requiring (agentID : string) (tags : list string) : Types.TaskRequirements :=
  {| Types.AgentID := agentID; Types.Tags := tags;
     Types.MinCPU := 0; Types.MinMem := 0 |}.

(** A callback that fails at every invocation and counts them in the
    world; the error names the invocation. *)
Definition flaky : Func nat :=
  fun calls => (Some (ErrorString ("failure " +:+ pretty calls)), S calls).

(** Timers that always fire, and a context that is already cancelled. *)
Definition timer_fires {W : Type} : Wait W := fun _ w => (None, w).
Definition context_cancelled {W : Type} : Wait W :=
  fun _ w => (Some ContextCanceled, w).

End Stubs.

Module SchedSpec.
Import Distributed.

(** A node qualifies for a task: it is Healthy, carries every required
    tag, and hosts the required agent when one is named. *)
Definition qualifies {W : Type} (requirements : Types.TaskRequirements)
    (n : Node W) : Prop :=
  status n = StatusHealthy /\
  (forall tag, tag ∈ Types.Tags requirements -> tag ∈ Tags (config n)) /\
  (Types.AgentID requirements <> "" ->
   is_Some (agents n !! Types.AgentID requirements)).

(** The ratio load/capacity as a number. *)
Definition ratio {W : Type} (n : Node W) : Q :=
  (inject_Z (load n) / inject_Z (capacity n))%Q.

(** Nodes as the package makes them: [NewNode] fixes the capacity at 100,
    [RegisterAgent] is the only writer of [load] and keeps it within
    [0 .. capacity]. *)
Definition well_formed {W : Type} (n : Node W) : Prop :=
  capacity n = 100 /\ 0 <= load n <= capacity n.

(** [float64(l) / float64(100)] *)
Definition factor100 (l : Z) : float :=
  PrimFloat.div (float64 l) (float64 100).

(** On the loads a node can have, the load factors computed in binary64
    are ordered as the loads are. *)
Definition factor100_ordered : bool :=
  forallb (fun a =>
    forallb (fun b =>
      Bool.eqb (PrimFloat.ltb (factor100 (Z.of_nat a)) (factor100 (Z.of_nat b)))
               (Nat.ltb a b))
      (seq 0 101))
    (seq 0 101).

(** What the loop of [findSuitableNode] has established once it has
    visited [seen]: [lowestLoad] is the factor of some load [m], the best
    node so far carries that load, and no qualifying node seen carries
    less. *)
Definition scan_inv {W : Type} (requirements : Types.TaskRequirements)
    (seen : list (Node W)) (best : option (Node W) * float) : Prop :=
  exists m : Z,
    0 <= m <= 100 /\ snd best = factor100 m /\
    match fst best with
    | None => m = 100
    | Some b => b ∈ seen /\ qualifies requirements b /\ load b = m /\ m < 100
    end /\
    forall n, n ∈ seen -> qualifies requirements n -> m <= load n.

End SchedSpec.

Module WorkflowSpec.
Import Workflow.

(** The composition of the specification: each agent's output is the next
    agent's input, the last output is the result, and the first failure
    ends the run with that agent's error as it is. *)
Fixpoint pipeline {W : Type} (agents : list (Agent W)) (x : string) (w : W)
  : (string * option error) * W :=
  match agents with
  | [] => ((x, None), w)
  | a :: rest =>
      let (r, w1) := Execute a x w in
      match snd r with
      | Some e => (("", Some e), w1)
      | None => pipeline rest (fst r) w1
      end
  end.

(** The context is never done. *)
Definition live {W : Type} (ctx : Context W) : Prop := forall w, ctx w = None.

(** A context over a world that carries a log. *)
Definition ctx_logged {W L : Type} (ctx : Context W) : Context (W * L) :=
  fun s => ctx (fst s).

(** [chained x names calls res]: [calls] is a log of agents named [names]
    run in that order from input [x], each on the output of the one
    before, stopping after the first failure; [res] is the last output, or
    the failure. *)
Inductive chained : string -> list string -> list call -> string * option error -> Prop :=
| chained_done x :
    chained x [] [] (x, None)
| chained_fail x name names s e :
    chained x (name :: names) [mkCall name x (s, Some e)] ("", Some e)
| chained_step x name names s calls res :
    chained s names calls res ->
    chained x (name :: names) (mkCall name x (s, None) :: calls) res.

End WorkflowSpec.

Module RetrySpec.
Import Reliability.

(** A callback that fails at every invocation with an error [Retry] takes
    as retryable; an empty allow-list makes every error so. *)
Definition always_fails_retryable {W : Type} (fn : Func W) (config : RetryConfig)
  : Prop :=
  forall w, exists e,
    fst (fn w) = Some e /\
    (RetryableErrors config = [] \/ isRetryable e (RetryableErrors config) = true).

(** No wait is cut short by the context. *)
Definition never_cancelled {W : Type} (wait : Wait W) : Prop :=
  forall d w, fst (wait d w) = None.

(** The delays of [k] successive waits starting from [delay]. *)
Fixpoint backoff (config : RetryConfig) (delay : Duration) (k : nat)
  : list Duration :=
  match k with
  | O => []
  | S k' => delay :: backoff config (nextDelay config delay) k'
  end.

(** [n] invocations with a wait between each two. *)
Fixpoint attempts_trace (config : RetryConfig) (delay : Duration) (n : nat)
  : list event :=
  match n with
  | O => []
  | S n' =>
      match n' with
      | O => [EvCall]
      | S _ => EvCall :: EvWait delay :: attempts_trace config (nextDelay config delay) n'
      end
  end.

(** The world in which the invocation after [k] failed rounds runs. *)
Fixpoint after_rounds {W : Type} (wait : Wait W) (fn : Func W)
    (config : RetryConfig) (delay : Duration) (k : nat) (w : W) : W :=
  match k with
  | O => w
  | S k' =>
      after_rounds wait fn config (nextDelay config delay) k'
                   (snd (wait delay (snd (fn w))))
  end.

End RetrySpec.

Module MixtureSpec.
Import Workflow.

(** Every call of the client succeeds. *)
Definition client_succeeds {W : Type} (client : AgentClient W) : Prop :=
  (forall ty payload md w, fst (PublishEvent client ty payload md w) = None) /\
  (forall k v w, snd (fst (SyncState client k v w)) = None).

(** Every member agent succeeds, whatever its input and the world. *)
Definition members_succeed {W : Type} (wf : MixtureWorkflow W) : Prop :=
  forall a, a ∈ agents wf -> forall x w, snd (fst (Execute a x w)) = None.

(** What the specification expects the aggregator to be given. *)
Definition joined_outputs (outputs : list string) : string :=
  String.concat LF outputs.

End MixtureSpec.

(** * The rest of the cited files, and their callers *)

(** ** rate_limiter.go: WaitN *)

Module RateLimiterWait.
Import Reliability.

(** What the loop of [WaitN] asks of its surroundings: whether the context
    is done, the clock, and sleeping. *)
Record Runtime (W : Type) : Type := mkRuntime {
  ctx_err : W -> option error;
  clock : W -> Time;
  sleep : Duration -> W -> W
}.
Arguments mkRuntime {W} _ _ _.
Arguments ctx_err {W} _ _.
Arguments clock {W} _ _.
Arguments sleep {W} _ _ _.

(** A call either returns or panics. *)
Inductive outcome : Type :=
| Returned (err : option error)
| Panicked (msg : string).

(** [WaitN]; [fuel] bounds the iterations of the loop, [None] means it ran
    out.  [time.Second / time.Duration(rl.rate)] is an integer division,
    which panics on a zero divisor. *)
Fixpoint WaitN {W : Type} (fuel : nat) (rt : Runtime W) (rl : RateLimiter)
    (n : Z) (w : W) : option (outcome * RateLimiter * W) :=
  if negb (0 <? n) then Some (Returned None, rl, w)
  else
    match fuel with
    | O => None
    | S fuel' =>
        match ctx_err rt w with
        | Some e => Some (Returned (Some e), rl, w)
        | None =>
            let (ok, rl1) := Allow rl (clock rt w) in
            if ok then WaitN fuel' rt rl1 (wrap64 (n - 1)) w
            else
              let divisor := int64_of_float (rate rl1) in
              if divisor =? 0
              then Some (Panicked "runtime error: integer divide by zero", rl1, w)
              else WaitN fuel' rt rl1 n (sleep rt (Z.quot Second divisor) w)
        end
    end.

End RateLimiterWait.

(** ** server.go: SyncState *)

Module Server.
Import Communication.

Record SyncResponse : Type := mkSyncResponse {
  Success : bool;
  ErrorText : string;
  SyncVersion : Z
}.

(** [AgentServer.SyncState] on the server's store, the clock reading [now]. *)
Definition SyncState {V : Type} (ss : StateStore V) (key : string) (value : V)
    (now : Time) : (SyncResponse * option error) * StateStore V :=
  let ss1 := StateStore_Set ss key value now in
  let entryVersion :=
    match Get ss1 key with Some entry => Version entry | None => 0 end in
  (({| Success := true; ErrorText := ""; SyncVersion := entryVersion |}, None), ss1).

(** Successive requests; the responses in order. *)
Fixpoint SyncState_all {V : Type} (ss : StateStore V)
    (requests : list (string * V * Time))
  : list (SyncResponse * option error) * StateStore V :=
  match requests with
  | [] => ([], ss)
  | r :: requests' =>
      let (resp, ss1) := SyncState ss r.1.1 r.1.2 r.2 in
      let (resps, ss2) := SyncState_all ss1 requests' in
      (resp :: resps, ss2)
  end.

End Server.

(** ** events.go and message.go *)

Module Messaging.

(** *** EventSystem *)

Record Event (P : Type) : Type := mkEvent {
  EventType : string;
  Payload : P;
  EventMetadata : gmap string P
}.
Arguments mkEvent {P} _ _ _.
Arguments EventType {P} _.
Arguments Payload {P} _.
Arguments EventMetadata {P} _.

(** [EventHandler]: [func(context.Context, Event) error] *)
Definition EventHandler (P W : Type) : Type := Event P -> W -> option error * W.

(** [EventSystem]: the map [handlers]. *)
Abbreviation EventSystem P W := (gmap string (list (EventHandler P W))).

Definition NewEventSystem {P W : Type} : EventSystem P W := ∅.

(** [RegisterHandler]: append to the handlers of the type. *)
Definition RegisterHandler {P W : Type} (es : EventSystem P W)
    (eventType : string) (handler : EventHandler P W) : EventSystem P W :=
  let registered : list (EventHandler P W) := default [] (es !! eventType) in
  <[eventType := registered ++ [handler]]> es.

(** The goroutine of handler number [i]: a failure is sent on [errCh]. *)
Definition handle {P W : Type} (handlers : list (EventHandler P W))
    (event : Event P) (st : list error * W) (i : nat) : list error * W :=
  match (handlers !! i : option (EventHandler P W)) with
  | Some h =>
      let (r, w1) := (h event (snd st) : option error * W) in
      (match r with Some err => fst st ++ [err] | None => fst st end, w1)
  | None => st
  end.

(** [EmitEvent]; [schedule] lists the handlers' goroutines in the order in
    which they take their turn.  [errCh] has room for every handler, so no
    send blocks; it is closed before the select. *)
Definition EmitEvent {P W : Type} (es : EventSystem P W) (event : Event P)
    (schedule : list nat) (w : W) : option error * W :=
  let handlers : list (EventHandler P W) := default [] (es !! EventType event) in
  let st := foldl (handle handlers event) ([], w) schedule in
  match Workflow.recv_or_default
          {| Workflow.buffer := fst st; Workflow.closed := true |} with
  | Some err => (err, snd st)
  | None => (None, snd st)
  end.

(** *** MessageBus *)

Record Message (P : Type) : Type := mkMessage {
  MsgID : string;
  From : string;
  To : string;
  Content : P;
  Timestamp : Time;
  MsgType : string;
  MsgMetadata : gmap string P
}.
Arguments mkMessage {P} _ _ _ _ _ _ _.

(** The capacity of a subscriber's channel. *)
Definition chan_cap : nat := 100.

(** [MessageBus]: for each topic its subscribers' channels in order of
    subscription, each given by the messages it holds. *)
Abbreviation MessageBus P := (gmap string (list (list (Message P)))).

Definition NewMessageBus {P : Type} : MessageBus P := ∅.

(** [Subscribe]: a fresh empty channel is appended; the result names it by
    its position among the topic's subscribers. *)
Definition Subscribe {P : Type} (mb : MessageBus P) (topic : string)
  : nat * MessageBus P :=
  let subs : list (list (Message P)) := default [] (mb !! topic) in
  (length subs, <[topic := subs ++ [[]]]> mb).

(** The loop of [Publish] from subscriber number [i].  [ctx_at i] is the
    context's error when subscriber [i] is reached; when both the context
    and the send are ready the runtime chooses, [pick_done i] telling
    whether it takes the context. *)
Fixpoint publish_loop {P : Type} (ctx_at : nat -> option error)
    (pick_done : nat -> bool) (i : nat) (msg : Message P)
    (chans : list (list (Message P))) : option error * list (list (Message P)) :=
  match chans with
  | [] => (None, [])
  | ch :: rest =>
      let can_send := Nat.ltb (length ch) chan_cap in
      match ctx_at i with
      | Some err =>
          if can_send && negb (pick_done i)
          then
            let (r, rest') := publish_loop ctx_at pick_done (S i) msg rest in
            (r, (ch ++ [msg]) :: rest')
          else (Some err, ch :: rest)
      | None =>
          let (r, rest') := publish_loop ctx_at pick_done (S i) msg rest in
          (r, (if can_send then ch ++ [msg] else ch) :: rest')
      end
  end.

(** [Publish] *)
Definition Publish {P : Type} (ctx_at : nat -> option error)
    (pick_done : nat -> bool) (mb : MessageBus P) (topic : string)
    (msg : Message P) : option error * MessageBus P :=
  match mb !! topic with
  | None => (None, mb)
  | Some subscribers =>
      let (r, subscribers') := publish_loop ctx_at pick_done 0 msg subscribers in
      (r, <[topic := subscribers']> mb)
  end.

End Messaging.

(** ** cluster.go: the registry and the heartbeat monitor *)

Module Registry.
Import Distributed.

(** [NewCluster]; [dialed] is what [communication.NewAgentClient] returned.
    The monitor it starts is [heartbeat_tick] at each firing of its ticker. *)
Definition NewCluster {W : Type} (config : ClusterConfig)
    (dialed : AgentClient W + error) : Cluster W + error :=
  match dialed with
  | inr err => inr (Wrapped "failed to create agent client: " err)
  | inl client =>
      inl {| cluster_config := config; nodes := ∅; cluster_client := client |}
  end.

Definition set_nodes {W : Type} (c : Cluster W) (ns : gmap string (Node W))
  : Cluster W :=
  {| cluster_config := cluster_config c; nodes := ns;
     cluster_client := cluster_client c |}.

(** [RegisterNode] *)
Definition RegisterNode {W : Type} (c : Cluster W) (node : Node W) (w : W)
  : option error * Cluster W * W :=
  let id := ID (config node) in
  match nodes c !! id with
  | Some _ => (Some (ErrorString ("node already registered: " +:+ id)), c, w)
  | None =>
      let c1 := set_nodes c (<[id := node]> (nodes c)) in
      let (err, w1) :=
        PublishEvent (cluster_client c) "node_registered"
          ("Node " +:+ id +:+ " registered with cluster")
          [("node_id", id); ("address", Address (config node))] w in
      (err, c1, w1)
  end.

(** [GetNode] *)
Definition GetNode {W : Type} (c : Cluster W) (id : string) : Node W + error :=
  match nodes c !! id with
  | Some node => inl node
  | None => inr (ErrorString ("node not found: " +:+ id))
  end.

(** [GetHealthyNodes], [visited] being the order of the walk over the map. *)
Definition GetHealthyNodes {W : Type} (visited : list (Node W)) : list (Node W) :=
  foldl (fun healthy node =>
           if bool_decide (status node = StatusHealthy)
           then healthy ++ [node] else healthy)
        [] visited.

Definition set_status {W : Type} (n : Node W) (s : NodeStatus) : Node W :=
  {| config := config n; client := client n; agents := agents n;
     capacity := capacity n; load := load n; status := s;
     lastPing := lastPing n |}.

(** The body of the loop of [monitorHeartbeats] for the node under [id];
    [clock] reads the time from the world. *)
Definition check_heartbeat {W : Type} (clock : W -> Time)
    (st : Cluster W * W) (id : string) : Cluster W * W :=
  match nodes (fst st) !! id with
  | None => st
  | Some node =>
      if NodeTimeout (cluster_config (fst st)) <? Since (clock (snd st)) (lastPing node)
      then
        let c1 := set_nodes (fst st)
                    (<[id := set_status node StatusUnhealthy]> (nodes (fst st))) in
        let (_, w1) :=
          PublishEvent (cluster_client (fst st)) "node_unhealthy"
            ("Node " +:+ id +:+ " marked as unhealthy") [("node_id", id)] (snd st) in
        (c1, w1)
      else st
  end.

(** One firing of the monitor's ticker; [visited] is the order in which
    the ids are walked. *)
Definition heartbeat_tick {W : Type} (clock : W -> Time) (c : Cluster W)
    (visited : list string) (w : W) : Cluster W * W :=
  foldl (check_heartbeat clock) (c, w) visited.

(** Successive [RegisterNode] calls, results dropped. *)
Definition RegisterNode_all {W : Type} (c : Cluster W) (ns : list (Node W))
    (w : W) : Cluster W * W :=
  foldl (fun st node =>
           let '(_, c1, w1) := RegisterNode (fst st) node (snd st) in (c1, w1))
        (c, w) ns.

(** Successive [RegisterAgent] calls on a node, results dropped. *)
Definition RegisterAgent_all {W : Type} (n : Node W) (agents : list (Agent W))
    (w : W) : Node W * W :=
  foldl (fun st a =>
           let '(_, n1, w1) := RegisterAgent (fst st) a (snd st) in (n1, w1))
        (n, w) agents.

End Registry.

(** ** coordinator.go *)

Module Coordination.

(** The [Workflow] interface: its [Execute] method. *)
Definition Workflow (W : Type) : Type :=
  string -> W -> (string * option error) * W.

Record Coordinator (W : Type) : Type := mkCoordinator {
  workflows : gmap string (Workflow W);
  coordinator_client : AgentClient W
}.
Arguments mkCoordinator {W} _ _.
Arguments workflows {W} _.
Arguments coordinator_client {W} _.

(** [RegisterWorkflow] *)
Definition RegisterWorkflow {W : Type} (c : Coordinator W) (name : string)
    (wf : Workflow W) (w : W) : Coordinator W * W :=
  let c1 := {| workflows := <[name := wf]> (workflows c);
               coordinator_client := coordinator_client c |} in
  let (_, w1) :=
    PublishEvent (coordinator_client c) "workflow_registered"
      ("Registered workflow: " +:+ name) [("workflow_name", name)] w in
  (c1, w1).

(** [ExecuteWorkflow] *)
Definition ExecuteWorkflow {W : Type} (c : Coordinator W) (name task : string)
    (w : W) : (string * option error) * W :=
  match (workflows c !! name : option (Workflow W)) with
  | None => (("", Some (ErrorString ("workflow not found: " +:+ name))), w)
  | Some workflow =>
      let (err, w1) :=
        PublishEvent (coordinator_client c) "workflow_execution_start"
          ("Starting execution of workflow: " +:+ name)
          [("workflow_name", name);
           ("task_length", pretty (String.length task))] w in
      match err with
      | Some e => (("", Some (Wrapped "failed to publish start event: " e)), w1)
      | None =>
          let (r, w2) := (workflow task w1 : (string * option error) * W) in
          match snd r with
          | Some e =>
              let (_, w3) :=
                PublishEvent (coordinator_client c) "workflow_execution_error"
                  ("Workflow " +:+ name +:+ " failed: " +:+ Error e)
                  [("workflow_name", name)] w2 in
              (("", Some (Wrapped "workflow execution failed: " e)), w3)
          | None =>
              let (_, w3) :=
                PublishEvent (coordinator_client c) "workflow_execution_complete"
                  ("Workflow " +:+ name +:+ " completed successfully")
                  [("workflow_name", name);
                   ("result_length", pretty (String.length (fst r)))] w2 in
              ((fst r, None), w3)
          end
      end
  end.

End Coordination.

(** * Vocabulary for the further properties *)

Module BreakerSpec.
Import Reliability Spec.

(** The failures recorded by a sequence of calls. *)
Definition is_failure (c : cb_call) : bool :=
  match c with CallRecordResult (Some _) _ => true | _ => false end.

Definition failures (cs : list cb_call) : nat :=
  length (filter (fun c => is_failure c = true) cs).

(** The time of the last failure recorded, the zero time if there is none. *)
Definition last_failure_time (cs : list cb_call) : Time :=
  foldl (fun t c =>
           match c with CallRecordResult (Some _) now => now | _ => t end)
        ZeroTime cs.

End BreakerSpec.

Module RetryMoreSpec.
Import Reliability.

(** An outcome of the callback that ends [Retry]: success, or an error
    that is not retryable. *)
Definition is_final (config : RetryConfig) (r : option error) : bool :=
  match r with
  | None => true
  | Some e => negb (isRetryable e (RetryableErrors config))
  end.

End RetryMoreSpec.

Module MoreStubs.
Import Reliability RateLimiterWait.

(** A callback that fails with a transient error until it has been invoked
    [n] times and succeeds from then on; the world counts the invocations. *)
Definition recovers_after (n : nat) : Func nat :=
  fun calls =>
    (if Nat.ltb calls n then Some (ErrorString "transient") else None, S calls).

(** A runtime whose context is live, whose clock stands still and whose
    sleeps return at once. *)
Definition still_runtime (now : Time) : Runtime unit :=
  {| ctx_err := fun _ => None; clock := fun _ => now; sleep := fun _ w => w |}.

End MoreStubs.

Module StoreMoreSpec.
Import Communication.

(** The value and time of the last [Set] on [key] among [calls]. *)
Definition last_write {V : Type} (key : string) (calls : list (string * V * Time))
  : option (V * Time) :=
  foldl (fun acc c => if decide (c.1.1 = key) then Some (c.1.2, c.2) else acc)
        None calls.

(** No [Set] on [key] among the operations. *)
Definition leaves_alone {V : Type} (key : string) (o : op V) : Prop :=
  match o with OpSet k _ _ => k <> key | OpTick => True end.

Definition is_tick {V : Type} (o : op V) : bool :=
  match o with OpTick => true | OpSet _ _ _ => false end.

End StoreMoreSpec.

Module MessagingSpec.
Import Messaging.

(** The same handler, writing its number to a log kept next to the world
    each time it is invoked. *)
Definition logged_handler {P W : Type} (i : nat) (h : EventHandler P W)
  : EventHandler P (W * list nat) :=
  fun event s => let (r, w') := h event (fst s) in (r, (w', snd s ++ [i])).

(** Handler number [i] answers [r] whatever the world. *)
Definition answers {P W : Type} (event : Event P) (h : EventHandler P W)
    (r : option error) : Prop :=
  forall w, fst (h event w) = r.

(** The failures that handlers taking their turn in the order [schedule]
    report, in that order. *)
Definition reported (results : list (option error)) (schedule : list nat)
  : list error :=
  omap (fun i => mjoin (results !! i)) schedule.

(** What a non-blocking send does to a subscriber's channel. *)
Definition deliver {P : Type} (msg : Message P) (ch : list (Message P))
  : list (Message P) :=
  if Nat.ltb (length ch) chan_cap then ch ++ [msg] else ch.

End MessagingSpec.

Module MessagingStubs.
Import Messaging.

(** Handlers that succeed, and handlers that fail with [msg]. *)
Definition ok_handler : EventHandler string unit := fun _ w => (None, w).
Definition bad_handler (msg : string) : EventHandler string unit :=
  fun _ w => (Some (ErrorString msg), w).

(** A context that stays live. *)
Definition live_ctx : nat -> option error := fun _ => None.
(** The runtime's choice when context and send are both ready. *)
Definition prefer_send : nat -> bool := fun _ => false.

(** Successive [Publish] calls on one topic under a live context. *)
Definition Publish_all {P : Type} (mb : MessageBus P) (topic : string)
    (msgs : list (Message P)) : MessageBus P :=
  foldl (fun b msg => snd (Publish live_ctx prefer_send b topic msg)) mb msgs.

(** A message carrying [content]. *)
Definition note (content : string) : Message string :=
  mkMessage "" "" "" content 0 "" ∅.

End MessagingStubs.

Module RegistrySpec.
Import Distributed Registry.

(** The first of [ns] that carries the id. *)
Definition first_with_id {W : Type} (id : string) (ns : list (Node W))
  : option (Node W) :=
  head (filter (fun n => ID (config n) = id) ns).

(** On the loads a node can have, [UpdateStatus] finds the load factor
    above 0.8 exactly for loads above 80. *)
Definition overloaded_above_80 : bool :=
  forallb (fun l =>
    Bool.eqb (PrimFloat.ltb (PrimFloat.div 8 10) (SchedSpec.factor100 (Z.of_nat l)))
             (Nat.ltb 80 l))
    (seq 0 101).

(** The node's last ping is older than the cluster's timeout at [now]. *)
Definition timed_out {W : Type} (c : Cluster W) (now : Time) (n : Node W) : Prop :=
  NodeTimeout (cluster_config c) < Since now (lastPing n).

End RegistrySpec.

Module HeartbeatSpec.
Import Distributed Registry RegistrySpec.

(** What one firing of the monitor may have done to a cluster, when its
    clock read between [lo] and [hi] and it walked [visited]: a node is
    replaced by itself with a status that is the old one or
    [StatusUnhealthy]; it is [StatusUnhealthy] for a visited node that had
    timed out already at [lo], and the old one for a node that had not
    timed out even at [hi].  No node comes or goes and the configuration
    stays. *)
Definition tick_outcome {W : Type} (c : Cluster W) (lo hi : Time)
    (visited : list string) (c' : Cluster W) : Prop :=
  cluster_config c' = cluster_config c /\
  forall id,
    match nodes c !! id with
    | None => nodes c' !! id = None
    | Some n =>
        exists s, nodes c' !! id = Some (set_status n s) /\
          (s = status n \/ s = StatusUnhealthy) /\
          (id ∈ visited -> timed_out c lo n -> s = StatusUnhealthy) /\
          (~ timed_out c hi n -> s = status n)
    end.

(** The names under which the first [k] of the agents register. *)
Definition registered_names {W : Type} (k : nat) (agents : list (Agent W))
  : gset string :=
  list_to_set (GetName <$> take k agents).

End HeartbeatSpec.

Module Sentinels.

(** [ErrWorkflowNotFound] of coordinator.go. *)
Definition ErrWorkflowNotFound : error := WorkflowError "workflow not found".

End Sentinels.

(** ** Package tools: the registry *)

Module Tools.

(** A value of type [interface{}]; [None] is [nil]. *)
Definition any (V : Type) : Type := option V.

(** The [types.Tool] interface. *)
Record Tool (V W : Type) : Type := mkTool {
  Execute : any V -> W -> (any V * option error) * W;
  GetDescription : string
}.
Arguments mkTool {V W} _ _.
Arguments Execute {V W} _ _ _.
Arguments GetDescription {V W} _.

(** [func(interface{}) error] *)
Definition Validator (V W : Type) : Type := any V -> W -> option error * W.

Record ToolRegistry (V W : Type) : Type := mkToolRegistry {
  tools : gmap string (Tool V W);
  validators : gmap string (Validator V W)
}.
Arguments mkToolRegistry {V W} _ _.
Arguments tools {V W} _.
Arguments validators {V W} _.

Definition NewToolRegistry {V W : Type} : ToolRegistry V W :=
  {| tools := ∅; validators := ∅ |}.

(** [RegisterTool]; a [nil] validator is [None]. *)
Definition RegisterTool {V W : Type} (tr : ToolRegistry V W) (name : string)
    (tool : Tool V W) (validator : option (Validator V W))
  : option error * ToolRegistry V W :=
  match tools tr !! name with
  | Some _ => (Some (ErrorString ("tool already registered: " +:+ name)), tr)
  | None =>
      (None,
       {| tools := <[name := tool]> (tools tr);
          validators :=
            match validator with
            | Some v => <[name := v]> (validators tr)
            | None => validators tr
            end |})
  end.

(** [ExecuteTool] *)
Definition ExecuteTool {V W : Type} (tr : ToolRegistry V W) (name : string)
    (input : any V) (w : W) : (any V * option error) * W :=
  match (tools tr !! name : option (Tool V W)) with
  | None => ((None, Some (ErrorString ("tool not found: " +:+ name))), w)
  | Some tool =>
      match (validators tr !! name : option (Validator V W)) with
      | Some validator =>
          let (err, w1) := (validator input w : option error * W) in
          match err with
          | Some e => ((None, Some (Wrapped "input validation failed: " e)), w1)
          | None => Execute tool input w1
          end
      | None => Execute tool input w
      end
  end.

(** [BaseAgent.AddTool] of base_agent.go, on the agent's registry. *)
Definition AddTool {V W : Type} (tr : ToolRegistry V W) (tool : Tool V W)
  : option error * ToolRegistry V W :=
  RegisterTool tr (GetDescription tool) tool None.

(** Successive [RegisterTool] calls on a new registry, results dropped. *)
Definition RegisterTool_all {V W : Type}
    (regs : list (string * Tool V W * option (Validator V W)))
  : ToolRegistry V W :=
  foldl (fun tr r => snd (RegisterTool tr r.1.1 r.1.2 r.2)) NewToolRegistry regs.

End Tools.

(** ** Package memory: the base store *)

Module Memory.

(** [Store]: the vectors held afterwards; the error is always [nil]. *)
Definition Store {V : Type} (vectors new : list V) : list V := vectors ++ new.

(** [Query]; [None] is the run-time panic of the slice expression
    [b.vectors[:k]] on a negative bound. *)
Definition Query {V : Type} (vectors : list V) (vector : V) (k : Z)
  : option (list V) :=
  let k := if Z.of_nat (length vectors) <? k then Z.of_nat (length vectors) else k in
  if k <? 0 then None else Some (take (Z.to_nat k) vectors).

End Memory.

(** ** Package observability: health checks *)

Module Health.

(** [HealthStatus]; [D] is the type of the [Details]. *)
Record HealthStatus (D : Type) : Type := mkHealthStatus {
  Status : string;
  Message : string;
  Timestamp : Time;
  Details : D
}.
Arguments mkHealthStatus {D} _ _ _ _.
Arguments Status {D} _.
Arguments Message {D} _.
Arguments Timestamp {D} _.
Arguments Details {D} _.

Definition HealthCheck (D W : Type) : Type := W -> HealthStatus D * W.

Record HealthChecker (D W : Type) : Type := mkHealthChecker {
  checks : gmap string (HealthCheck D W);
  statuses : gmap string (HealthStatus D)
}.
Arguments mkHealthChecker {D W} _ _.
Arguments checks {D W} _.
Arguments statuses {D W} _.

Definition NewHealthChecker {D W : Type} : HealthChecker D W :=
  {| checks := ∅; statuses := ∅ |}.

(** [RegisterCheck] *)
Definition RegisterCheck {D W : Type} (hc : HealthChecker D W) (name : string)
    (check : HealthCheck D W) : HealthChecker D W :=
  {| checks := <[name := check]> (checks hc); statuses := statuses hc |}.

(** [RunChecks]; [visited] is the order in which the names of the checks
    are walked. *)
Definition RunChecks {D W : Type} (hc : HealthChecker D W)
    (visited : list string) (w : W) : HealthChecker D W * W :=
  foldl (fun st name =>
           match (checks (fst st) !! name : option (HealthCheck D W)) with
           | Some check =>
               let (s, w1) := (check (snd st) : HealthStatus D * W) in
               ({| checks := checks (fst st);
                   statuses := <[name := s]> (statuses (fst st)) |}, w1)
           | None => st
           end)
        (hc, w) visited.

(** [GetStatus]; the zero [HealthStatus] is [zero]. *)
Definition GetStatus {D W : Type} (zero : HealthStatus D)
    (hc : HealthChecker D W) (name : string) : HealthStatus D * bool :=
  match statuses hc !! name with
  | Some status => (status, true)
  | None => (zero, false)
  end.

(** [IsHealthy]; [visited] is the order in which the statuses are walked. *)
Fixpoint IsHealthy {D : Type} (visited : list (HealthStatus D)) : bool :=
  match visited with
  | [] => true
  | status :: rest =>
      if negb (String.eqb (Status status) "healthy") then false
      else IsHealthy rest
  end.

(** The walks [range] may take over the statuses. *)
Definition status_walk {D W : Type} (hc : HealthChecker D W)
    (visited : list (HealthStatus D)) : Prop :=
  visited ≡ₚ (map_to_list (statuses hc)).*2.

End Health.

Module ToolsSpec.
Import Tools.

(** The first registration under [name]. *)
Definition first_registration {V W : Type} (name : string)
    (regs : list (string * Tool V W * option (Validator V W)))
  : option (string * Tool V W * option (Validator V W)) :=
  head (filter (fun r => r.1.1 = name) regs).

(** A tool that answers its input and counts its runs in the world. *)
Definition echo (description : string) : Tool string nat :=
  mkTool (fun input runs => ((input, None), S runs)) description.

(** A validator that refuses [nil]. *)
Definition not_nil : Validator string nat :=
  fun input w =>
    (match input with None => Some (ErrorString "nil input") | Some _ => None end, w).

End ToolsSpec.

Module HealthSpec.
Import Health.

(** The check answers [s] whatever the world. *)
Definition reports {D W : Type} (check : HealthCheck D W) (s : HealthStatus D)
  : Prop :=
  forall w, fst (check w) = s.

(** A check that always reports the given status word. *)
Definition constant_check (word : string) : HealthCheck unit unit :=
  fun w => (mkHealthStatus word "" 0 tt, w).

End HealthSpec.

Module BreakerRunSpec.
Import Reliability.

(** Successive [Execute] calls with the same callback; each pair holds the
    clock readings of one call.  The errors returned are collected. *)
Definition Execute_each {W : Type} (cb : CircuitBreaker) (fn : Func W)
    (times : list (Time * Time)) (w : W)
  : list (option error) * CircuitBreaker * W :=
  foldl (fun st t =>
           let '(errs, cb0, w0) := st in
           let '(err, cb1, w1) := Execute cb0 fn t.1 t.2 w0 in
           (errs ++ [err], cb1, w1))
        ([], cb, w) times.

End BreakerRunSpec.

(** * Properties *)

Import Reliability Spec.

(** ** Circuit breaker *)

(** Case analysis on the state of a breaker, on the call made and on every
    comparison the call performs. *)
Ltac cb_cases cb c :=
  let s := fresh "s" in
  destruct cb as [s ? ? ? ?]; simpl;
  destruct s, c as [? | [?|] ?]; simpl;
  unfold AllowRequest, RecordResult, timeout_elapsed; simpl;
  repeat match goal with
    | |- context [?a <=? ?b] => destruct (Z.leb_spec a b)
    | |- context [?a <? ?b] => destruct (Z.ltb_spec a b)
    | |- context [decide ?P] => destruct (decide P)
    end.

Lemma AllowRequest_keeps_settings cb now :
  failureCount (snd (AllowRequest cb now)) = failureCount cb /\
  failureThreshold (snd (AllowRequest cb now)) = failureThreshold cb /\
  resetTimeout (snd (AllowRequest cb now)) = resetTimeout cb /\
  lastFailure (snd (AllowRequest cb now)) = lastFailure cb.
Proof.
  unfold AllowRequest.
  destruct (state cb); simpl; auto.
  destruct (resetTimeout cb <? Since now (lastFailure cb)); simpl; auto.
Qed.

Lemma RecordResult_keeps_settings cb err now :
  failureThreshold (RecordResult cb err now) = failureThreshold cb /\
  resetTimeout (RecordResult cb err now) = resetTimeout cb.
Proof.
  unfold RecordResult.
  destruct err; simpl.
  - destruct (_ || _); simpl; auto.
  - destruct (bool_decide _); simpl; auto.
Qed.

Lemma AllowRequest_result cb now :
  fst (AllowRequest cb now) = bool_decide (~ rejects cb now).
Proof.
  unfold AllowRequest.
  destruct (state cb) eqn:Hs; simpl.
  - symmetry. apply bool_decide_eq_true. unfold rejects. intros [H _]. congruence.
  - destruct (Z.ltb_spec (resetTimeout cb) (Since now (lastFailure cb))); simpl; symmetry.
    + apply bool_decide_eq_true. unfold rejects, timeout_elapsed. intros [_ H']. lia.
    + apply bool_decide_eq_false. unfold rejects, timeout_elapsed.
      intros H'. apply H'. split; [assumption | lia].
  - symmetry. apply bool_decide_eq_true. unfold rejects. intros [H _]. congruence.
Qed.

(** C3.  The transition table of the circuit breaker.  Whatever the breaker
    [cb] and whatever the call, the state after the call is given by the
    state before and the call as follows.  From Closed the only move is to
    Open, made by a recorded failure exactly when the incremented failure
    count has reached [failureThreshold]; from Open the only move is to
    HalfOpen, made by [AllowRequest] exactly when [resetTimeout] has elapsed
    since the last failure; from HalfOpen a recorded success moves to Closed
    and resets the failure count to 0, a recorded failure moves to Open
    whatever the failure count, and [AllowRequest] changes nothing. *)
Theorem circuit_breaker_transition_table (cb : CircuitBreaker) (c : cb_call) :
  match state cb, c with
  | StateClosed, CallRecordResult (Some _) now =>
      failureCount (cb_step cb c) = wrap64 (failureCount cb + 1) /\
      state (cb_step cb c) =
        (if decide (failureThreshold cb <= failureCount (cb_step cb c))
         then StateOpen else StateClosed)
  | StateClosed, _ => cb_step cb c = cb
  | StateOpen, CallAllowRequest now =>
      state (cb_step cb c) =
        (if decide (timeout_elapsed cb now) then StateHalfOpen else StateOpen)
  | StateOpen, CallRecordResult _ _ => state (cb_step cb c) = StateOpen
  | StateHalfOpen, CallAllowRequest _ => cb_step cb c = cb
  | StateHalfOpen, CallRecordResult None _ =>
      state (cb_step cb c) = StateClosed /\ failureCount (cb_step cb c) = 0
  | StateHalfOpen, CallRecordResult (Some _) _ => state (cb_step cb c) = StateOpen
  end.
Proof.
  cb_cases cb c; simpl in *; try split; try reflexivity; try lia.
Qed.

(** Read as a relation on states, the table leaves four moves. *)
Lemma circuit_breaker_moves (cb : CircuitBreaker) (c : cb_call) :
  state (cb_step cb c) <> state cb ->
  (state cb = StateClosed /\ state (cb_step cb c) = StateOpen /\
   (exists e now, c = CallRecordResult (Some e) now) /\
   failureThreshold cb <= failureCount (cb_step cb c)) \/
  (state cb = StateOpen /\ state (cb_step cb c) = StateHalfOpen /\
   exists now, c = CallAllowRequest now /\ timeout_elapsed cb now) \/
  (state cb = StateHalfOpen /\ state (cb_step cb c) = StateClosed /\
   (exists now, c = CallRecordResult None now) /\ failureCount (cb_step cb c) = 0) \/
  (state cb = StateHalfOpen /\ state (cb_step cb c) = StateOpen /\
   exists e now, c = CallRecordResult (Some e) now).
Proof.
  cb_cases cb c; simpl; intros Hne; try congruence.
  all: first
    [ left; repeat split; eauto; fail
    | right; left; repeat split; eauto; fail
    | right; right; left; repeat split; eauto; fail
    | right; right; right; repeat split; eauto; fail ].
Qed.

(** The scenario of the specification with [failureThreshold = 3] and a
    timeout of one second: three failures open the circuit and the next
    request is refused; once the timeout has elapsed a request is let
    through in HalfOpen; a success then closes the circuit with the count
    back at 0, a failure reopens it. *)
Example circuit_breaker_scenario :
  let boom := Some (ErrorString "boom") in
  let cb3 := cb_run (NewCircuitBreaker 3 Second)
               [CallRecordResult boom 10; CallRecordResult boom 20;
                CallRecordResult boom 30] in
  state cb3 = StateOpen /\
  fst (AllowRequest cb3 31) = false /\
  AllowRequest cb3 (30 + Second + 1) = (true, set_state cb3 StateHalfOpen) /\
  (let half := set_state cb3 StateHalfOpen in
   state (RecordResult half None 40) = StateClosed /\
   failureCount (RecordResult half None 40) = 0 /\
   state (RecordResult half boom 40) = StateOpen).
Proof. vm_compute. repeat split; reflexivity. Qed.

(** C4.  [Execute] on a breaker [cb] with callback [fn], the invocations of
    [fn] being logged.  If the breaker is Open and [resetTimeout] has not
    elapsed since the last failure, the call returns [ErrCircuitOpen] and
    neither the world, the log nor the breaker changes: [fn] is not
    invoked.  In every other case [fn] is invoked exactly once (one
    [EvCall] is added to the log and the world is the one [fn] leaves),
    its outcome is recorded on the breaker as [AllowRequest] left it, and
    the error returned is the one [fn] returned, [nil] included. *)
Theorem circuit_breaker_execute {W : Type} (cb : CircuitBreaker) (fn : Func W)
    (t_allow t_record : Time) (w : W) (tr : list event) :
  Execute cb (logged fn) t_allow t_record (w, tr) =
    if decide (rejects cb t_allow)
    then (Some ErrCircuitOpen, cb, (w, tr))
    else (fst (fn w),
          RecordResult (snd (AllowRequest cb t_allow)) (fst (fn w)) t_record,
          (snd (fn w), tr ++ [EvCall])).
Proof.
  unfold Execute.
  pose proof (AllowRequest_result cb t_allow) as Hok.
  destruct (AllowRequest cb t_allow) as [ok cb1] eqn:HA. simpl in *.
  case_decide as Hrej.
  - rewrite bool_decide_eq_false_2 in Hok by tauto. subst ok. simpl.
    unfold AllowRequest in HA. destruct Hrej as [Hs Hnot].
    unfold timeout_elapsed in Hnot. rewrite Hs in HA.
    destruct (Z.ltb_spec (resetTimeout cb) (Since t_allow (lastFailure cb)));
      [lia | congruence].
  - rewrite bool_decide_eq_true_2 in Hok by assumption. subst ok. simpl.
    unfold logged. simpl. destruct (fn w) as [err w']. reflexivity.
Qed.

(** ** Rate limiter *)

Import RateSpec.

Lemma Sub_diag (t : Time) : Sub t t = 0.
Proof. unfold Sub. rewrite Z.sub_diag. reflexivity. Qed.

Lemma Seconds_0 : Seconds 0 = 0%float.
Proof. vm_compute. reflexivity. Qed.

(** A call at the very instant of the last refill. *)
Lemma Allow_same_instant (r : float) (b : Z) (tk : float) (t0 : Time) :
  Allow (mkRateLimiter r b tk t0) t0 =
    let t := min (float64 b) (PrimFloat.add tk (PrimFloat.mul 0 r)) in
    (PrimFloat.leb 1 t,
     mkRateLimiter r b (if PrimFloat.leb 1 t then PrimFloat.sub t 1 else t) t0).
Proof.
  unfold Allow. simpl. rewrite Sub_diag, Seconds_0.
  destruct (PrimFloat.leb 1 _); reflexivity.
Qed.

Lemma fst_cons_let {A B : Type} (c : A) (X : list A * B) :
  fst (let (oks, rl) := X in (c :: oks, rl)) = c :: fst X.
Proof. destruct X; reflexivity. Qed.

(** Calls made at the instant of creation behave alike at every instant. *)
Lemma Allow_at_same_instant (r : float) (b : Z) (tk : float) (t0 : Time) (n : nat) :
  fst (Allow_at (mkRateLimiter r b tk t0) (replicate n t0)) =
  fst (Allow_at (mkRateLimiter r b tk 0) (replicate n 0)).
Proof.
  revert tk. induction n as [|n IH]; intros tk; [reflexivity|].
  cbn [replicate Allow_at]. rewrite !Allow_same_instant. cbv beta iota zeta.
  rewrite !fst_cons_let. f_equal. apply IH.
Qed.


(** ** State store *)

Import Communication StoreSpec.

Lemma apply_sets_snoc {V : Type} (ss : StateStore V) calls (c : string * V * Time) :
  apply_sets ss (calls ++ [c]) = StateStore_Set (apply_sets ss calls) c.1.1 c.1.2 c.2.
Proof. unfold apply_sets. rewrite foldl_app. reflexivity. Qed.

Lemma writes_to_snoc {V : Type} key calls (c : string * V * Time) :
  writes_to key (calls ++ [c]) =
    ((if decide (c.1.1 = key) then 1 else 0) + writes_to key calls)%nat.
Proof.
  unfold writes_to. rewrite filter_app, length_app. simpl.
  rewrite filter_cons, filter_nil. case_decide; simpl; lia.
Qed.

(** The version [Set] leaves on each key. *)
Lemma Version_after_Set {V : Type} (ss : StateStore V) k (v : V) now key :
  Version <$> Get (StateStore_Set ss k v now) key =
    if decide (k = key)
    then Some (match Version <$> Get ss key with
               | Some n => wrap64 (n + 1)
               | None => 1
               end)
    else Version <$> Get ss key.
Proof.
  unfold Get, StateStore_Set. case_decide as Hk.
  - subst k. rewrite lookup_insert_eq. simpl. destruct (ss !! key); reflexivity.
  - rewrite lookup_insert_ne by assumption. reflexivity.
Qed.

Lemma wrap64_small (z : Z) : MinInt64 <= z <= MaxInt64 -> wrap64 z = z.
Proof.
  unfold wrap64, MinInt64, MaxInt64. intros H.
  rewrite Z.mod_small by lia. lia.
Qed.

(** C5.  Start from an empty store and make any sequence of [Set] calls, on
    any keys.  For every key, if [n] of these calls wrote to the key (with
    [n] within the range of [int64]) then the key is absent when [n = 0]
    and otherwise its recorded version is [n]: 1 after the first write, one
    more after each further write, whatever is written to other keys in
    between. *)
Theorem state_version_counts_writes {V : Type} (calls : list (string * V * Time))
    (key : string) :
  Z.of_nat (writes_to key calls) <= MaxInt64 ->
  Version <$> Get (apply_sets NewStateStore calls) key =
    if decide (writes_to key calls = 0%nat) then None
    else Some (Z.of_nat (writes_to key calls)).
Proof.
  induction calls as [|c calls IH] using rev_ind; intros Hn.
  - reflexivity.
  - rewrite apply_sets_snoc, Version_after_Set.
    rewrite writes_to_snoc in Hn |- *.
    destruct (decide (c.1.1 = key)) as [Hk|Hk].
    + rewrite IH by lia.
      destruct (decide (writes_to key calls = 0%nat)) as [H0|H0].
      * rewrite H0. reflexivity.
      * rewrite decide_False by lia. f_equal.
        rewrite wrap64_small; unfold MinInt64, MaxInt64 in *; lia.
    + rewrite IH by lia. reflexivity.
Qed.

Lemma state_version_counts_writes_witness :
  let calls := [("a", 10, 0); ("b", 20, 1); ("a", 30, 2); ("a", 40, 3)] in
  Z.of_nat (writes_to "a" calls) <= MaxInt64 /\
  Version <$> Get (apply_sets NewStateStore calls) "a" = Some 3.
Proof.
  split.
  - vm_compute. discriminate.
  - apply (state_version_counts_writes
             [("a", 10, 0); ("b", 20, 1); ("a", 30, 2); ("a", 40, 3)] "a").
    vm_compute. discriminate.
Defined.

(** ** Watching a key *)

Import WatchSpec.

Lemma watch_run_snoc {V : Type} (ss : StateStore V) key ops (o : op V) :
  watch_run ss key (ops ++ [o]) = step key (watch_run ss key ops) o.
Proof. unfold watch_run. rewrite foldl_app. reflexivity. Qed.

Lemma snoc_eq_middle {A : Type} (l l1 l2 : list A) (x y : A) :
  l ++ [x] = l1 ++ y :: l2 ->
  (l2 = [] /\ l = l1 /\ x = y) \/
  (exists l2', l2 = l2' ++ [x] /\ l = l1 ++ y :: l2').
Proof.
  destruct l2 as [|z l2 _] using rev_ind; intros H.
  - apply app_inj_tail in H as [-> ->]. left; auto.
  - change (l1 ++ y :: l2 ++ [z]) with (l1 ++ (y :: l2) ++ [z]) in H.
    rewrite app_assoc in H. apply app_inj_tail in H as [-> ->].
    right. exists l2. auto.
Qed.

Lemma StronglySorted_snoc (l : list Z) (x : Z) :
  StronglySorted Z.lt l -> Forall (fun y => y < x) l ->
  StronglySorted Z.lt (l ++ [x]).
Proof.
  induction 1 as [|y l Hs IH Hall]; intros Hx; simpl.
  - repeat constructor.
  - inversion Hx; subst. constructor.
    + apply IH; assumption.
    + apply Forall_app; split; [assumption | repeat constructor; assumption].
Qed.

Lemma watch_inv_run {V : Type} (ss : StateStore V) (key : string) (ops : list (op V)) :
  exists polled, watch_inv ss key ops (snd (watch_run ss key ops)) polled.
Proof.
  induction ops as [|o ops IH] using rev_ind.
  - exists []. unfold watch_inv, watch_run, Watch. simpl.
    rewrite app_nil_r. repeat split; try constructor.
    intros ops1 ops2 e H. destruct ops1; discriminate.
  - destruct IH as (polled & Hup & Hsort & Hlast & Hle & Hsound & Hcompl).
    rewrite watch_run_snoc.
    destruct (watch_run ss key ops) as [ss1 wt] eqn:Hrun. simpl in *.
    assert (Hshift : forall (P : list (op V) -> Prop),
               (exists ops1 ops2, ops = ops1 ++ OpTick :: ops2 /\ P ops1) ->
               exists ops1 ops2, ops ++ [o] = ops1 ++ OpTick :: ops2 /\ P ops1).
    { intros P (ops1 & ops2 & -> & HP). exists ops1, (ops2 ++ [o]).
      split; [|assumption]. rewrite <- app_assoc. reflexivity. }
    destruct o as [k v now|]; simpl.
    + (* a write: the watcher is untouched *)
      exists polled. repeat split; try assumption.
      * eapply Forall_impl; [exact Hsound|]. intros e He.
        apply (Hshift (fun ops1 => Get (watch_run ss key ops1).1 key = Some e) He).
      * intros ops1 ops2 e Heq Hget.
        apply snoc_eq_middle in Heq as [(_ & _ & Hbad) | (ops2' & -> & ->)];
          [discriminate|]. eapply Hcompl; eauto.
    + (* a tick *)
      unfold Watch_tick.
      destruct (Get ss1 key) as [entry|] eqn:Hget.
      * destruct (Z.ltb_spec (lastVersion wt) (Version entry)) as [Hlt|Hge].
        -- exists (polled ++ [entry]). simpl. repeat split.
           ++ rewrite Hup, app_assoc. reflexivity.
           ++ rewrite fmap_app. simpl. apply StronglySorted_snoc; [assumption|].
              apply Forall_fmap. eapply Forall_impl; [exact Hle|].
              simpl. intros; lia.
           ++ rewrite fmap_app. change (Version <$> [entry]) with [Version entry].
              rewrite last_snoc. reflexivity.
           ++ apply Forall_app. split.
              ** eapply Forall_impl; [exact Hle|]. simpl. intros; lia.
              ** constructor; [simpl; lia | constructor].
           ++ apply Forall_app. split.
              ** eapply Forall_impl; [exact Hsound|]. intros e He.
                 apply (Hshift (fun ops1 => Get (watch_run ss key ops1).1 key = Some e) He).
              ** constructor; [|constructor]. exists ops, []. split; [reflexivity|].
                 rewrite Hrun. exact Hget.
           ++ intros ops1 ops2 e Heq Hget'.
              apply snoc_eq_middle in Heq as [(_ & <- & _) | (ops2' & -> & ->)].
              ** rewrite Hrun in Hget'. simpl in Hget'.
                 assert (e = entry) by congruence. subst. simpl. lia.
              ** specialize (Hcompl _ _ _ eq_refl Hget'). simpl. lia.
        -- exists polled. repeat split; try assumption.
           ++ eapply Forall_impl; [exact Hsound|]. intros e He.
              apply (Hshift (fun ops1 => Get (watch_run ss key ops1).1 key = Some e) He).
           ++ intros ops1 ops2 e Heq Hget'.
              apply snoc_eq_middle in Heq as [(_ & <- & _) | (ops2' & -> & ->)].
              ** rewrite Hrun in Hget'. simpl in Hget'.
                 assert (e = entry) by congruence. subst. simpl. lia.
              ** eapply Hcompl; eauto.
      * exists polled. repeat split; try assumption.
        -- eapply Forall_impl; [exact Hsound|]. intros e He.
           apply (Hshift (fun ops1 => Get (watch_run ss key ops1).1 key = Some e) He).
        -- intros ops1 ops2 e Heq Hget'.
           apply snoc_eq_middle in Heq as [(_ & <- & _) | (ops2' & -> & ->)].
           ** rewrite Hrun in Hget'. simpl in Hget'. congruence.
           ** eapply Hcompl; eauto.
Qed.

(** C9, as the code has it.  Call [Watch key] on a store [ss] and let any
    writes and ticks follow.  What has been sent on the channel is the
    key's entry at the time of the call, if there was one, followed by the
    entries sent at ticks ([polled]).  The versions of the polled entries
    are strictly increasing, so no two of them carry the same version;
    [lastVersion] is the version of the last of them (or -1); every polled
    entry was the key's entry in the store at some tick; and whatever entry
    the key had at a tick, its version does not exceed [lastVersion]: a
    tick sends the current entry exactly when it is newer than all that was
    polled before, so writes overwritten before the next tick are never
    sent. *)
Theorem watch_emissions {V : Type} (ss : StateStore V) (key : string)
    (ops : list (op V)) :
  exists polled : list (StateEntry V),
    updates (snd (watch_run ss key ops)) =
      match Get ss key with Some e => [e] | None => [] end ++ polled /\
    StronglySorted Z.lt (Version <$> polled) /\
    lastVersion (snd (watch_run ss key ops)) =
      default (-1) (last (Version <$> polled)) /\
    Forall (fun e => exists ops1 ops2,
              ops = ops1 ++ OpTick :: ops2 /\
              Get (fst (watch_run ss key ops1)) key = Some e) polled /\
    (forall ops1 ops2 e,
        ops = ops1 ++ OpTick :: ops2 ->
        Get (fst (watch_run ss key ops1)) key = Some e ->
        Version e <= lastVersion (snd (watch_run ss key ops))).
Proof.
  destruct (watch_inv_run ss key ops) as (polled & H1 & H2 & H3 & _ & H5 & H6).
  exists polled. auto.
Qed.

(** C9 as stated fails twice.  Two writes between the call and the first
    tick raise the version twice, yet a single entry is sent; and when the
    key is present at the call and nothing is written, the first tick sends
    the initial entry a second time, so the versions sent are not strictly
    increasing. *)
Lemma watch_not_one_entry_per_version :
  (let ops := [OpSet "k" "a" 1; OpSet "k" "b" 2; OpTick] in
   writes_to "k" [("k", "a", 1); ("k", "b", 2)] = 2%nat /\
   updates (snd (watch_run (NewStateStore (V := string)) "k" ops))
     = [mkStateEntry "b" 2 2]) /\
  (let e := mkStateEntry "a" 1 0 in
   updates (snd (watch_run (StateStore_Set NewStateStore "k" "a" 0) "k" [OpTick]))
     = [e; e] /\
   ~ StronglySorted Z.lt
       (Version <$> updates (snd (watch_run (StateStore_Set NewStateStore "k" "a" 0)
                                            "k" [OpTick])))).
Proof.
  split; [split; vm_compute; reflexivity|].
  split; [vm_compute; reflexivity|].
  intros H. vm_compute in H.
  inversion H as [|? ? _ Hall]; subst. inversion Hall as [|? ? Hlt _]; subst.
  revert Hlt. cbv. discriminate.
Qed.

(** ** Nodes *)

Import Distributed NodeSpec.

Lemma RegisterAgent_room {W : Type} (n : Node W) (a : Agent W) (w : W) :
  MinInt64 <= load n -> capacity n <= MaxInt64 -> load n < capacity n ->
  RegisterAgent n a w =
    (fst (registered_event n a w),
     {| config := config n; client := client n;
        agents := <[GetName a := a]> (agents n);
        capacity := capacity n; load := load n + 1;
        status := status n; lastPing := lastPing n |},
     snd (registered_event n a w)).
Proof.
  intros Hlo Hhi Hroom. unfold RegisterAgent, registered_event.
  destruct (Z.leb_spec (capacity n) (load n)); [lia|].
  rewrite wrap64_small by lia.
  destruct (PublishEvent _ _ _ _ _). reflexivity.
Qed.

Lemma RegisterAgent_full {W : Type} (n : Node W) (a : Agent W) (w : W) :
  capacity n <= load n ->
  RegisterAgent n a w = (Some (ErrorString "node is at capacity"), n, w).
Proof.
  intros Hfull. unfold RegisterAgent.
  destruct (Z.leb_spec (capacity n) (load n)); [reflexivity | lia].
Qed.

Lemma RegisterAgent_times_same {W : Type} (k : nat) (n : Node W) (a : Agent W) (w : W) :
  MinInt64 <= load n -> capacity n <= MaxInt64 ->
  load n + Z.of_nat k <= capacity n ->
  is_Some (agents n !! GetName a) ->
  load (fst (RegisterAgent_times k n a w)) = load n + Z.of_nat k /\
  capacity (fst (RegisterAgent_times k n a w)) = capacity n /\
  dom (agents (fst (RegisterAgent_times k n a w))) = dom (agents n).
Proof.
  revert n w. induction k as [|k IH]; intros n w Hlo Hhi Hk Hin.
  - simpl. repeat split. lia.
  - cbn [RegisterAgent_times].
    rewrite RegisterAgent_room by lia.
    set (n1 := {| config := config n; client := client n;
                  agents := <[GetName a := a]> (agents n);
                  capacity := capacity n; load := load n + 1;
                  status := status n; lastPing := lastPing n |}).
    assert (Hdom : dom (agents n1) = dom (agents n)).
    { simpl. rewrite dom_insert_L. apply subseteq_union_1_L.
      apply singleton_subseteq_l, elem_of_dom. exact Hin. }
    destruct (IH n1 (snd (registered_event n a w))) as (Hl & Hc & Hd);
      try (simpl; lia).
    + simpl. rewrite lookup_insert_eq. eauto.
    + simpl in *. repeat split; [lia | assumption | congruence].
Qed.

(** C10.  Let the name of [a] already be registered on node [n], which has
    room left ([load < capacity], both machine integers).  Then
    [RegisterAgent a] is not refused: what it returns is the outcome of the
    [agent_registered] event alone; the agent stored under the name is now
    [a]; the set of registered names is unchanged; and the load has grown
    by 1.  Repeating the call until the load has grown by
    [capacity - load] leaves the same set of names on a node at capacity,
    where the next call fails with "node is at capacity" and changes
    nothing. *)
Theorem node_register_agent_same_name {W : Type} (n : Node W) (old a : Agent W)
    (w : W) :
  MinInt64 <= load n -> capacity n <= MaxInt64 ->
  load n < capacity n ->
  agents n !! GetName a = Some old ->
  (let '(err, n1, w1) := RegisterAgent n a w in
   (err, w1) = registered_event n a w /\
   agents n1 = <[GetName a := a]> (agents n) /\
   dom (agents n1) = dom (agents n) /\
   load n1 = load n + 1 /\ capacity n1 = capacity n) /\
  (forall k : nat,
      load n + Z.of_nat k = capacity n ->
      let '(nk, wk) := RegisterAgent_times k n a w in
      dom (agents nk) = dom (agents n) /\
      load nk = capacity n /\
      RegisterAgent nk a wk = (Some (ErrorString "node is at capacity"), nk, wk)).
Proof.
  intros Hlo Hhi Hroom Hold. split.
  - rewrite RegisterAgent_room by assumption. simpl.
    destruct (registered_event n a w) as [err w1]. simpl.
    repeat split.
    rewrite dom_insert_L. apply subseteq_union_1_L.
    apply singleton_subseteq_l, elem_of_dom. eauto.
  - intros k Hk.
    destruct (RegisterAgent_times_same k n a w) as (Hl & Hc & Hd);
      [assumption | assumption | lia | eauto |].
    destruct (RegisterAgent_times k n a w) as [nk wk]. simpl in *.
    repeat split; [assumption | lia |].
    apply RegisterAgent_full. lia.
Qed.

Lemma node_register_agent_same_name_witness :
  let a : Agent unit := Stubs.tagging "worker" in
  let n := Stubs.node_with "n1" [] {["worker" := a]} 98 StatusHealthy in
  (MinInt64 <= load n /\ capacity n <= MaxInt64 /\ load n < capacity n /\
   agents n !! GetName a = Some a) /\
  (let '(err, n1, w1) := RegisterAgent n a tt in
   (err, w1) = registered_event n a tt /\
   agents n1 = <[GetName a := a]> (agents n) /\
   dom (agents n1) = dom (agents n) /\
   load n1 = load n + 1 /\ capacity n1 = capacity n) /\
  (forall k : nat,
      load n + Z.of_nat k = capacity n ->
      let '(nk, wk) := RegisterAgent_times k n a tt in
      dom (agents nk) = dom (agents n) /\
      load nk = capacity n /\
      RegisterAgent nk a wk = (Some (ErrorString "node is at capacity"), nk, wk)).
Proof.
  intros a n.
  split.
  - repeat split; try (vm_compute; discriminate); try (vm_compute; reflexivity).
  - apply (node_register_agent_same_name n a a tt).
    + vm_compute; discriminate.
    + vm_compute; discriminate.
    + vm_compute; reflexivity.
    + vm_compute; reflexivity.
Defined.

(** ** Scheduling *)

Import SchedSpec.

Lemma factor100_ordered_true : factor100_ordered = true.
Proof. vm_compute. reflexivity. Qed.

Lemma factor100_100 : factor100 100 = 1%float.
Proof. vm_compute. reflexivity. Qed.

Lemma factor100_ltb (a b : Z) :
  0 <= a <= 100 -> 0 <= b <= 100 ->
  PrimFloat.ltb (factor100 a) (factor100 b) = (a <? b).
Proof.
  intros Ha Hb. pose proof factor100_ordered_true as H.
  unfold factor100_ordered in H. rewrite forallb_forall in H.
  specialize (H (Z.to_nat a) ltac:(apply in_seq; lia)).
  rewrite forallb_forall in H.
  specialize (H (Z.to_nat b) ltac:(apply in_seq; lia)).
  apply Bool.eqb_prop in H. rewrite !Z2Nat.id in H by lia. rewrite H.
  destruct (Nat.ltb_spec (Z.to_nat a) (Z.to_nat b)), (Z.ltb_spec a b);
    (reflexivity || lia).
Qed.

(** [well_formed] is an invariant of the package: [NewNode] establishes it,
    [RegisterAgent] and [UpdateStatus] keep it. *)
Lemma NewNode_well_formed {W : Type} config (dialed : AgentClient W + error) now n :
  NewNode config dialed now = inl n -> well_formed n.
Proof.
  unfold NewNode. destruct dialed; [|discriminate].
  intros [= <-]. split; simpl; lia.
Qed.

Lemma RegisterAgent_well_formed {W : Type} (n : Node W) (a : Agent W) (w : W) :
  well_formed n -> well_formed (snd (fst (RegisterAgent n a w))).
Proof.
  intros [Hc Hl]. unfold RegisterAgent.
  destruct (Z.leb_spec (capacity n) (load n)); [split; assumption|].
  destruct (PublishEvent _ _ _ _ _). simpl.
  split; simpl; [assumption|].
  rewrite wrap64_small by (unfold MinInt64, MaxInt64; lia). lia.
Qed.

Lemma UpdateStatus_well_formed {W : Type} (n : Node W) now :
  well_formed n -> well_formed (UpdateStatus n now).
Proof. intros H. exact H. Qed.

Lemma loadFactor_well_formed {W : Type} (n : Node W) :
  well_formed n -> loadFactor n = factor100 (load n).
Proof. intros [Hc _]. unfold loadFactor, factor100. rewrite Hc. reflexivity. Qed.

Lemma ratio_le_well_formed {W : Type} (n m : Node W) :
  well_formed n -> well_formed m -> load n <= load m -> (ratio n <= ratio m)%Q.
Proof.
  intros [Hn _] [Hm _] Hle. unfold ratio. rewrite Hn, Hm.
  unfold Qle, Qdiv, Qmult, Qinv, inject_Z. simpl. lia.
Qed.

(** The tag map built by [nodeMatchesRequirements]. *)
Lemma nodeTags_lookup (tags : list string) (m0 : gmap string bool) (x : string) :
  default false (foldl (fun m tag => <[tag := true]> m) m0 tags !! x) = true <->
  x ∈ tags \/ default false (m0 !! x) = true.
Proof.
  revert m0. induction tags as [|t tags IH]; intros m0; simpl.
  - rewrite elem_of_nil. tauto.
  - rewrite IH, elem_of_cons. destruct (decide (t = x)) as [->|Hne].
    + rewrite lookup_insert_eq. simpl. tauto.
    + rewrite lookup_insert_ne by assumption.
      split; intros [H|H]; auto. destruct H as [->|H]; [congruence | auto].
Qed.

Lemma required_tags_check (tags required : list string) :
  forallb (fun requiredTag =>
             default false
               (foldl (fun m tag => <[tag := true]> m) (∅ : gmap string bool) tags
                  !! requiredTag))
          required = true <->
  forall tag, tag ∈ required -> tag ∈ tags.
Proof.
  rewrite forallb_forall. setoid_rewrite nodeTags_lookup.
  setoid_rewrite lookup_empty. simpl. setoid_rewrite <- list_elem_of_In.
  split; intros H tag Ht; specialize (H tag Ht); intuition congruence.
Qed.

Lemma nodeMatchesRequirements_spec {W : Type} (n : Node W) req :
  status n = StatusHealthy ->
  nodeMatchesRequirements n req = true <-> qualifies req n.
Proof.
  intros Hs. unfold nodeMatchesRequirements, qualifies.
  pose proof (required_tags_check (Tags (config n)) (Types.Tags req)) as Htags.
  assert (Hempty : ~ 0 < Z.of_nat (length (Types.Tags req)) ->
                   forall tag, tag ∈ Types.Tags req -> tag ∈ Tags (config n)).
  { intros Hl tag Ht. destruct (Types.Tags req); [|simpl in Hl; lia].
    apply elem_of_nil in Ht. contradiction. }
  destruct (String.eqb_spec (Types.AgentID req) "") as [He|He]; simpl.
  - destruct (Z.ltb_spec 0 (Z.of_nat (length (Types.Tags req)))) as [Hl|Hl].
    + rewrite Htags. intuition congruence.
    + split; [|reflexivity]. intros _.
      repeat split; [assumption | apply Hempty; lia | congruence].
  - destruct (decide (is_Some (agents n !! Types.AgentID req))) as [Hin|Hin].
    + rewrite bool_decide_eq_true_2 by assumption. simpl.
      destruct (Z.ltb_spec 0 (Z.of_nat (length (Types.Tags req)))) as [Hl|Hl].
      * rewrite Htags. intuition congruence.
      * split; [|reflexivity]. intros _.
        repeat split; [assumption | apply Hempty; lia | auto].
    + rewrite bool_decide_eq_false_2 by assumption. simpl.
      split; [discriminate|]. intros (_ & _ & H). exfalso. auto.
Qed.

Lemma scan_inv_consider {W : Type} req (seen : list (Node W)) best (node : Node W) :
  well_formed node ->
  scan_inv req seen best ->
  scan_inv req (seen ++ [node]) (consider req best node).
Proof.
  intros Hwf (m & Hm & Hlow & Hbest & Hmin). unfold consider.
  assert (Hkeep : ~ (qualifies req node /\ load node < m) ->
                  scan_inv req (seen ++ [node]) best).
  { intros Hnot. exists m. refine (conj Hm (conj Hlow (conj _ _))).
    - destruct (fst best) as [b|]; [|assumption].
      destruct Hbest as (Hin & Hq & Hl & Hlt).
      refine (conj _ (conj Hq (conj Hl Hlt))).
      apply elem_of_app. left. assumption.
    - intros n Hn Hq. apply elem_of_app in Hn as [Hn|Hn]; [auto|].
      apply list_elem_of_singleton in Hn. subst n.
      destruct (Z.le_gt_cases m (load node)); [assumption|]. exfalso. auto. }
  destruct (decide (status node = StatusHealthy)) as [Hs|Hs].
  2:{ rewrite bool_decide_eq_false_2 by assumption. simpl.
      apply Hkeep. intros [[Hs' _] _]. contradiction. }
  rewrite bool_decide_eq_true_2 by assumption. simpl.
  destruct (nodeMatchesRequirements node req) eqn:Hmatch; simpl.
  2:{ apply Hkeep. intros [Hq _].
      apply nodeMatchesRequirements_spec in Hq; [congruence | assumption]. }
  apply nodeMatchesRequirements_spec in Hmatch; [|assumption].
  rewrite loadFactor_well_formed by assumption. rewrite Hlow.
  destruct Hwf as [Hcap Hload].
  rewrite factor100_ltb by lia.
  destruct (Z.ltb_spec (load node) m) as [Hlt|Hge].
  - exists (load node). simpl.
    refine (conj _ (conj eq_refl (conj (conj _ (conj Hmatch (conj eq_refl _))) _)));
      try lia.
    + apply elem_of_app. right. apply list_elem_of_singleton. reflexivity.
    + intros n Hn Hq. apply elem_of_app in Hn as [Hn|Hn].
      * specialize (Hmin n Hn Hq). lia.
      * apply list_elem_of_singleton in Hn. subst n. lia.
  - apply Hkeep. intros [_ Hlt]. lia.
Qed.

Lemma scan_inv_foldl {W : Type} req (visited : list (Node W)) :
  Forall well_formed visited ->
  scan_inv req visited (foldl (consider req) (None, 1%float) visited).
Proof.
  induction visited as [|node visited IH] using rev_ind; intros Hwf.
  - exists 100. simpl. rewrite factor100_100.
    refine (conj _ (conj eq_refl (conj eq_refl _))); [lia|].
    intros n Hn. apply elem_of_nil in Hn. contradiction.
  - apply Forall_app in Hwf as [Hwf Hnode]. inversion Hnode; subst.
    rewrite foldl_app. simpl. apply scan_inv_consider; auto.
Qed.

Lemma walk_of_elem {W : Type} (c : Cluster W) visited (n : Node W) :
  walk_of c visited -> n ∈ visited <-> exists id, nodes c !! id = Some n.
Proof.
  unfold walk_of. intros ->. rewrite list_elem_of_fmap. split.
  - intros ([id n'] & -> & Hin). apply elem_of_map_to_list in Hin. eauto.
  - intros [id Hid]. exists (id, n). split; [reflexivity|].
    apply elem_of_map_to_list. assumption.
Qed.

(** C1, as the code has it.  Let the cluster hold nodes as the package
    makes them and let [visited] be any order in which the scheduler walks
    them.  If [findSuitableNode] returns a node, it is a node of the
    cluster that is Healthy, carries every required tag, hosts the required
    agent when one is named, and has load strictly below capacity; its
    ratio load/capacity is least among all nodes of the cluster that
    qualify; [ScheduleTask] runs the task on it and does not fail with
    [ErrNoSuitableNode].  If it returns none, every qualifying node of the
    cluster is loaded to capacity and [ScheduleTask] fails with
    [ErrNoSuitableNode], the world untouched. *)
Theorem schedule_selects_least_loaded {W : Type} (c : Cluster W)
    (visited : list (Node W)) (task : string) (req : Types.TaskRequirements)
    (w : W) :
  walk_of c visited ->
  (forall id n, nodes c !! id = Some n -> well_formed n) ->
  match findSuitableNode visited req with
  | Some n =>
      (exists id, nodes c !! id = Some n) /\
      qualifies req n /\ load n < capacity n /\
      (forall id m, nodes c !! id = Some m -> qualifies req m ->
                    (ratio n <= ratio m)%Q) /\
      ScheduleTask visited task req w =
        (let (r, w1) := ExecuteTask n (Types.AgentID req) task w in
         match snd r with
         | Some err => (("", Some (Wrapped "task execution failed: " err)), w1)
         | None => ((fst r, None), w1)
         end) /\
      snd (fst (ScheduleTask visited task req w)) <> Some ErrNoSuitableNode
  | None =>
      (forall id m, nodes c !! id = Some m -> qualifies req m ->
                    load m = capacity m) /\
      ScheduleTask visited task req w = (("", Some ErrNoSuitableNode), w)
  end.
Proof.
  intros Hwalk Hwf.
  assert (Hall : Forall well_formed visited).
  { apply Forall_forall. intros n Hn.
    apply (walk_of_elem c visited n Hwalk) in Hn as [id Hid]. eauto. }
  destruct (scan_inv_foldl req visited Hall) as (m & Hm & Hlow & Hbest & Hmin).
  unfold ScheduleTask, findSuitableNode in *.
  destruct (fst (foldl (consider req) (None, 1%float) visited)) as [n|].
  - destruct Hbest as (Hin & Hq & Hl & Hlt).
    assert (Hn : well_formed n).
    { apply (walk_of_elem c visited n Hwalk) in Hin as [id Hid]. eauto. }
    split; [apply (walk_of_elem c visited n Hwalk); assumption|].
    split; [assumption|].
    split; [destruct Hn; lia|].
    split.
    { intros id x Hid Hqx. apply ratio_le_well_formed; eauto.
      rewrite Hl. apply Hmin; [|assumption].
      apply (walk_of_elem c visited x Hwalk). eauto. }
    split; [reflexivity|].
    destruct (ExecuteTask n (Types.AgentID req) task w) as [[s [e|]] w1];
      simpl; discriminate.
  - subst m. split; [|reflexivity].
    intros id x Hid Hqx.
    assert (Hx : x ∈ visited) by (apply (walk_of_elem c visited x Hwalk); eauto).
    specialize (Hmin x Hx Hqx). destruct (Hwf id x Hid) as [Hc Hload]. lia.
Qed.

Lemma cluster_of_lookup {W : Type} (ns : list (Node W)) id n :
  nodes (Stubs.cluster_of ns) !! id = Some n -> n ∈ ns.
Proof.
  simpl. intros H. apply elem_of_list_to_map_2 in H.
  apply list_elem_of_fmap in H as (n' & Heq & Hin). congruence.
Qed.

Lemma cluster_of_walk {W : Type} (ns : list (Node W)) :
  NoDup ((fun n => ID (config n)) <$> ns) -> walk_of (Stubs.cluster_of ns) ns.
Proof.
  intros Hnd. unfold walk_of. simpl.
  rewrite map_to_list_to_map.
  - rewrite <- list_fmap_compose. simpl. rewrite list_fmap_id. reflexivity.
  - rewrite <- list_fmap_compose. exact Hnd.
Qed.

Lemma schedule_selects_least_loaded_witness :
  let a : Agent unit := Stubs.tagging "worker" in
  let nA := Stubs.node_with "A" ["gpu"] {["worker" := a]} 80 StatusHealthy in
  let nB := Stubs.node_with "B" ["gpu"] {["worker" := a]} 50 StatusHealthy in
  let nC := Stubs.node_with "C" ["gpu"] {["worker" := a]} 10 StatusHealthy in
  let c := Stubs.cluster_of [nA; nB; nC] in
  let req := Stubs.requiring "worker" ["gpu"] in
  (walk_of c [nA; nB; nC] /\
   (forall id n, nodes c !! id = Some n -> well_formed n)) /\
  findSuitableNode [nA; nB; nC] req = Some nC /\
  match findSuitableNode [nA; nB; nC] req with
  | Some n =>
      (exists id, nodes c !! id = Some n) /\
      qualifies req n /\ load n < capacity n /\
      (forall id m, nodes c !! id = Some m -> qualifies req m ->
                    (ratio n <= ratio m)%Q) /\
      ScheduleTask [nA; nB; nC] "task" req tt =
        (let (r, w1) := ExecuteTask n (Types.AgentID req) "task" tt in
         match snd r with
         | Some err => (("", Some (Wrapped "task execution failed: " err)), w1)
         | None => ((fst r, None), w1)
         end) /\
      snd (fst (ScheduleTask [nA; nB; nC] "task" req tt)) <> Some ErrNoSuitableNode
  | None =>
      (forall id m, nodes c !! id = Some m -> qualifies req m ->
                    load m = capacity m) /\
      ScheduleTask [nA; nB; nC] "task" req tt = (("", Some ErrNoSuitableNode), tt)
  end.
Proof.
  intros a nA nB nC c req.
  assert (Hwalk : walk_of c [nA; nB; nC]).
  { apply cluster_of_walk. refine (bool_decide_unpack _ _). vm_compute. exact I. }
  assert (Hwf : forall id n, nodes c !! id = Some n -> well_formed n).
  { intros id n Hn. apply cluster_of_lookup in Hn.
    repeat (apply elem_of_cons in Hn as [->|Hn];
            [split; [reflexivity | simpl; lia]|]).
    apply elem_of_nil in Hn. contradiction. }
  split; [split; assumption|].
  split; [vm_compute; reflexivity|].
  apply (schedule_selects_least_loaded c [nA; nB; nC] "task" req tt Hwalk Hwf).
Defined.

(** C1 as stated fails on a node that qualifies but is loaded to capacity:
    the scan starts from [lowestLoad = 1.0] and keeps a node only when its
    factor is strictly below.  Here a Healthy node carrying the tag and the
    agent has load 100 of 100 (a node reaches this by a hundred
    registrations); the scheduler finds no node and fails. *)
Lemma schedule_skips_full_node :
  let a : Agent unit := Stubs.tagging "worker" in
  let full := Stubs.node_with "A" ["gpu"] {["worker" := a]} 100 StatusHealthy in
  let req := Stubs.requiring "worker" ["gpu"] in
  well_formed full /\ qualifies req full /\
  walk_of (Stubs.cluster_of [full]) [full] /\
  ScheduleTask [full] "task" req tt = (("", Some ErrNoSuitableNode), tt).
Proof.
  intros a full req. split; [split; [reflexivity | simpl; lia]|].
  split.
  - split; [reflexivity|]. split.
    + intros tag Ht. exact Ht.
    + intros _. exists a. reflexivity.
  - split; [|vm_compute; reflexivity].
    apply cluster_of_walk. refine (bool_decide_unpack _ _). vm_compute. exact I.
Qed.

(** ** Retry *)

Import RetrySpec.

Lemma isRetryable_nil (e : error) : isRetryable e [] = true.
Proof. reflexivity. Qed.

Lemma count_calls_attempts_trace config delay n :
  count_calls (attempts_trace config delay n) = n.
Proof.
  revert delay. induction n as [|n IH]; intros delay; [reflexivity|].
  destruct n as [|n]; [reflexivity|].
  change (attempts_trace config delay (S (S n)))
    with (EvCall :: EvWait delay :: attempts_trace config (nextDelay config delay) (S n)).
  specialize (IH (nextDelay config delay)).
  unfold count_calls in *.
  rewrite filter_cons_True by reflexivity.
  rewrite filter_cons_False by discriminate.
  cbn [length]. rewrite IH. reflexivity.
Qed.

Lemma waits_cons_call tr : waits (EvCall :: tr) = waits tr.
Proof. reflexivity. Qed.

Lemma waits_cons_wait d tr : waits (EvWait d :: tr) = d :: waits tr.
Proof. reflexivity. Qed.

Lemma waits_attempts_trace config delay n :
  waits (attempts_trace config delay n) = backoff config delay (n - 1).
Proof.
  revert delay. induction n as [|n IH]; intros delay; [reflexivity|].
  destruct n as [|n]; [reflexivity|].
  change (attempts_trace config delay (S (S n)))
    with (EvCall :: EvWait delay :: attempts_trace config (nextDelay config delay) (S n)).
  rewrite waits_cons_call, waits_cons_wait, IH.
  replace (S (S n) - 1)%nat with (S n) by lia.
  replace (S n - 1)%nat with n by lia. reflexivity.
Qed.

(** The update of the delay is a minimum: the product, computed in binary64
    and truncated, or [MaxDelay]. *)
Lemma nextDelay_min config delay :
  nextDelay config delay =
    Z.min (int64_of_float (PrimFloat.mul (float64 delay) (BackoffFactor config)))
          (MaxDelay config).
Proof.
  unfold nextDelay.
  destruct (Z.ltb_spec (MaxDelay config)
              (int64_of_float (PrimFloat.mul (float64 delay) (BackoffFactor config))));
    lia.
Qed.

Section RetryLoop.

Context {W : Type} (wait : Wait W) (fn : Func W) (config : RetryConfig).
Hypothesis Hmax : MaxAttempts config <= MaxInt64.
Hypothesis Hfail : always_fails_retryable fn config.
Hypothesis Hlive : never_cancelled wait.

(** One failed round: the callback fails with a retryable error. *)
Lemma failing_round (w : W) :
  exists e, fst (fn w) = Some e /\
            isRetryable e (RetryableErrors config) = true.
Proof.
  destruct (Hfail w) as (e & He & Hre). exists e. split; [assumption|].
  destruct Hre as [Hnil|Hre]; [rewrite Hnil; reflexivity | assumption].
Qed.

(** The loop with [k] attempts left, none of which succeeds. *)
Lemma retry_loop_exhausts (k : nat) :
  forall (fuel : nat) (attempt : Z) delay err (w : W) tr,
    (1 <= k)%nat -> (k <= fuel)%nat -> 1 <= attempt ->
    attempt + Z.of_nat k = MaxAttempts config + 1 ->
    retry_loop fuel (logged_wait wait) (logged fn) config attempt delay err (w, tr) =
      Some (fst (fn (after_rounds wait fn config delay (k - 1) w)),
            (snd (fn (after_rounds wait fn config delay (k - 1) w)),
             tr ++ attempts_trace config delay k)).
Proof.
  induction k as [|k IH]; intros fuel attempt delay err w tr Hk Hfuel Ha Hsum; [lia|].
  destruct fuel as [|fuel]; [lia|]. cbn [retry_loop].
  destruct (Z.leb_spec attempt (MaxAttempts config)); [|lia]. simpl negb. cbv iota.
  unfold logged at 1. simpl fst. simpl snd.
  destruct (failing_round w) as (e & He & Hretry).
  destruct (fn w) as [r w1] eqn:Hfn. simpl in He. subst r.
  rewrite Hretry. simpl negb. cbv iota.
  destruct k as [|k].
  - (* the last attempt *)
    destruct (Z.eqb_spec attempt (MaxAttempts config)); [|lia].
    simpl. rewrite Hfn. reflexivity.
  - destruct (Z.eqb_spec attempt (MaxAttempts config)); [lia|].
    unfold logged_wait at 1. simpl fst. simpl snd.
    pose proof (Hlive delay w1) as Hw.
    destruct (wait delay w1) as [d w2] eqn:Hwait. simpl in Hw. subst d.
    rewrite wrap64_small by (unfold MinInt64, MaxInt64 in *; lia).
    rewrite (IH fuel (attempt + 1) (nextDelay config delay) (Some e) w2
               ((tr ++ [EvCall]) ++ [EvWait delay])) by lia.
    replace (S k - 1)%nat with k by lia.
    rewrite Hfn. simpl snd. rewrite Hwait. simpl snd.
    change (attempts_trace config delay (S (S k)))
      with (EvCall :: EvWait delay :: attempts_trace config (nextDelay config delay) (S k)).
    rewrite <- !app_assoc. reflexivity.
Qed.

End RetryLoop.

(** C7, as the code has it.  Let [MaxAttempts = n >= 1], let the callback
    fail at every invocation with an error that is retryable (as every
    error is when the allow-list is empty), and let no wait be cut short
    by the context.  Then [Retry] returns; the callback has been invoked
    exactly [n] times with a wait between each two invocations; the error
    returned is the one of the last invocation; and the delays waited are
    [InitialDelay], then each time the previous delay multiplied by
    [BackoffFactor] in binary64, truncated to a duration and capped by
    [MaxDelay]. *)
Theorem retry_exhausts_attempts {W : Type} (wait : Wait W) (fn : Func W)
    (config : RetryConfig) (w : W) :
  1 <= MaxAttempts config <= MaxInt64 ->
  always_fails_retryable fn config ->
  never_cancelled wait ->
  exists (w_last : W) (tr : list event),
    w_last = after_rounds wait fn config (InitialDelay config)
               (Z.to_nat (MaxAttempts config) - 1) w /\
    Retry (logged_wait wait) (logged fn) config (w, []) =
      Some (fst (fn w_last), (snd (fn w_last), tr)) /\
    is_Some (fst (fn w_last)) /\
    tr = attempts_trace config (InitialDelay config) (Z.to_nat (MaxAttempts config)) /\
    count_calls tr = Z.to_nat (MaxAttempts config) /\
    waits tr = backoff config (InitialDelay config)
                 (Z.to_nat (MaxAttempts config) - 1) /\
    (forall delay,
        nextDelay config delay =
          Z.min (int64_of_float
                   (PrimFloat.mul (float64 delay) (BackoffFactor config)))
                (MaxDelay config)).
Proof.
  intros [Hn Hmax] Hfail Hlive.
  eexists. eexists. split; [reflexivity|].
  split; [|split; [|split; [reflexivity|split; [|split]]]].
  - unfold Retry.
    rewrite (retry_loop_exhausts wait fn config Hmax Hfail Hlive
               (Z.to_nat (MaxAttempts config))) by lia.
    reflexivity.
  - destruct (Hfail (after_rounds wait fn config (InitialDelay config)
                       (Z.to_nat (MaxAttempts config) - 1) w)) as (e & -> & _).
    eauto.
  - apply count_calls_attempts_trace.
  - apply waits_attempts_trace.
  - apply nextDelay_min.
Qed.

Lemma retry_exhausts_attempts_witness :
  (1 <= MaxAttempts DefaultRetryConfig <= MaxInt64 /\
   always_fails_retryable Stubs.flaky DefaultRetryConfig /\
   never_cancelled (Stubs.timer_fires (W := nat))) /\
  Retry (logged_wait Stubs.timer_fires) (logged Stubs.flaky) DefaultRetryConfig
        (O, []) =
    Some (Some (ErrorString "failure 2"),
          (3%nat, [EvCall; EvWait (100 * Millisecond);
                   EvCall; EvWait (200 * Millisecond); EvCall])) /\
  exists (w_last : nat) (tr : list event),
    w_last = after_rounds Stubs.timer_fires Stubs.flaky DefaultRetryConfig
               (InitialDelay DefaultRetryConfig)
               (Z.to_nat (MaxAttempts DefaultRetryConfig) - 1) O /\
    Retry (logged_wait Stubs.timer_fires) (logged Stubs.flaky) DefaultRetryConfig
          (O, []) =
      Some (fst (Stubs.flaky w_last), (snd (Stubs.flaky w_last), tr)) /\
    is_Some (fst (Stubs.flaky w_last)) /\
    tr = attempts_trace DefaultRetryConfig (InitialDelay DefaultRetryConfig)
           (Z.to_nat (MaxAttempts DefaultRetryConfig)) /\
    count_calls tr = Z.to_nat (MaxAttempts DefaultRetryConfig) /\
    waits tr = backoff DefaultRetryConfig (InitialDelay DefaultRetryConfig)
                 (Z.to_nat (MaxAttempts DefaultRetryConfig) - 1) /\
    (forall delay,
        nextDelay DefaultRetryConfig delay =
          Z.min (int64_of_float
                   (PrimFloat.mul (float64 delay) (BackoffFactor DefaultRetryConfig)))
                (MaxDelay DefaultRetryConfig)).
Proof.
  assert (H1 : 1 <= MaxAttempts DefaultRetryConfig <= MaxInt64)
    by (split; vm_compute; discriminate).
  assert (H2 : always_fails_retryable Stubs.flaky DefaultRetryConfig)
    by (intros w; eexists; split; [reflexivity | left; reflexivity]).
  assert (H3 : never_cancelled (Stubs.timer_fires (W := nat)))
    by (intros d w; reflexivity).
  split; [auto|]. split; [vm_compute; reflexivity|].
  apply (retry_exhausts_attempts Stubs.timer_fires Stubs.flaky
           DefaultRetryConfig O H1 H2 H3).
Defined.

(** C7 as stated fails when the context is cancelled: the first wait
    returns the context's error, so a callback that always fails is
    invoked once although [MaxAttempts] is 3, and the error returned is
    not the callback's. *)
Lemma retry_cancelled_stops_early :
  MaxAttempts DefaultRetryConfig = 3 /\
  always_fails_retryable Stubs.flaky DefaultRetryConfig /\
  Retry (logged_wait Stubs.context_cancelled) (logged Stubs.flaky)
        DefaultRetryConfig (O, []) =
    Some (Some ContextCanceled, (1%nat, [EvCall; EvWait (100 * Millisecond)])).
Proof.
  split; [reflexivity|]. split.
  - intros w; eexists; split; [reflexivity | left; reflexivity].
  - vm_compute. reflexivity.
Qed.

(** ** Sequential workflow *)

Import Workflow WorkflowSpec.

(** With a live context the loop over a non-empty rest is the pipeline:
    the last index is where [finalResult] is set. *)
Lemma sequential_loop_pipeline {W : Type} (ctx : Context W) (rest : list (Agent W)) :
  live ctx -> rest <> [] ->
  forall (i len : Z) (task fin : string) (w : W),
    i + Z.of_nat (length rest) = len ->
    sequential_loop ctx rest i len task fin w = pipeline rest task w.
Proof.
  intros Hlive. induction rest as [|a rest IH]; intros Hne i len task fin w Hlen;
    [congruence|].
  cbn [sequential_loop pipeline]. rewrite Hlive.
  destruct (Agents.Execute a task w) as [[s [e|]] w1]; simpl; [reflexivity|].
  destruct rest as [|b rest].
  - simpl in *. destruct (Z.eqb_spec i (len - 1)); [reflexivity | lia].
  - apply IH; [discriminate|]. simpl length in *. lia.
Qed.

(** What a pipeline of logged agents writes to the log. *)
Lemma pipeline_logged {W : Type} (agents : list (Agent W)) :
  forall (x : string) (w : W) (tr : list call),
  exists calls w',
    pipeline (logged_agent <$> agents) x (w, tr)
      = (fst (pipeline agents x w), (w', tr ++ calls)) /\
    w' = snd (pipeline agents x w) /\
    chained x (GetName <$> agents) calls (fst (pipeline agents x w)).
Proof.
  induction agents as [|a agents IH]; intros x w tr.
  - exists [], w. simpl. rewrite app_nil_r. repeat split. constructor.
  - cbn [fmap list_fmap pipeline]. unfold logged_agent at 1. cbn [Agents.Execute fst snd].
    destruct (Agents.Execute a x w) as [[s [e|]] w1] eqn:Hexec; cbn [fst snd].
    + exists [mkCall (GetName a) x (s, Some e)], w1. repeat split. constructor.
    + destruct (IH s w1 (tr ++ [mkCall (GetName a) x (s, None)]))
        as (calls & w' & Hrun & Hw & Hch).
      exists (mkCall (GetName a) x (s, None) :: calls), w'.
      split; [|split; [assumption | constructor; assumption]].
      rewrite Hrun, <- app_assoc. reflexivity.
Qed.

(** C6, as the code has it.  Let the context stay live and the workflow
    have at least one agent.  Then [Execute] is the composition of the
    agents: each runs on the output of the one before, the result is the
    last agent's output, and at the first failure the run ends with that
    agent's error as it is.  On logged agents the log shows it: the calls
    made are chained from the input in registration order and stop with
    the first failing agent, so no agent after it is invoked. *)
Theorem sequential_workflow_composes {W : Type} (ctx : Context W)
    (agents : list (Agent W)) (x : string) (w : W) :
  live ctx -> agents <> [] ->
  Sequential_Execute ctx agents x w = pipeline agents x w /\
  exists calls : list call,
    Sequential_Execute (ctx_logged ctx) (logged_agent <$> agents) x (w, []) =
      (fst (pipeline agents x w), (snd (pipeline agents x w), calls)) /\
    chained x (GetName <$> agents) calls (fst (pipeline agents x w)).
Proof.
  intros Hlive Hne. split.
  - unfold Sequential_Execute.
    apply sequential_loop_pipeline; [assumption | assumption | lia].
  - destruct (pipeline_logged agents x w []) as (calls & w' & Hrun & -> & Hch).
    exists calls. split; [|assumption].
    unfold Sequential_Execute. rewrite sequential_loop_pipeline.
    + exact Hrun.
    + intros s. apply Hlive.
    + destruct agents; [congruence | discriminate].
    + lia.
Qed.

Lemma sequential_workflow_composes_witness :
  let A : Agent unit := Stubs.tagging "A" in
  let B : Agent unit := Stubs.tagging "B" in
  let ctx : Context unit := fun _ => None in
  (live ctx /\ [A; B] <> []) /\
  Sequential_Execute ctx [A; B] "x" tt = (("B(A(x))", None), tt) /\
  (Sequential_Execute ctx [A; B] "x" tt = pipeline [A; B] "x" tt /\
   exists calls : list call,
     Sequential_Execute (ctx_logged ctx) (logged_agent <$> [A; B]) "x" (tt, []) =
       (fst (pipeline [A; B] "x" tt), (snd (pipeline [A; B] "x" tt), calls)) /\
     chained "x" (GetName <$> [A; B]) calls (fst (pipeline [A; B] "x" tt))).
Proof.
  intros A B ctx.
  assert (H1 : live ctx) by (intros w; reflexivity).
  assert (H2 : [A; B] <> []) by discriminate.
  split; [auto|]. split; [vm_compute; reflexivity|].
  apply (sequential_workflow_composes ctx [A; B] "x" tt H1 H2).
Defined.

(** C6 as stated fails in two ways.  A workflow without agents returns the
    empty string, not its input; and when the context is done the loop
    returns the context's error before invoking anybody, although no agent
    has failed. *)
Lemma sequential_workflow_not_always_composition :
  (Sequential_Execute (fun _ => None) ([] : list (Agent unit)) "x" tt
     = (("", None), tt) /\
   pipeline ([] : list (Agent unit)) "x" tt = (("x", None), tt)) /\
  (let A : Agent unit := Stubs.tagging "A" in
   Sequential_Execute (ctx_logged (fun _ => Some ContextCanceled))
                      (logged_agent <$> [A]) "x" (tt, [])
     = (("", Some ContextCanceled), (tt, [])) /\
   pipeline [A] "x" tt = (("A(x)", None), tt)).
Proof. repeat split; vm_compute; reflexivity. Qed.

(** ** Mixture workflow *)

Import MixtureSpec.

Lemma recv_or_default_closed (buf : list error) :
  recv_or_default {| buffer := buf; closed := true |} = Some (head buf).
Proof. destruct buf; reflexivity. Qed.

Lemma member_no_error {W : Type} (client : AgentClient W) task index (a : Agent W)
    (st : shared W) :
  client_succeeds client ->
  (forall x w, snd (fst (Agents.Execute a x w)) = None) ->
  errors (member client task index a st) = errors st.
Proof.
  intros [_ Hsync] Ha. unfold member.
  destruct (PublishEvent client "agent_start" _ _ _) as [? w0].
  specialize (Ha task w0).
  destruct (Agents.Execute a task w0) as [[s e] w1]. simpl in Ha. subst e. simpl.
  specialize (Hsync ("agent_" +:+ pretty (index + 1)%nat +:+ "_result") s w1).
  destruct (SyncState client _ s w1) as [[v e] w2]. simpl in Hsync. subst e. simpl.
  destruct (PublishEvent client "agent_complete" _ _ _). reflexivity.
Qed.

Lemma run_members_no_error {W : Type} (client : AgentClient W)
    (wf : MixtureWorkflow W) task schedule (w : W) :
  client_succeeds client -> members_succeed wf ->
  errors (run_members client wf task schedule w) = [].
Proof.
  intros Hc Hm. unfold run_members.
  set (st0 := {| results := replicate (length (agents wf)) ""; errors := []; world := w |}).
  assert (H0 : errors st0 = []) by reflexivity.
  clearbody st0. revert st0 H0.
  induction schedule as [|i schedule IH]; intros st0 H0; simpl; [assumption|].
  apply IH. destruct (agents wf !! i) as [a|] eqn:Hi; [|assumption].
  rewrite member_no_error; [assumption | assumption |].
  apply Hm. eapply list_elem_of_lookup_2. exact Hi.
Qed.

(** C2 fails on the code.  Let the client's calls succeed and every member
    agent succeed.  [Execute] closes the [errors] channel before it selects
    on it; a closed channel is always ready, so the receive yields [nil],
    the default case is never taken, and the call returns the empty string
    with a [nil] error.  The aggregator plays no part: the outcome and the
    world are the same whatever aggregator the workflow holds. *)
Theorem mixture_success_skips_aggregation {W : Type} (client : AgentClient W)
    (wf : MixtureWorkflow W) (task : string) (schedule : list nat) (w : W) :
  client_succeeds client ->
  members_succeed wf ->
  fst (Mixture_Execute (inl client) wf task schedule w) = ("", None) /\
  forall aggregator' : Agent W,
    Mixture_Execute (inl client) (mkMixtureWorkflow (agents wf) aggregator')
                    task schedule w
    = Mixture_Execute (inl client) wf task schedule w.
Proof.
  intros Hc Hm. split.
  - unfold Mixture_Execute. destruct Hc as [Hpub Hsync].
    pose proof (Hpub "workflow_start"
                  ("Starting mixture workflow with " +:+ pretty (length (agents wf))
                     +:+ " agents")
                  [("num_agents", pretty (length (agents wf)))] w) as Hstart.
    destruct (PublishEvent client "workflow_start" _ _ w) as [e w1].
    simpl in Hstart. subst e.
    rewrite recv_or_default_closed.
    rewrite (run_members_no_error client wf task schedule w1 (conj Hpub Hsync) Hm).
    simpl. destruct (PublishEvent client "workflow_error" _ _ _). reflexivity.
  - intros aggregator'. unfold Mixture_Execute.
    destruct (PublishEvent client "workflow_start" _ _ w) as [[e|] w1];
      [reflexivity|].
    rewrite !recv_or_default_closed. reflexivity.
Qed.

Lemma mixture_success_skips_aggregation_witness :
  let A : Agent (unit * list call) := logged_agent (Stubs.tagging "A") in
  let B : Agent (unit * list call) := logged_agent (Stubs.tagging "B") in
  let G : Agent (unit * list call) := logged_agent (Stubs.tagging "G") in
  let wf := mkMixtureWorkflow [A; B] G in
  (client_succeeds (Stubs.quiet_client (W := unit * list call)) /\
   members_succeed wf) /\
  Mixture_Execute (inl Stubs.quiet_client) wf "task" [0%nat; 1%nat] (tt, []) =
    (("", None),
     (tt, [mkCall "A" "task" ("A(task)", None);
           mkCall "B" "task" ("B(task)", None)])) /\
  (fst (Mixture_Execute (inl Stubs.quiet_client) wf "task" [0%nat; 1%nat] (tt, []))
     = ("", None) /\
   forall aggregator' : Agent (unit * list call),
     Mixture_Execute (inl Stubs.quiet_client)
                     (mkMixtureWorkflow (agents wf) aggregator')
                     "task" [0%nat; 1%nat] (tt, [])
     = Mixture_Execute (inl Stubs.quiet_client) wf "task" [0%nat; 1%nat] (tt, [])).
Proof.
  intros A B G wf.
  assert (H1 : client_succeeds (Stubs.quiet_client (W := unit * list call)))
    by (split; intros; reflexivity).
  assert (H2 : members_succeed wf).
  { intros a Ha x w. simpl in Ha.
    repeat (apply elem_of_cons in Ha as [->|Ha]; [reflexivity|]).
    apply elem_of_nil in Ha. contradiction. }
  split; [auto|]. split; [vm_compute; reflexivity|].
  apply (mixture_success_skips_aggregation Stubs.quiet_client wf "task"
           [0%nat; 1%nat] (tt, []) H1 H2).
Defined.

(** The join that [Execute] would hand to the aggregator is the
    newline-joined slice; only the select before it keeps it from being
    used. *)
Lemma string_app_assoc (a b c : string) : (a +:+ b) +:+ c = a +:+ (b +:+ c).
Proof.
  induction a as [|ch a IH]; [reflexivity|].
  change (String ch ((a +:+ b) +:+ c) = String ch (a +:+ (b +:+ c))).
  f_equal. exact IH.
Qed.

Lemma string_app_nil_r (a : string) : a +:+ "" = a.
Proof.
  induction a as [|ch a IH]; [reflexivity|].
  change (String ch (a +:+ "") = String ch a). f_equal. exact IH.
Qed.

Lemma stringSliceToString_from_joined (slice : list string) :
  forall (i len : Z) (result : string),
    i + Z.of_nat (length slice) = len ->
    stringSliceToString_from i len slice result = result +:+ joined_outputs slice.
Proof.
  unfold joined_outputs.
  induction slice as [|s slice IH]; intros i len result Hlen.
  - simpl. rewrite string_app_nil_r. reflexivity.
  - cbn [stringSliceToString_from]. destruct slice as [|s' slice].
    + simpl in Hlen. destruct (Z.ltb_spec i (len - 1)); [lia|]. reflexivity.
    + destruct (Z.ltb_spec i (len - 1)); [|simpl length in Hlen; lia].
      rewrite IH by (simpl length in *; lia).
      change (String.concat LF (s :: s' :: slice))
        with (s +:+ LF +:+ String.concat LF (s' :: slice)).
      rewrite !string_app_assoc. reflexivity.
Qed.

Lemma stringSliceToString_joined (slice : list string) :
  stringSliceToString slice = joined_outputs slice.
Proof.
  unfold stringSliceToString.
  rewrite stringSliceToString_from_joined by lia. reflexivity.
Qed.

(** * Further properties *)

(** ** Circuit breaker: runs from a fresh breaker *)

Import BreakerSpec.

Lemma cb_run_snoc cb cs c : cb_run cb (cs ++ [c]) = cb_step (cb_run cb cs) c.
Proof. unfold cb_run. rewrite foldl_app. reflexivity. Qed.

Lemma failures_snoc cs c :
  failures (cs ++ [c]) = ((if is_failure c then 1 else 0) + failures cs)%nat.
Proof.
  unfold failures. rewrite filter_app, length_app. simpl.
  rewrite filter_cons, filter_nil.
  case_decide as H; destruct (is_failure c); simpl; (lia || discriminate).
Qed.

Lemma last_failure_time_snoc cs c :
  last_failure_time (cs ++ [c]) =
    match c with
    | CallRecordResult (Some _) now => now
    | _ => last_failure_time cs
    end.
Proof. unfold last_failure_time. rewrite foldl_app. reflexivity. Qed.

(** What every run from a fresh breaker keeps. *)
Lemma cb_run_invariant (n : Z) (timeout : Duration) (cs : list cb_call) :
  1 <= n <= MaxInt64 ->
  failureThreshold (cb_run (NewCircuitBreaker n timeout) cs) = n /\
  resetTimeout (cb_run (NewCircuitBreaker n timeout) cs) = timeout /\
  lastFailure (cb_run (NewCircuitBreaker n timeout) cs) = last_failure_time cs /\
  (state (cb_run (NewCircuitBreaker n timeout) cs) = StateClosed ->
   0 <= failureCount (cb_run (NewCircuitBreaker n timeout) cs) < n) /\
  (state (cb_run (NewCircuitBreaker n timeout) cs) <> StateClosed ->
   (1 <= failures cs)%nat).
Proof.
  intros Hn. induction cs as [|c cs IH] using rev_ind.
  - simpl. repeat split; try lia. intros H. exfalso. apply H. reflexivity.
  - rewrite cb_run_snoc, failures_snoc, last_failure_time_snoc.
    destruct IH as (Hth & Hto & Hlf & Hclosed & Hopen).
    destruct (cb_run (NewCircuitBreaker n timeout) cs) as [s fc ft rt lf].
    simpl in *. subst ft rt lf.
    destruct s, c as [now | [e|] now]; simpl;
      unfold AllowRequest, RecordResult; simpl;
      repeat match goal with
        | |- context [?a <=? ?b] => destruct (Z.leb_spec a b)
        | |- context [?a <? ?b] => destruct (Z.ltb_spec a b)
        end; simpl; repeat split; try reflexivity; try lia; try congruence;
      try (specialize (Hclosed eq_refl);
           rewrite ?wrap64_small in * by (unfold MinInt64, MaxInt64 in *; lia); lia);
      try (intros Hne; apply Hopen; congruence).
Qed.

Lemma cb_run_few_failures (n : Z) (timeout : Duration) (cs : list cb_call) :
  1 <= n <= MaxInt64 -> Z.of_nat (failures cs) < n ->
  state (cb_run (NewCircuitBreaker n timeout) cs) = StateClosed /\
  failureCount (cb_run (NewCircuitBreaker n timeout) cs) = Z.of_nat (failures cs).
Proof.
  intros Hn. induction cs as [|c cs IH] using rev_ind; intros Hf.
  - split; reflexivity.
  - rewrite failures_snoc in Hf. rewrite cb_run_snoc, failures_snoc.
    destruct IH as [Hs Hc]; [lia|].
    destruct (cb_run_invariant n timeout cs Hn) as (Hth & _).
    destruct (cb_run (NewCircuitBreaker n timeout) cs) as [s fc ft rt lf].
    simpl in *. subst s fc ft.
    destruct c as [now | [e|] now]; simpl in *;
      unfold AllowRequest, RecordResult; simpl.
    + split; [reflexivity | lia].
    + rewrite wrap64_small by (unfold MinInt64, MaxInt64 in *; lia).
      destruct (Z.leb_spec n (Z.of_nat (failures cs) + 1)); [lia|].
      simpl. split; [reflexivity | lia].
    + split; [reflexivity | lia].
Qed.



(** X2.  On a fresh breaker with threshold [n], the failure that brings the
    number of recorded failures to [n] opens the circuit, whatever
    successes lie in between; the count is then [n], the last failure time
    is the time of that call, and every request made while no more than
    [resetTimeout] has passed since is refused and leaves the breaker as it
    is. *)
Theorem breaker_opens_on_nth_failure (n : Z) (timeout : Duration)
    (cs : list cb_call) (e : error) (t : Time) :
  1 <= n <= MaxInt64 ->
  Z.of_nat (failures cs) = n - 1 ->
  state (cb_run (NewCircuitBreaker n timeout)
           (cs ++ [CallRecordResult (Some e) t])) = StateOpen /\
  failureCount (cb_run (NewCircuitBreaker n timeout)
                  (cs ++ [CallRecordResult (Some e) t])) = n /\
  lastFailure (cb_run (NewCircuitBreaker n timeout)
                 (cs ++ [CallRecordResult (Some e) t])) = t /\
  forall now, Since now t <= timeout ->
    AllowRequest (cb_run (NewCircuitBreaker n timeout)
                    (cs ++ [CallRecordResult (Some e) t])) now
    = (false, cb_run (NewCircuitBreaker n timeout)
                (cs ++ [CallRecordResult (Some e) t])).
Proof.
  intros Hn Hf. rewrite cb_run_snoc.
  destruct (cb_run_few_failures n timeout cs Hn) as [Hs Hc]; [lia|].
  destruct (cb_run_invariant n timeout cs Hn) as (Hth & Hto & _).
  destruct (cb_run (NewCircuitBreaker n timeout) cs) as [s fc ft rt lf].
  simpl in *. subst s fc ft rt.
  unfold RecordResult. simpl.
  rewrite wrap64_small by (unfold MinInt64, MaxInt64 in *; lia).
  destruct (Z.leb_spec n (Z.of_nat (failures cs) + 1)); [|lia].
  simpl. repeat split; try lia.
  intros now Hnow. unfold AllowRequest. simpl.
  destruct (Z.ltb_spec timeout (Since now t)); [lia | reflexivity].
Qed.

Lemma breaker_opens_on_nth_failure_witness :
  let boom := Some (ErrorString "boom") in
  let cs := [CallRecordResult boom 1; CallRecordResult None 2;
             CallRecordResult boom 4] in
  let cb := cb_run (NewCircuitBreaker 3 Second)
              (cs ++ [CallRecordResult (Some (ErrorString "boom")) 7]) in
  (1 <= 3 <= MaxInt64 /\ Z.of_nat (failures cs) = 3 - 1) /\
  state cb = StateOpen /\ failureCount cb = 3 /\ lastFailure cb = 7 /\
  forall now, Since now 7 <= Second -> AllowRequest cb now = (false, cb).
Proof.
  intros boom cs cb.
  assert (H1 : 1 <= 3 <= MaxInt64) by (split; vm_compute; discriminate).
  assert (H2 : Z.of_nat (failures cs) = 3 - 1) by (vm_compute; reflexivity).
  split; [auto|].
  apply (breaker_opens_on_nth_failure 3 Second cs (ErrorString "boom") 7 H1 H2).
Defined.



(** ** Retry: the other ways out of the loop *)

Import RetryMoreSpec.

Lemma count_calls_cons_call tr : count_calls (EvCall :: tr) = S (count_calls tr).
Proof. unfold count_calls. rewrite filter_cons_True by reflexivity. reflexivity. Qed.

Lemma count_calls_cons_wait d tr : count_calls (EvWait d :: tr) = count_calls tr.
Proof. unfold count_calls. rewrite filter_cons_False by discriminate. reflexivity. Qed.

Lemma count_calls_nil : count_calls [] = O.
Proof. reflexivity. Qed.

Lemma waits_nil : waits [] = [].
Proof. reflexivity. Qed.

(** Normalise what a trace counts. *)
Ltac trace_simpl :=
  rewrite ?count_calls_cons_call, ?count_calls_cons_wait, ?count_calls_nil,
          ?waits_cons_call, ?waits_cons_wait, ?waits_nil;
  cbn [length backoff].

Lemma backoff_capped config delay k :
  Forall (fun d => d <= MaxDelay config) (backoff config (nextDelay config delay) k).
Proof.
  revert delay. induction k as [|k IH]; intros delay; simpl; constructor.
  - rewrite nextDelay_min. lia.
  - apply IH.
Qed.

Section RetryAnyCallback.

Context {W : Type} (wait : Wait W) (fn : Func W) (config : RetryConfig).
Hypothesis Hmax : MaxAttempts config <= MaxInt64.

(** The loop from any iteration, for any callback and any waits: it ends
    within the attempts that are left. *)
Lemma retry_loop_bounded (fuel : nat) :
  forall (attempt : Z) delay err (w : W) tr0,
    1 <= attempt ->
    MaxAttempts config + 1 <= attempt + Z.of_nat fuel ->
    exists r w' tr,
      retry_loop fuel (logged_wait wait) (logged fn) config attempt delay err (w, tr0)
        = Some (r, (w', tr0 ++ tr)) /\
      Z.of_nat (count_calls tr) <= Z.max 0 (MaxAttempts config + 1 - attempt) /\
      (length (waits tr) <= count_calls tr)%nat /\
      waits tr = backoff config delay (length (waits tr)) /\
      (tr = [] -> r = err).
Proof.
  induction fuel as [|fuel IH]; intros attempt delay err w tr0 Ha Hfuel.
  - cbn [retry_loop]. destruct (Z.leb_spec attempt (MaxAttempts config)); [lia|].
    exists err, w, []. rewrite app_nil_r. trace_simpl.
    repeat split; try reflexivity; lia.
  - cbn [retry_loop].
    destruct (Z.leb_spec attempt (MaxAttempts config)) as [Hle|Hgt];
      simpl negb; cbv iota.
    2:{ exists err, w, []. rewrite app_nil_r. trace_simpl.
        repeat split; try reflexivity; lia. }
    unfold logged at 1. simpl fst. simpl snd.
    destruct (fn w) as [[e|] w1].
    2:{ exists None, w1, [EvCall]. trace_simpl.
        repeat split; try reflexivity; try lia. discriminate. }
    destruct (isRetryable e (RetryableErrors config)); simpl negb; cbv iota.
    2:{ exists (Some e), w1, [EvCall]. trace_simpl.
        repeat split; try reflexivity; try lia. discriminate. }
    destruct (Z.eqb_spec attempt (MaxAttempts config)) as [Heq|Hne].
    { exists (Some e), w1, [EvCall]. trace_simpl.
      repeat split; try reflexivity; try lia. discriminate. }
    unfold logged_wait at 1. simpl fst. simpl snd.
    destruct (wait delay w1) as [[ce|] w2].
    { exists (Some ce), w2, [EvCall; EvWait delay].
      rewrite <- app_assoc. trace_simpl.
      repeat split; try reflexivity; try lia. discriminate. }
    rewrite wrap64_small by (unfold MinInt64, MaxInt64 in *; lia).
    destruct (IH (attempt + 1) (nextDelay config delay) (Some e) w2
                ((tr0 ++ [EvCall]) ++ [EvWait delay]))
      as (r & w' & tr & Hrun & Hc & Hw & Hb & _); [lia | lia |].
    exists r, w', (EvCall :: EvWait delay :: tr).
    rewrite Hrun, <- !app_assoc. trace_simpl.
    repeat split; try reflexivity; try lia; [f_equal; exact Hb | discriminate].
Qed.

End RetryAnyCallback.



Section RetryStops.

Context {W : Type} (wait : Wait W) (fn : Func W) (config : RetryConfig).
Hypothesis Hmax : MaxAttempts config <= MaxInt64.
Hypothesis Hlive : never_cancelled wait.

(** The loop when the [k]-th invocation from here is the first whose
    outcome is final. *)
Lemma retry_loop_stops (k : nat) :
  forall (fuel : nat) (attempt : Z) delay err (w : W) tr,
    (1 <= k)%nat -> (k <= fuel)%nat -> 1 <= attempt ->
    attempt + Z.of_nat k <= MaxAttempts config + 1 ->
    (forall j, (j < k - 1)%nat ->
       is_final config (fst (fn (after_rounds wait fn config delay j w))) = false) ->
    is_final config (fst (fn (after_rounds wait fn config delay (k - 1) w))) = true ->
    retry_loop fuel (logged_wait wait) (logged fn) config attempt delay err (w, tr) =
      Some (fst (fn (after_rounds wait fn config delay (k - 1) w)),
            (snd (fn (after_rounds wait fn config delay (k - 1) w)),
             tr ++ attempts_trace config delay k)).
Proof.
  induction k as [|k IH]; intros fuel attempt delay err w tr Hk Hfuel Ha Hsum Hbefore Hlast;
    [lia|].
  destruct fuel as [|fuel]; [lia|]. cbn [retry_loop].
  destruct (Z.leb_spec attempt (MaxAttempts config)); [|lia]. simpl negb. cbv iota.
  unfold logged at 1. simpl fst. simpl snd.
  destruct k as [|k].
  - (* this invocation is final *)
    cbn [Nat.sub after_rounds] in *.
    destruct (fn w) as [[e|] w1]; simpl in Hlast; cbn [fst snd attempts_trace].
    + apply negb_true_iff in Hlast. rewrite Hlast. simpl negb. cbv iota. reflexivity.
    + reflexivity.
  - pose proof (Hbefore O ltac:(lia)) as H0. simpl in H0.
    destruct (fn w) as [[e|] w1] eqn:Hfn; simpl in H0; [|discriminate].
    apply negb_false_iff in H0. rewrite H0. simpl negb. cbv iota.
    destruct (Z.eqb_spec attempt (MaxAttempts config)); [lia|].
    unfold logged_wait at 1. simpl fst. simpl snd.
    pose proof (Hlive delay w1) as Hw.
    destruct (wait delay w1) as [d w2] eqn:Hwait. simpl in Hw. subst d.
    rewrite wrap64_small by (unfold MinInt64, MaxInt64 in *; lia).
    rewrite (IH fuel (attempt + 1) (nextDelay config delay) (Some e) w2
               ((tr ++ [EvCall]) ++ [EvWait delay])); try lia.
    + replace (S k - 1)%nat with k by lia.
      replace (S (S k) - 1)%nat with (S k) by lia.
      cbn [after_rounds]. rewrite Hfn. simpl snd. rewrite Hwait. simpl snd.
      change (attempts_trace config delay (S (S k)))
        with (EvCall :: EvWait delay :: attempts_trace config (nextDelay config delay) (S k)).
      rewrite <- !app_assoc. reflexivity.
    + intros j Hj. specialize (Hbefore (S j) ltac:(lia)).
      cbn [after_rounds] in Hbefore. rewrite Hfn in Hbefore. simpl snd in Hbefore.
      rewrite Hwait in Hbefore. exact Hbefore.
    + replace (S (S k) - 1)%nat with (S k) in Hlast by lia.
      cbn [after_rounds] in Hlast. rewrite Hfn in Hlast. simpl snd in Hlast.
      rewrite Hwait in Hlast. replace (S k - 1)%nat with k by lia. exact Hlast.
Qed.

End RetryStops.

(** X5.  Let no wait be cut short by the context and let the [k]-th
    invocation, [k <= MaxAttempts], be the first whose outcome is a success
    or an error that is not retryable.  Then [Retry] makes exactly [k]
    invocations with a wait between each two and returns the outcome of
    the [k]-th as it is: [nil] on success, the error itself otherwise. *)
Theorem retry_stops_at_first_final_outcome {W : Type} (wait : Wait W)
    (fn : Func W) (config : RetryConfig) (w : W) (k : nat) :
  MaxAttempts config <= MaxInt64 ->
  never_cancelled wait ->
  (1 <= k)%nat -> Z.of_nat k <= MaxAttempts config ->
  (forall j, (j < k - 1)%nat ->
     is_final config
       (fst (fn (after_rounds wait fn config (InitialDelay config) j w))) = false) ->
  is_final config
    (fst (fn (after_rounds wait fn config (InitialDelay config) (k - 1) w))) = true ->
  Retry (logged_wait wait) (logged fn) config (w, []) =
    Some (fst (fn (after_rounds wait fn config (InitialDelay config) (k - 1) w)),
          (snd (fn (after_rounds wait fn config (InitialDelay config) (k - 1) w)),
           attempts_trace config (InitialDelay config) k)) /\
  count_calls (attempts_trace config (InitialDelay config) k) = k.
Proof.
  intros Hmax Hlive Hk Hle Hbefore Hlast. split.
  - unfold Retry.
    rewrite (retry_loop_stops wait fn config Hmax Hlive k); try assumption; try lia.
    reflexivity.
  - apply count_calls_attempts_trace.
Qed.

Lemma retry_stops_at_first_final_outcome_witness :
  let fn := MoreStubs.recovers_after 1 in
  let wait := Stubs.timer_fires (W := nat) in
  (MaxAttempts DefaultRetryConfig <= MaxInt64 /\ never_cancelled wait /\
   (1 <= 2)%nat /\ Z.of_nat 2 <= MaxAttempts DefaultRetryConfig /\
   (forall j, (j < 2 - 1)%nat ->
      is_final DefaultRetryConfig
        (fst (fn (after_rounds wait fn DefaultRetryConfig
                    (InitialDelay DefaultRetryConfig) j O))) = false) /\
   is_final DefaultRetryConfig
     (fst (fn (after_rounds wait fn DefaultRetryConfig
                 (InitialDelay DefaultRetryConfig) (2 - 1) O))) = true) /\
  Retry (logged_wait wait) (logged fn) DefaultRetryConfig (O, []) =
    Some (None, (2%nat, [EvCall; EvWait (100 * Millisecond); EvCall])) /\
  (Retry (logged_wait wait) (logged fn) DefaultRetryConfig (O, []) =
     Some (fst (fn (after_rounds wait fn DefaultRetryConfig
                      (InitialDelay DefaultRetryConfig) (2 - 1) O)),
           (snd (fn (after_rounds wait fn DefaultRetryConfig
                       (InitialDelay DefaultRetryConfig) (2 - 1) O)),
            attempts_trace DefaultRetryConfig (InitialDelay DefaultRetryConfig) 2)) /\
   count_calls (attempts_trace DefaultRetryConfig
                  (InitialDelay DefaultRetryConfig) 2) = 2%nat).
Proof.
  intros fn wait.
  assert (H1 : MaxAttempts DefaultRetryConfig <= MaxInt64) by (vm_compute; discriminate).
  assert (H2 : never_cancelled wait) by (intros d w; reflexivity).
  assert (H3 : (1 <= 2)%nat) by lia.
  assert (H4 : Z.of_nat 2 <= MaxAttempts DefaultRetryConfig) by (vm_compute; discriminate).
  assert (H5 : forall j, (j < 2 - 1)%nat ->
      is_final DefaultRetryConfig
        (fst (fn (after_rounds wait fn DefaultRetryConfig
                    (InitialDelay DefaultRetryConfig) j O))) = false).
  { intros j Hj. assert (j = O) by lia. subst j. vm_compute. reflexivity. }
  assert (H6 : is_final DefaultRetryConfig
     (fst (fn (after_rounds wait fn DefaultRetryConfig
                 (InitialDelay DefaultRetryConfig) (2 - 1) O))) = true)
    by (vm_compute; reflexivity).
  split; [repeat split; assumption|].
  split; [vm_compute; reflexivity|].
  apply (retry_stops_at_first_final_outcome wait fn DefaultRetryConfig O 2
           H1 H2 H3 H4 H5 H6).
Defined.


(** ** WaitN *)

Import RateLimiterWait.

Lemma Allow_keeps_rate rl now : rate (snd (Allow rl now)) = rate rl.
Proof. unfold Allow. destruct (PrimFloat.leb 1 _); reflexivity. Qed.

(** X7.  [WaitN] sleeps for [time.Second / time.Duration(rl.rate)].  When
    the rate truncates to zero (a rate below one token per second) and a
    token is refused, this integer division has a zero divisor: the call
    panics instead of waiting. *)
Theorem WaitN_panics_when_rate_truncates_to_zero {W : Type} (rt : Runtime W)
    (rl : RateLimiter) (n : Z) (w : W) (fuel : nat) :
  0 < n ->
  ctx_err rt w = None ->
  fst (Allow rl (clock rt w)) = false ->
  int64_of_float (rate rl) = 0 ->
  WaitN (S fuel) rt rl n w =
    Some (Panicked "runtime error: integer divide by zero",
          snd (Allow rl (clock rt w)), w).
Proof.
  intros Hn Hctx Hno Hrate. cbn [WaitN].
  destruct (Z.ltb_spec 0 n); [|lia]. simpl negb. cbv iota.
  rewrite Hctx. pose proof (Allow_keeps_rate rl (clock rt w)) as Hr.
  destruct (Allow rl (clock rt w)) as [ok rl1]. simpl in *. subst ok.
  rewrite Hr, Hrate. reflexivity.
Qed.

Lemma WaitN_panics_when_rate_truncates_to_zero_witness :
  let rl := NewRateLimiter (PrimFloat.div 1 2) 0 7 in
  let rt := MoreStubs.still_runtime 7 in
  (0 < 1 /\ ctx_err rt tt = None /\ fst (Allow rl (clock rt tt)) = false /\
   int64_of_float (rate rl) = 0) /\
  WaitN 1 rt rl 1 tt =
    Some (Panicked "runtime error: integer divide by zero",
          snd (Allow rl (clock rt tt)), tt).
Proof.
  intros rl rt.
  assert (H1 : 0 < 1) by lia.
  assert (H2 : ctx_err rt tt = None) by reflexivity.
  assert (H3 : fst (Allow rl (clock rt tt)) = false) by (vm_compute; reflexivity).
  assert (H4 : int64_of_float (rate rl) = 0) by (vm_compute; reflexivity).
  split; [auto|].
  apply (WaitN_panics_when_rate_truncates_to_zero rt rl 1 tt O H1 H2 H3 H4).
Defined.

(** ** State store: values, the server, quiet watches *)

Import StoreMoreSpec Server.

Lemma last_write_snoc {V : Type} key calls (c : string * V * Time) :
  last_write key (calls ++ [c]) =
    if decide (c.1.1 = key) then Some (c.1.2, c.2) else last_write key calls.
Proof. unfold last_write. rewrite foldl_app. reflexivity. Qed.


(** The version of a key after any sequence of [Set] calls from the empty
    store. *)
Lemma apply_sets_version {V : Type} (calls : list (string * V * Time)) (key : string) :
  Z.of_nat (writes_to key calls) <= MaxInt64 ->
  Version <$> Get (apply_sets NewStateStore calls) key =
    if decide (writes_to key calls = 0%nat) then None
    else Some (Z.of_nat (writes_to key calls)).
Proof.
  induction calls as [|c calls IH] using rev_ind; intros Hn; [reflexivity|].
  rewrite apply_sets_snoc, Version_after_Set.
  rewrite writes_to_snoc in Hn |- *.
  destruct (decide (c.1.1 = key)) as [Hk|Hk].
  - rewrite IH by lia.
    destruct (decide (writes_to key calls = 0%nat)) as [H0|H0].
    + rewrite H0. reflexivity.
    + rewrite decide_False by lia. f_equal.
      rewrite wrap64_small; unfold MinInt64, MaxInt64 in *; lia.
  - rewrite IH by lia. reflexivity.
Qed.

Lemma writes_to_take_le {V : Type} key (calls : list (string * V * Time)) i :
  (writes_to key (take i calls) <= writes_to key calls)%nat.
Proof.
  rewrite <- (take_drop i calls) at 2. unfold writes_to.
  rewrite filter_app, length_app. lia.
Qed.

(** The responses of the server are read off the store after each request. *)
Lemma SyncState_all_responses {V : Type} (requests : list (string * V * Time)) :
  forall (ss : StateStore V) (done : list (string * V * Time)),
    ss = apply_sets NewStateStore done ->
    snd (SyncState_all ss requests) = apply_sets NewStateStore (done ++ requests) /\
    forall i r, requests !! i = Some r ->
      fst (SyncState_all ss requests) !! i =
        Some ({| Success := true; ErrorText := "";
                 SyncVersion :=
                   default 0 (Version <$>
                     Get (apply_sets NewStateStore (done ++ take (S i) requests))
                         r.1.1) |},
              None).
Proof.
  induction requests as [|r requests IH]; intros ss done Hss.
  - simpl. rewrite app_nil_r. split; [assumption|]. intros i r H. discriminate.
  - cbn [SyncState_all]. unfold SyncState. cbv beta zeta.
    remember (StateStore_Set ss r.1.1 r.1.2 r.2) as ss1 eqn:Hdef.
    assert (Hss1 : ss1 = apply_sets NewStateStore (done ++ [r])).
    { rewrite apply_sets_snoc, <- Hss. exact Hdef. }
    destruct (IH ss1 (done ++ [r]) Hss1) as [Hfinal Hresp].
    destruct (SyncState_all ss1 requests) as [resps ss2]. cbn [fst snd] in *.
    rewrite <- app_assoc in Hfinal. split; [exact Hfinal|].
    intros [|i] r' Hr'.
    + injection Hr' as <-. cbn [lookup list_lookup take]. rewrite take_0.
      change (r :: []) with [r]. rewrite <- Hss1.
      destruct (Get ss1 r.1.1); reflexivity.
    + change ((r :: requests) !! S i) with (requests !! i) in Hr'.
      change ((?x :: resps) !! S i) with (resps !! i).
      rewrite (Hresp i r' Hr'). rewrite <- app_assoc. reflexivity.
Qed.



Lemma Get_Set_other {V : Type} (ss : StateStore V) k (v : V) now key :
  k <> key -> Get (StateStore_Set ss k v now) key = Get ss key.
Proof. intros Hk. unfold Get, StateStore_Set. apply lookup_insert_ne. exact Hk. Qed.

Lemma watch_run_quiet {V : Type} (ss : StateStore V) (key : string) (ops : list (op V)) :
  Forall (leaves_alone key) ops ->
  Get (fst (watch_run ss key ops)) key = Get ss key /\
  snd (watch_run ss key ops) =
    match Get ss key with
    | Some e =>
        if existsb is_tick ops && (-1 <? Version e)
        then {| lastVersion := Version e; updates := [e; e] |}
        else Watch ss key
    | None => Watch ss key
    end.
Proof.
  induction ops as [|o ops IH] using rev_ind; intros Hq.
  - simpl. split; [reflexivity|]. destruct (Get ss key); reflexivity.
  - apply Forall_app in Hq as [Hq Ho]. inversion Ho as [|? ? Ho' _]; subst.
    destruct (IH Hq) as [Hget Hw]. rewrite watch_run_snoc, existsb_app.
    destruct (watch_run ss key ops) as [ss1 wt]. simpl in Hget, Hw.
    destruct o as [k v now|]; simpl in *.
    + rewrite orb_false_r. split; [|exact Hw].
      rewrite Get_Set_other by assumption. exact Hget.
    + rewrite orb_true_r. split; [exact Hget|].
      unfold Watch_tick. rewrite Hget. subst wt.
      destruct (Get ss key) as [e|] eqn:He; [|reflexivity].
      destruct (existsb is_tick ops); simpl.
      * destruct (Z.ltb_spec (-1) (Version e)); simpl.
        -- destruct (Z.ltb_spec (Version e) (Version e)); [lia | reflexivity].
        -- unfold Watch. rewrite He. simpl.
           destruct (Z.ltb_spec (-1) (Version e)); [lia | reflexivity].
      * unfold Watch. rewrite He. simpl.
        destruct (Z.ltb_spec (-1) (Version e)); reflexivity.
Qed.



(** ** Events and messages *)

Import Messaging MessagingSpec.

Lemma omap_nil_iff {A B : Type} (f : A -> option B) (l : list A) :
  omap f l = [] <-> Forall (fun x => f x = None) l.
Proof.
  induction l as [|x l IH]; simpl.
  - split; [constructor | reflexivity].
  - destruct (f x) eqn:Hx; simpl.
    + split; [discriminate|]. intros H. inversion H; congruence.
    + rewrite IH. split; [constructor; assumption|].
      intros H. inversion H; assumption.
Qed.

Lemma handle_logged_step {P W : Type} (handlers : list (EventHandler P W))
    (event : Event P) (i : nat) (h : EventHandler P W) (r : option error)
    errs (w : W) log :
  handlers !! i = Some h -> fst (h event w) = r ->
  handle (imap logged_handler handlers) event (errs, (w, log)) i =
    (match r with Some err => errs ++ [err] | None => errs end,
     (snd (h event w), log ++ [i])).
Proof.
  intros Hh Hr. unfold handle. rewrite list_lookup_imap, Hh. simpl.
  unfold logged_handler. simpl.
  destruct (h event w) as [r' w1]. simpl in *. subst r'. reflexivity.
Qed.

Lemma handle_logged {P W : Type} (handlers : list (EventHandler P W))
    (results : list (option error)) (event : Event P) :
  Forall2 (answers event) handlers results ->
  forall (schedule : list nat) errs (w : W) log,
    Forall (fun i => (i < length handlers)%nat) schedule ->
    exists w',
      foldl (handle (imap logged_handler handlers) event) (errs, (w, log)) schedule
      = (errs ++ reported results schedule, (w', log ++ schedule)).
Proof.
  intros Hans. induction schedule as [|i schedule IH]; intros errs w log Hin.
  - exists w. simpl. unfold reported. simpl. rewrite !app_nil_r. reflexivity.
  - inversion Hin as [|? ? Hi Hrest]; subst. cbn [foldl].
    destruct (lookup_lt_is_Some_2 handlers i Hi) as [h Hh].
    destruct (Forall2_lookup_l _ _ _ _ _ Hans Hh) as (r & Hr & Hhr).
    rewrite (handle_logged_step handlers event i h r errs w log Hh (Hhr w)).
    destruct (IH (match r with Some err => errs ++ [err] | None => errs end)
                (snd (h event w)) (log ++ [i]) Hrest) as [w' Hrun].
    exists w'. rewrite Hrun. unfold reported. cbn [omap list_omap]. rewrite Hr.
    destruct r; simpl; rewrite <- ?app_assoc; reflexivity.
Qed.



Lemma publish_loop_outcome {P : Type} (ctx_at : nat -> option error)
    (pick_done : nat -> bool) (msg : Message P) (chans : list (list (Message P))) :
  forall i,
    Forall2 (fun q q' => q' = q \/ q' = deliver msg q) chans
            (snd (publish_loop ctx_at pick_done i msg chans)) /\
    (fst (publish_loop ctx_at pick_done i msg chans) = None ->
     snd (publish_loop ctx_at pick_done i msg chans) = deliver msg <$> chans) /\
    (forall e, fst (publish_loop ctx_at pick_done i msg chans) = Some e ->
               exists j, ctx_at j = Some e).
Proof.
  induction chans as [|ch chans IH]; intros i.
  - simpl. repeat split; [constructor | discriminate].
  - cbn [publish_loop]. destruct (IH (S i)) as (Hall & Hnone & Hsome).
    destruct (publish_loop ctx_at pick_done (S i) msg chans) as [r rest'].
    simpl in Hall, Hnone, Hsome. unfold deliver at 1 2.
    destruct (ctx_at i) as [err|] eqn:Hctx.
    + destruct (Nat.ltb (length ch) chan_cap) eqn:Hroom; simpl.
      * destruct (pick_done i); simpl.
        -- split; [|split; [discriminate|]].
           ++ constructor; [left; reflexivity|].
              apply Forall2_same_length_lookup_2; [reflexivity|].
              intros j q q' Hq Hq'. left. congruence.
           ++ intros e [= <-]. eauto.
        -- split; [|split].
           ++ constructor; [|exact Hall]. right. unfold deliver.
              rewrite Hroom. reflexivity.
           ++ intros Hr. rewrite (Hnone Hr). unfold deliver at 1.
              rewrite Hroom. reflexivity.
           ++ exact Hsome.
      * split; [|split; [discriminate|]].
        -- constructor; [left; reflexivity|].
           apply Forall2_same_length_lookup_2; [reflexivity|].
           intros j q q' Hq Hq'. left. congruence.
        -- intros e [= <-]. eauto.
    + simpl. split; [|split].
      * constructor; [|exact Hall]. right. reflexivity.
      * intros Hr. rewrite (Hnone Hr). reflexivity.
      * exact Hsome.
Qed.

Lemma deliver_length {P : Type} (msg : Message P) (q : list (Message P)) :
  (length q <= chan_cap)%nat -> (length (deliver msg q) <= chan_cap)%nat.
Proof.
  intros Hq. unfold deliver.
  destruct (Nat.ltb_spec (length q) chan_cap); [|assumption].
  rewrite length_app. simpl. lia.
Qed.

(** X12.  Whatever the context does and whatever the runtime chooses,
    [Publish] touches only the channels of its topic; each of them is left
    as it was or has received the message once, at its end, and only if it
    had room; no channel grows beyond its capacity.  When the call returns
    [nil], every subscriber with room has received the message and every
    full one has missed it; when it returns an error, that error is the
    context's. *)
Theorem Publish_delivers_at_most_once {P : Type} (ctx_at : nat -> option error)
    (pick_done : nat -> bool) (mb : MessageBus P) (topic : string)
    (msg : Message P) (subscribers : list (list (Message P))) :
  mb !! topic = Some subscribers ->
  exists subscribers',
    snd (Publish ctx_at pick_done mb topic msg) = <[topic := subscribers']> mb /\
    Forall2 (fun q q' => q' = q \/ q' = deliver msg q) subscribers subscribers' /\
    (Forall (fun q => (length q <= chan_cap)%nat) subscribers ->
     Forall (fun q => (length q <= chan_cap)%nat) subscribers') /\
    (fst (Publish ctx_at pick_done mb topic msg) = None ->
     subscribers' = deliver msg <$> subscribers) /\
    (forall e, fst (Publish ctx_at pick_done mb topic msg) = Some e ->
               exists j, ctx_at j = Some e).
Proof.
  intros Hsubs. unfold Publish. rewrite Hsubs.
  destruct (publish_loop_outcome ctx_at pick_done msg subscribers 0)
    as (Hall & Hnone & Hsome).
  destruct (publish_loop ctx_at pick_done 0 msg subscribers) as [r subs'].
  simpl in *. exists subs'. split; [reflexivity|]. split; [exact Hall|].
  split; [|split; assumption].
  intros Hcap. apply Forall_forall. intros q' Hq'.
  apply list_elem_of_lookup in Hq' as [j Hj].
  destruct (Forall2_lookup_r _ _ _ _ _ Hall Hj) as (q & Hq & Hrel).
  assert (Hqcap : (length q <= chan_cap)%nat).
  { rewrite Forall_forall in Hcap. apply Hcap. apply list_elem_of_lookup. eauto. }
  destruct Hrel as [-> | ->]; [assumption | apply deliver_length; assumption].
Qed.

Lemma Publish_delivers_at_most_once_witness :
  let full := replicate 100 (MessagingStubs.note "old") in
  let mb : MessageBus string := {["news" := [[]; full]]} in
  let msg := MessagingStubs.note "hello" in
  mb !! "news" = Some [[]; full] /\
  Publish MessagingStubs.live_ctx MessagingStubs.prefer_send mb "news" msg =
    (None, {["news" := [[msg]; full]]}) /\
  exists subscribers',
    snd (Publish MessagingStubs.live_ctx MessagingStubs.prefer_send mb "news" msg)
      = <["news" := subscribers']> mb /\
    Forall2 (fun q q' => q' = q \/ q' = deliver msg q) [[]; full] subscribers' /\
    (Forall (fun q => (length q <= chan_cap)%nat) [[]; full] ->
     Forall (fun q => (length q <= chan_cap)%nat) subscribers') /\
    (fst (Publish MessagingStubs.live_ctx MessagingStubs.prefer_send mb "news" msg)
       = None ->
     subscribers' = deliver msg <$> [[]; full]) /\
    (forall e,
        fst (Publish MessagingStubs.live_ctx MessagingStubs.prefer_send mb "news" msg)
          = Some e ->
        exists j, MessagingStubs.live_ctx j = Some e).
Proof.
  intros full mb msg.
  assert (H : mb !! "news" = Some [[]; full]) by (vm_compute; reflexivity).
  split; [exact H|]. split.
  - unfold Publish. rewrite H. simpl. unfold mb.
    rewrite insert_singleton_eq. reflexivity.
  - apply (Publish_delivers_at_most_once MessagingStubs.live_ctx
             MessagingStubs.prefer_send mb "news" msg [[]; full] H).
Defined.

Lemma publish_loop_live {P : Type} (pick_done : nat -> bool) (msg : Message P)
    (chans : list (list (Message P))) :
  forall i,
    publish_loop MessagingStubs.live_ctx pick_done i msg chans
    = (None, deliver msg <$> chans).
Proof.
  induction chans as [|ch chans IH]; intros i; [reflexivity|].
  cbn [publish_loop]. unfold MessagingStubs.live_ctx at 1. rewrite IH. reflexivity.
Qed.

Lemma deliver_all_room {P : Type} (msgs : list (Message P)) :
  forall q : list (Message P),
    (length q + length msgs <= chan_cap)%nat ->
    foldl (fun ch m => deliver m ch) q msgs = q ++ msgs.
Proof.
  induction msgs as [|m msgs IH]; intros q Hlen; simpl.
  - rewrite app_nil_r. reflexivity.
  - simpl in Hlen. unfold deliver at 2.
    destruct (Nat.ltb_spec (length q) chan_cap); [|lia].
    rewrite IH by (rewrite length_app; simpl; lia).
    rewrite <- app_assoc. reflexivity.
Qed.

Lemma Publish_all_lookup {P : Type} (topic : string) (msgs : list (Message P)) :
  forall (mb : MessageBus P) (subs : list (list (Message P))) (i : nat) q,
    mb !! topic = Some subs -> subs !! i = Some q ->
    exists subs',
      MessagingStubs.Publish_all mb topic msgs !! topic = Some subs' /\
      subs' !! i = Some (foldl (fun ch m => deliver m ch) q msgs).
Proof.
  induction msgs as [|m msgs IH]; intros mb subs i q Hsubs Hq.
  - exists subs. split; assumption.
  - unfold MessagingStubs.Publish_all. cbn [foldl].
    unfold Publish at 2. rewrite Hsubs, publish_loop_live. cbn [snd].
    apply (IH _ (deliver m <$> subs) i (deliver m q)).
    + apply lookup_insert_eq.
    + rewrite list_lookup_fmap, Hq. reflexivity.
Qed.

(** X13.  A subscriber's channel starts empty, whatever was published
    before, and under a live context it then receives the messages
    published on its topic in the order of publication, up to its capacity
    of 100: after [Subscribe] and any publications that fit, the channel
    holds exactly these messages in order. *)
Theorem Subscribe_then_Publish_in_order {P : Type} (mb : MessageBus P)
    (topic : string) (msgs : list (Message P)) :
  (length msgs <= chan_cap)%nat ->
  exists subscribers,
    MessagingStubs.Publish_all (snd (Subscribe mb topic)) topic msgs !! topic
      = Some subscribers /\
    subscribers !! fst (Subscribe mb topic) = Some msgs.
Proof.
  intros Hlen. unfold Subscribe. cbn [fst snd].
  set (subs := default [] (mb !! topic)).
  destruct (Publish_all_lookup topic msgs (<[topic := subs ++ [[]]]> mb)
              (subs ++ [[]]) (length subs) [])
    as (subs' & Hlook & Hi).
  - apply lookup_insert_eq.
  - rewrite lookup_app_r by lia. rewrite Nat.sub_diag. reflexivity.
  - exists subs'. split; [exact Hlook|].
    rewrite Hi, deliver_all_room by (simpl; lia). reflexivity.
Qed.

Lemma Subscribe_then_Publish_in_order_witness :
  let mb : MessageBus string := {["news" := [[MessagingStubs.note "earlier"]]]} in
  let msgs := [MessagingStubs.note "one"; MessagingStubs.note "two"] in
  (length msgs <= chan_cap)%nat /\
  exists subscribers,
    MessagingStubs.Publish_all (snd (Subscribe mb "news")) "news" msgs !! "news"
      = Some subscribers /\
    subscribers !! fst (Subscribe mb "news") = Some msgs.
Proof.
  intros mb msgs.
  assert (H : (length msgs <= chan_cap)%nat) by (vm_compute; lia).
  split; [exact H|].
  apply (Subscribe_then_Publish_in_order mb "news" msgs H).
Defined.

(** ** The registry of nodes *)

Import Registry RegistrySpec.

Lemma RegisterNode_all_snoc {W : Type} (c : Cluster W) ns (node : Node W) (w : W) :
  RegisterNode_all c (ns ++ [node]) w =
    (let '(_, c1, w1) :=
       RegisterNode (fst (RegisterNode_all c ns w)) node
                    (snd (RegisterNode_all c ns w)) in (c1, w1)).
Proof. unfold RegisterNode_all. rewrite foldl_app. reflexivity. Qed.

Lemma RegisterNode_nodes {W : Type} (c : Cluster W) (node : Node W) (w : W) :
  nodes (snd (fst (RegisterNode c node w))) =
    match nodes c !! ID (config node) with
    | Some _ => nodes c
    | None => <[ID (config node) := node]> (nodes c)
    end.
Proof.
  unfold RegisterNode. destruct (nodes c !! ID (config node)); [reflexivity|].
  destruct (PublishEvent _ _ _ _ _). reflexivity.
Qed.

Lemma first_with_id_snoc {W : Type} id (ns : list (Node W)) node :
  first_with_id id (ns ++ [node]) =
    match first_with_id id ns with
    | Some n => Some n
    | None => if decide (ID (config node) = id) then Some node else None
    end.
Proof.
  unfold first_with_id. rewrite filter_app.
  destruct (filter _ ns) as [|n l]; simpl.
  - rewrite filter_cons, filter_nil. case_decide; reflexivity.
  - reflexivity.
Qed.

Lemma RegisterNode_all_lookup {W : Type} (c : Cluster W) (ns : list (Node W))
    (w : W) (id : string) :
  nodes (fst (RegisterNode_all c ns w)) !! id =
    match nodes c !! id with
    | Some n => Some n
    | None => first_with_id id ns
    end.
Proof.
  induction ns as [|node ns IH] using rev_ind.
  - simpl. destruct (nodes c !! id); reflexivity.
  - rewrite RegisterNode_all_snoc, first_with_id_snoc.
    pose proof (RegisterNode_nodes (fst (RegisterNode_all c ns w)) node
                  (snd (RegisterNode_all c ns w))) as Hn.
    destruct (RegisterNode _ node _) as [[err c1] w1]. simpl in *. rewrite Hn.
    clear Hn.
    destruct (nodes (fst (RegisterNode_all c ns w)) !! ID (config node))
      as [held|] eqn:Hheld.
    + rewrite IH. destruct (nodes c !! id); [reflexivity|].
      destruct (first_with_id id ns) eqn:Hf; [reflexivity|].
      case_decide as Hid; [|reflexivity].
      subst id. rewrite IH in Hheld. congruence.
    + destruct (decide (ID (config node) = id)) as [Hid|Hid].
      * subst id. rewrite lookup_insert_eq. rewrite IH in Hheld.
        destruct (nodes c !! ID (config node)); [discriminate|].
        rewrite Hheld. reflexivity.
      * rewrite lookup_insert_ne by assumption. rewrite IH.
        destruct (nodes c !! id); [reflexivity|].
        destruct (first_with_id id ns); reflexivity.
Qed.

(** X14.  Register any sequence of nodes with a cluster.  Afterwards
    [GetNode id] returns the node the cluster already held under the id,
    else the first node of the sequence that carries it (a later
    registration under a taken id never replaces it), and fails with
    "node not found" when neither exists.  Whether the registration events
    could be published plays no part. *)
Theorem GetNode_returns_first_registered {W : Type} (c : Cluster W)
    (ns : list (Node W)) (w : W) (id : string) :
  GetNode (fst (RegisterNode_all c ns w)) id =
    match nodes c !! id with
    | Some n => inl n
    | None =>
        match first_with_id id ns with
        | Some n => inl n
        | None => inr (ErrorString ("node not found: " +:+ id))
        end
    end.
Proof.
  unfold GetNode. rewrite RegisterNode_all_lookup.
  destruct (nodes c !! id); [reflexivity|].
  destruct (first_with_id id ns); reflexivity.
Qed.

(** X15.  [RegisterNode] under an id the cluster already holds fails with
    "node already registered", publishes nothing and leaves the cluster as
    it is.  Under a free id the node is stored, and what the call returns
    is the outcome of publishing the event: when publishing fails the call
    reports an error although the node is registered. *)
Theorem RegisterNode_outcomes {W : Type} (c : Cluster W) (node : Node W) (w : W) :
  match nodes c !! ID (config node) with
  | Some _ =>
      RegisterNode c node w =
        (Some (ErrorString ("node already registered: " +:+ ID (config node))), c, w)
  | None =>
      GetNode (snd (fst (RegisterNode c node w))) (ID (config node)) = inl node /\
      (forall id, id <> ID (config node) ->
         GetNode (snd (fst (RegisterNode c node w))) id = GetNode c id) /\
      fst (fst (RegisterNode c node w)) =
        fst (PublishEvent (cluster_client c) "node_registered"
               ("Node " +:+ ID (config node) +:+ " registered with cluster")
               [("node_id", ID (config node)); ("address", Address (config node))] w)
  end.
Proof.
  pose proof (RegisterNode_nodes c node w) as Hn.
  unfold RegisterNode in *.
  destruct (nodes c !! ID (config node)) as [old|] eqn:Hold; [reflexivity|].
  destruct (PublishEvent _ _ _ _ _) as [err w1]. simpl in *.
  unfold GetNode. simpl. split; [rewrite lookup_insert_eq; reflexivity|].
  split; [|reflexivity].
  intros id Hid. rewrite lookup_insert_ne by congruence. reflexivity.
Qed.

(** ** Health of nodes *)

Import HeartbeatSpec.

Lemma GetHealthyNodes_filter {W : Type} (visited : list (Node W)) :
  GetHealthyNodes visited = filter (fun n => status n = StatusHealthy) visited.
Proof.
  unfold GetHealthyNodes.
  induction visited as [|node visited IH] using rev_ind; [reflexivity|].
  rewrite foldl_app, filter_app. simpl. rewrite IH.
  rewrite filter_cons, filter_nil.
  case_bool_decide; case_decide; try contradiction;
    [reflexivity | rewrite app_nil_r; reflexivity].
Qed.

Lemma consider_foldl_healthy {W : Type} req (visited : list (Node W)) :
  match fst (foldl (consider req) (None, 1%float) visited) with
  | Some n =>
      n ∈ visited /\ status n = StatusHealthy /\
      nodeMatchesRequirements n req = true
  | None => True
  end.
Proof.
  induction visited as [|node visited IH] using rev_ind; [exact I|].
  rewrite foldl_app. simpl.
  set (best := foldl (consider req) (None, 1%float) visited) in *.
  assert (Hkeep : match fst best with
                  | Some n =>
                      n ∈ visited ++ [node] /\ status n = StatusHealthy /\
                      nodeMatchesRequirements n req = true
                  | None => True
                  end).
  { destruct (fst best); [|exact I].
    destruct IH as (Hin & Hs & Hm). split; [|split; assumption].
    apply elem_of_app. left. exact Hin. }
  unfold consider.
  case_bool_decide as Hst; simpl; [|exact Hkeep].
  destruct (nodeMatchesRequirements node req) eqn:Hm; simpl; [|exact Hkeep].
  destruct (PrimFloat.ltb (loadFactor node) (snd best)); simpl; [|exact Hkeep].
  split; [|split; assumption].
  apply elem_of_app. right. apply list_elem_of_singleton. reflexivity.
Qed.

Lemma findSuitableNode_healthy {W : Type} (visited : list (Node W)) req n :
  findSuitableNode visited req = Some n ->
  n ∈ visited /\ status n = StatusHealthy /\ nodeMatchesRequirements n req = true.
Proof.
  unfold findSuitableNode. intros H.
  pose proof (consider_foldl_healthy req visited) as Hinv.
  rewrite H in Hinv. exact Hinv.
Qed.

(** X16.  Whatever the order of the walk and whatever the loads and
    capacities of the nodes, the node [findSuitableNode] returns is one of
    those [GetHealthyNodes] lists for the same walk, and it passes
    [nodeMatchesRequirements]: a node that is Unknown, Overloaded or
    Unhealthy is never selected. *)
Theorem findSuitableNode_among_healthy {W : Type} (visited : list (Node W))
    (req : Types.TaskRequirements) (n : Node W) :
  findSuitableNode visited req = Some n ->
  n ∈ GetHealthyNodes visited /\
  status n = StatusHealthy /\
  nodeMatchesRequirements n req = true.
Proof.
  intros H. apply findSuitableNode_healthy in H as (Hin & Hs & Hm).
  split; [|split; assumption].
  rewrite GetHealthyNodes_filter. apply list_elem_of_filter. split; assumption.
Qed.

Lemma findSuitableNode_among_healthy_witness :
  let a : Agent unit := Stubs.tagging "worker" in
  let idle := Stubs.node_with "A" [] {["worker" := a]} 0 StatusOverloaded in
  let busy := Stubs.node_with "B" [] {["worker" := a]} 70 StatusHealthy in
  let req := Stubs.requiring "worker" [] in
  findSuitableNode [idle; busy] req = Some busy /\
  busy ∈ GetHealthyNodes [idle; busy] /\
  status busy = StatusHealthy /\
  nodeMatchesRequirements busy req = true.
Proof.
  intros a idle busy req.
  assert (H : findSuitableNode [idle; busy] req = Some busy)
    by (vm_compute; reflexivity).
  split; [exact H|].
  exact (findSuitableNode_among_healthy [idle; busy] req busy H).
Defined.

Lemma Since_mono (a b u : Time) : a <= b -> Since a u <= Since b u.
Proof. unfold Since, Sub, sat64. lia. Qed.

Lemma set_status_same {W : Type} (n : Node W) : set_status n (status n) = n.
Proof. destruct n. reflexivity. Qed.

Lemma tick_outcome_idle {W : Type} (c : Cluster W) lo hi id0 :
  (forall n, nodes c !! id0 = Some n -> ~ timed_out c lo n) ->
  tick_outcome c lo hi [id0] c.
Proof.
  intros Hfresh. split; [reflexivity|]. intros id.
  destruct (nodes c !! id) as [n|] eqn:Hn; [|reflexivity].
  exists (status n). rewrite set_status_same.
  split; [reflexivity|]. split; [left; reflexivity|].
  split; [|reflexivity].
  intros Hin Hto. apply list_elem_of_singleton in Hin. subst id.
  exfalso. exact (Hfresh n Hn Hto).
Qed.

Lemma check_heartbeat_outcome {W : Type} (clock : W -> Time) (c : Cluster W)
    (w : W) lo hi id0 :
  lo <= clock w <= hi ->
  tick_outcome c lo hi [id0] (fst (check_heartbeat clock (c, w) id0)).
Proof.
  intros Hclock. unfold check_heartbeat. simpl.
  destruct (nodes c !! id0) as [node|] eqn:Hnode.
  - destruct (Z.ltb_spec (NodeTimeout (cluster_config c))
                         (Since (clock w) (lastPing node))) as [Hlate|Hfresh].
    + destruct (PublishEvent _ _ _ _ _) as [err w1]. simpl.
      split; [reflexivity|]. intros id.
      destruct (decide (id = id0)) as [-> | Hid].
      * rewrite Hnode. simpl. rewrite lookup_insert_eq.
        exists StatusUnhealthy. split; [reflexivity|].
        split; [right; reflexivity|]. split; [reflexivity|].
        intros Hnot. exfalso. apply Hnot. unfold timed_out.
        pose proof (Since_mono (clock w) hi (lastPing node)). lia.
      * simpl. rewrite lookup_insert_ne by congruence.
        destruct (nodes c !! id) as [n|]; [|reflexivity].
        exists (status n). rewrite set_status_same.
        split; [reflexivity|]. split; [left; reflexivity|].
        split; [|reflexivity].
        intros Hin. apply list_elem_of_singleton in Hin. contradiction.
    + simpl. apply tick_outcome_idle. intros n Hn Hto.
      assert (n = node) by congruence. subst n. unfold timed_out in Hto.
      pose proof (Since_mono lo (clock w) (lastPing node)). lia.
  - simpl. apply tick_outcome_idle. intros n Hn. congruence.
Qed.

Lemma tick_outcome_cons {W : Type} (c c1 c' : Cluster W) lo hi id0 rest :
  tick_outcome c lo hi [id0] c1 -> tick_outcome c1 lo hi rest c' ->
  tick_outcome c lo hi (id0 :: rest) c'.
Proof.
  intros [Hc1 H1] [Hc2 H2]. split; [congruence|].
  intros id. specialize (H1 id). specialize (H2 id).
  destruct (nodes c !! id) as [n|].
  - destruct H1 as (s1 & Hl1 & Hs1 & Ht1 & Hk1). rewrite Hl1 in H2.
    destruct H2 as (s2 & Hl2 & Hs2 & Ht2 & Hk2).
    unfold timed_out in *. simpl in *. rewrite Hc1 in *.
    exists s2. split; [exact Hl2|]. split.
    { destruct Hs2 as [-> | ->]; [exact Hs1 | right; reflexivity]. }
    split.
    + intros Hin Hto. apply elem_of_cons in Hin as [-> | Hin].
      * assert (s1 = StatusUnhealthy)
          by (apply Ht1; [apply list_elem_of_singleton; reflexivity | exact Hto]).
        destruct Hs2; congruence.
      * apply Ht2; assumption.
    + intros Hnot. rewrite (Hk2 Hnot). exact (Hk1 Hnot).
  - rewrite H1 in H2. exact H2.
Qed.

Lemma heartbeat_tick_outcome {W : Type} (clock : W -> Time) lo hi
    (visited : list string) :
  (forall w, lo <= clock w <= hi) ->
  forall (c : Cluster W) (w : W),
    tick_outcome c lo hi visited (fst (heartbeat_tick clock c visited w)).
Proof.
  intros Hclock. induction visited as [|id0 rest IH]; intros c w.
  - unfold heartbeat_tick. simpl. split; [reflexivity|]. intros id.
    destruct (nodes c !! id) as [n|]; [|reflexivity].
    exists (status n). rewrite set_status_same.
    split; [reflexivity|]. split; [left; reflexivity|].
    split; [|reflexivity].
    intros Hin. apply elem_of_nil in Hin. contradiction.
  - unfold heartbeat_tick. simpl.
    pose proof (check_heartbeat_outcome clock c w lo hi id0 (Hclock w)) as Hstep.
    destruct (check_heartbeat clock (c, w) id0) as [c1 w1]. simpl in Hstep.
    apply (tick_outcome_cons c c1 _ lo hi id0 rest Hstep).
    exact (IH c1 w1).
Qed.

(** X17.  One firing of the heartbeat monitor, its clock reading between
    [lo] and [hi] throughout.  Every node stays in the cluster under its
    id, with every field but the status as it was; the status is the old
    one or Unhealthy; a visited node whose last ping was older than
    NodeTimeout already at [lo] is Unhealthy afterwards; a node whose last
    ping is within NodeTimeout even at [hi] keeps its status.  So the
    monitor never makes a node Healthy again. *)
Theorem heartbeat_tick_marks_timed_out {W : Type} (clock : W -> Time)
    (c : Cluster W) (visited : list string) (w : W) (lo hi : Time) :
  (forall w, lo <= clock w <= hi) ->
  tick_outcome c lo hi visited (fst (heartbeat_tick clock c visited w)).
Proof. intros Hclock. apply heartbeat_tick_outcome. exact Hclock. Qed.

Lemma heartbeat_tick_marks_timed_out_witness :
  let stale : Node unit := Stubs.node_with "A" [] ∅ 0 StatusHealthy in
  let c := Stubs.cluster_of [stale] in
  let clock : unit -> Time := fun _ => 2 * Second in
  (forall w, 2 * Second <= clock w <= 2 * Second) /\
  nodes (fst (heartbeat_tick clock c ["A"] tt)) !! "A" =
    Some (set_status stale StatusUnhealthy) /\
  tick_outcome c (2 * Second) (2 * Second) ["A"]
    (fst (heartbeat_tick clock c ["A"] tt)).
Proof.
  intros stale c clock.
  assert (Hclock : forall w, 2 * Second <= clock w <= 2 * Second)
    by (intros w; unfold clock; lia).
  split; [exact Hclock|]. split; [vm_compute; reflexivity|].
  exact (heartbeat_tick_marks_timed_out clock c ["A"] tt _ _ Hclock).
Defined.

(** X18.  After a firing of the monitor that walked every id of the
    cluster, the scheduler never selects a node whose last ping had
    already timed out when the monitor fired, however lightly loaded the
    node is. *)
Theorem timed_out_node_not_scheduled {W : Type} (clock : W -> Time)
    (c : Cluster W) (ids : list string) (w : W) (lo hi : Time)
    (visited : list (Node W)) (req : Types.TaskRequirements) (m : Node W) :
  (forall w, lo <= clock w <= hi) ->
  (forall id, is_Some (nodes c !! id) -> id ∈ ids) ->
  (forall n, n ∈ visited ->
     exists id, nodes (fst (heartbeat_tick clock c ids w)) !! id = Some n) ->
  findSuitableNode visited req = Some m ->
  ~ timed_out c lo m.
Proof.
  intros Hclock Hids Hvisited Hfound Hto.
  apply findSuitableNode_healthy in Hfound as (Hin & Hs & _).
  destruct (Hvisited m Hin) as [id Hid].
  destruct (heartbeat_tick_outcome clock lo hi ids Hclock c w) as [_ Hout].
  specialize (Hout id). destruct (nodes c !! id) as [n|] eqn:Hn.
  - destruct Hout as (s & Hl & _ & Hmark & _).
    rewrite Hid in Hl. injection Hl as ->.
    assert (s = StatusUnhealthy) as ->.
    { apply Hmark; [apply Hids; eauto | exact Hto]. }
    discriminate Hs.
  - congruence.
Qed.

Lemma timed_out_node_not_scheduled_witness :
  let a : Agent unit := Stubs.tagging "worker" in
  let stale : Node unit := Stubs.node_with "A" [] {["worker" := a]} 0 StatusHealthy in
  let fresh : Node unit :=
    UpdateStatus (Stubs.node_with "B" [] {["worker" := a]} 70 StatusHealthy)
                 (2 * Second) in
  let c := Stubs.cluster_of [stale; fresh] in
  let clock : unit -> Time := fun _ => 2 * Second in
  let visited := [set_status stale StatusUnhealthy; fresh] in
  let req := Stubs.requiring "worker" [] in
  ((forall w, 2 * Second <= clock w <= 2 * Second) /\
   (forall id, is_Some (nodes c !! id) -> id ∈ ["A"; "B"]) /\
   (forall n, n ∈ visited ->
      exists id, nodes (fst (heartbeat_tick clock c ["A"; "B"] tt)) !! id = Some n) /\
   findSuitableNode visited req = Some fresh /\
   timed_out c (2 * Second) stale) /\
  ~ timed_out c (2 * Second) fresh.
Proof.
  intros a stale fresh c clock visited req.
  assert (Hclock : forall w, 2 * Second <= clock w <= 2 * Second)
    by (intros w; unfold clock; lia).
  assert (Hids : forall id, is_Some (nodes c !! id) -> id ∈ ["A"; "B"]).
  { intros id [n Hn].
    destruct (decide (id ∈ ["A"; "B"])) as [Hin|Hout]; [exact Hin|].
    assert (Hnone : nodes c !! id = None)
      by (refine (not_elem_of_list_to_map_1 _ id _); exact Hout).
    congruence. }
  assert (Hvisited : forall n, n ∈ visited ->
            exists id, nodes (fst (heartbeat_tick clock c ["A"; "B"] tt)) !! id
                       = Some n).
  { intros n Hn. apply elem_of_cons in Hn as [-> | Hn].
    - exists "A". vm_compute. reflexivity.
    - apply list_elem_of_singleton in Hn as ->. exists "B". vm_compute. reflexivity. }
  assert (Hfound : findSuitableNode visited req = Some fresh)
    by (vm_compute; reflexivity).
  split.
  - split; [exact Hclock|]. split; [exact Hids|]. split; [exact Hvisited|].
    split; [exact Hfound|]. unfold timed_out. vm_compute. reflexivity.
  - exact (timed_out_node_not_scheduled clock c ["A"; "B"] tt _ _ visited req fresh
             Hclock Hids Hvisited Hfound).
Defined.

Lemma overloaded_above_80_true : overloaded_above_80 = true.
Proof. vm_compute. reflexivity. Qed.

Lemma factor100_above_80 (l : Z) :
  0 <= l <= 100 ->
  PrimFloat.ltb (PrimFloat.div 8 10) (factor100 l) = (80 <? l).
Proof.
  intros Hl. pose proof overloaded_above_80_true as H.
  unfold overloaded_above_80 in H. rewrite forallb_forall in H.
  specialize (H (Z.to_nat l) ltac:(apply in_seq; lia)).
  apply Bool.eqb_prop in H. rewrite Z2Nat.id in H by lia. rewrite H.
  destruct (Nat.ltb_spec 80 (Z.to_nat l)), (Z.ltb_spec 80 l);
    (reflexivity || lia).
Qed.

(** X19.  On a node as the package makes it (capacity 100, load within
    0..100) [UpdateStatus] stamps the last ping with the clock reading and
    sets the status from the load alone: Overloaded when the load exceeds
    80, Healthy otherwise, whatever the status was before (an Unhealthy
    node becomes Healthy again); nothing else changes.  A node updated at
    a load above 80 is not selected by the scheduler in any walk. *)
Theorem UpdateStatus_threshold {W : Type} (n : Node W) (now : Time) :
  well_formed n ->
  UpdateStatus n now =
    mkNode (config n) (client n) (Distributed.agents n) (capacity n) (load n)
           (if 80 <? load n then StatusOverloaded else StatusHealthy) now /\
  (80 < load n ->
   forall visited req, findSuitableNode visited req <> Some (UpdateStatus n now)).
Proof.
  intros Hwf.
  assert (Hst : status (UpdateStatus n now) =
                if 80 <? load n then StatusOverloaded else StatusHealthy).
  { unfold UpdateStatus. simpl. rewrite (loadFactor_well_formed n Hwf).
    destruct Hwf as [Hc Hl]. rewrite factor100_above_80 by lia. reflexivity. }
  split.
  - unfold UpdateStatus. f_equal. exact Hst.
  - intros Hload visited req Hfound.
    apply findSuitableNode_healthy in Hfound as (_ & Hs & _).
    rewrite Hst in Hs. destruct (Z.ltb_spec 80 (load n)); [discriminate | lia].
Qed.

Lemma UpdateStatus_threshold_witness :
  let n : Node unit := Stubs.node_with "A" [] ∅ 81 StatusUnhealthy in
  well_formed n /\
  UpdateStatus n 5 =
    mkNode (config n) (client n) (Distributed.agents n) (capacity n) (load n)
           (if 80 <? load n then StatusOverloaded else StatusHealthy) 5 /\
  (80 < load n ->
   forall visited req, findSuitableNode visited req <> Some (UpdateStatus n 5)).
Proof.
  intros n.
  assert (Hwf : well_formed n) by (split; [reflexivity | simpl; lia]).
  split; [exact Hwf|]. exact (UpdateStatus_threshold n 5 Hwf).
Defined.

(** X20.  When no node of the walk hosts an agent under the id the
    requirements name, [ScheduleTask] never succeeds and leaves the world
    as it is.  For a non-empty id no node is found.  For the empty id the
    agent check is skipped, so a node may be selected, and the task then
    fails on that node's lookup of the agent, the error wrapped by
    [ScheduleTask]. *)
Theorem ScheduleTask_unhosted_agent {W : Type} (visited : list (Node W))
    (task : string) (req : Types.TaskRequirements) (w : W) :
  Forall (fun n => Distributed.agents n !! Types.AgentID req = None) visited ->
  ScheduleTask visited task req w =
    (("", Some match findSuitableNode visited req with
               | None => ErrNoSuitableNode
               | Some _ =>
                   Wrapped "task execution failed: "
                     (ErrorString ("agent not found: " +:+ Types.AgentID req))
               end), w) /\
  (Types.AgentID req <> "" -> findSuitableNode visited req = None).
Proof.
  intros Hnone. unfold ScheduleTask.
  destruct (findSuitableNode visited req) as [n|] eqn:Hfound.
  - apply findSuitableNode_healthy in Hfound as (Hin & _ & Hm).
    rewrite Forall_forall in Hnone. specialize (Hnone n Hin).
    split.
    + unfold ExecuteTask. rewrite Hnone. reflexivity.
    + intros Hne. exfalso. unfold nodeMatchesRequirements in Hm.
      rewrite Hnone in Hm.
      destruct (String.eqb_spec (Types.AgentID req) ""); [contradiction|].
      rewrite bool_decide_eq_false_2 in Hm by (intros [x Hx]; discriminate).
      simpl in Hm. discriminate.
  - split; [reflexivity|]. intros _. reflexivity.
Qed.

Lemma ScheduleTask_unhosted_agent_witness :
  let a : Agent unit := Stubs.tagging "worker" in
  let n := Stubs.node_with "A" [] {["worker" := a]} 0 StatusHealthy in
  let req := Stubs.requiring "" [] in
  Forall (fun n => Distributed.agents n !! Types.AgentID req = None) [n] /\
  ScheduleTask [n] "task" req tt =
    (("", Some (Wrapped "task execution failed: "
                  (ErrorString "agent not found: "))), tt) /\
  (Types.AgentID req <> "" -> findSuitableNode [n] req = None).
Proof.
  intros a n req.
  assert (H : Forall (fun n => Distributed.agents n !! Types.AgentID req = None) [n]).
  { constructor; [vm_compute; reflexivity | constructor]. }
  split; [exact H|].
  exact (ScheduleTask_unhosted_agent [n] "task" req tt H).
Defined.

Lemma RegisterAgent_all_cons {W : Type} (n : Node W) (a : Agent W) rest (w : W) :
  RegisterAgent_all n (a :: rest) w =
    RegisterAgent_all (snd (fst (RegisterAgent n a w))) rest
                      (snd (RegisterAgent n a w)).
Proof.
  unfold RegisterAgent_all. simpl.
  destruct (RegisterAgent n a w) as [[err n1] w1]. reflexivity.
Qed.

Lemma RegisterAgent_all_from {W : Type} (registrants : list (Agent W)) :
  forall (n : Node W) (w : W),
    well_formed n ->
    load (fst (RegisterAgent_all n registrants w)) =
      Z.min (load n + Z.of_nat (length registrants)) 100 /\
    dom (Distributed.agents (fst (RegisterAgent_all n registrants w))) =
      dom (Distributed.agents n) ∪ registered_names (Z.to_nat (100 - load n)) registrants /\
    well_formed (fst (RegisterAgent_all n registrants w)).
Proof.
  induction registrants as [|a rest IH]; intros n w Hwf.
  - unfold RegisterAgent_all, registered_names. simpl.
    destruct Hwf as [Hc Hl]. rewrite take_nil. simpl.
    split; [lia|]. split; [|split; assumption].
    rewrite union_empty_r_L. reflexivity.
  - rewrite RegisterAgent_all_cons.
    pose proof (RegisterAgent_well_formed n a w Hwf) as Hwf1.
    destruct Hwf as [Hc Hl].
    destruct (Z.eq_dec (load n) 100) as [Hfull|Hroom].
    + rewrite RegisterAgent_full in * by lia. simpl in *.
      destruct (IH n w Hwf1) as (Hload & Hdom & Hwf').
      split; [rewrite Hload; cbn [length]; lia|]. split; [|exact Hwf'].
      rewrite Hdom, Hfull. reflexivity.
    + rewrite RegisterAgent_room in *
        by (unfold MinInt64, MaxInt64; lia). simpl in *.
      match goal with
      | |- context [RegisterAgent_all ?n1 rest ?w1] =>
          destruct (IH n1 w1 Hwf1) as (Hload & Hdom & Hwf')
      end.
      simpl in *.
      split; [rewrite Hload; cbn [length]; lia|]. split; [|exact Hwf'].
      rewrite Hdom, dom_insert_L. unfold registered_names.
      replace (Z.to_nat (100 - load n)) with (S (Z.to_nat (100 - (load n + 1))))
        by lia.
      cbn [take fmap list_fmap]. rewrite list_to_set_cons.
      rewrite (comm_L (∪) {[GetName a]} (dom (Distributed.agents n))).
      rewrite <- (assoc_L (∪)). reflexivity.
Qed.

Lemma size_list_to_set_le (l : list string) :
  (size (list_to_set l : gset string) <= length l)%nat.
Proof.
  induction l as [|x l IH].
  - rewrite list_to_set_nil, size_empty. simpl. lia.
  - rewrite list_to_set_cons, size_union_alt, size_singleton. cbn [length].
    pose proof (subseteq_size (list_to_set l ∖ {[x]}) (list_to_set l : gset string)
                  ltac:(apply subseteq_difference_l; reflexivity)).
    lia.
Qed.

(** X21.  Register any sequence of agents with a node fresh from
    [NewNode].  The load ends at the number of registrations, capped at
    100; the agents held are exactly those named by the first 100
    registrations, later ones being refused; the number of agents held
    never exceeds the load (two registrations under one name count twice
    in the load and once in the map); the node is as the package makes
    it. *)
Theorem RegisterAgent_all_fresh_node {W : Type} (config : NodeConfig)
    (cl : AgentClient W) (now : Time) (n0 : Node W)
    (registrants : list (Agent W)) (w : W) :
  NewNode config (inl cl) now = inl n0 ->
  load (fst (RegisterAgent_all n0 registrants w)) =
    Z.min (Z.of_nat (length registrants)) 100 /\
  dom (Distributed.agents (fst (RegisterAgent_all n0 registrants w))) =
    registered_names 100 registrants /\
  Z.of_nat (size (Distributed.agents (fst (RegisterAgent_all n0 registrants w)))) <=
    load (fst (RegisterAgent_all n0 registrants w)) /\
  well_formed (fst (RegisterAgent_all n0 registrants w)).
Proof.
  intros Hnew. pose proof (NewNode_well_formed _ _ _ _ Hnew) as Hwf.
  injection Hnew as <-.
  destruct (RegisterAgent_all_from registrants _ w Hwf) as (Hload & Hdom & Hwf').
  simpl in Hload, Hdom. rewrite dom_empty_L, union_empty_l_L in Hdom.
  change (Z.to_nat (100 - 0)) with 100%nat in Hdom.
  split; [exact Hload|]. split; [exact Hdom|]. split; [|exact Hwf'].
  rewrite <- size_dom, Hdom, Hload. unfold registered_names.
  pose proof (size_list_to_set_le (GetName <$> take 100 registrants)) as Hsz.
  rewrite length_fmap, length_take in Hsz. lia.
Qed.

Lemma RegisterAgent_all_fresh_node_witness :
  let a : Agent unit := Stubs.tagging "worker" in
  let b : Agent unit := Stubs.tagging "helper" in
  let n0 : Node unit :=
    mkNode (mkNodeConfig "A" "" "" []) Stubs.quiet_client ∅ 100 0 StatusHealthy 7 in
  NewNode (mkNodeConfig "A" "" "" []) (inl Stubs.quiet_client) 7 = inl n0 /\
  load (fst (RegisterAgent_all n0 [a; b; a] tt)) = 3 /\
  size (Distributed.agents (fst (RegisterAgent_all n0 [a; b; a] tt))) = 2%nat /\
  (load (fst (RegisterAgent_all n0 [a; b; a] tt)) =
     Z.min (Z.of_nat (length [a; b; a])) 100 /\
   dom (Distributed.agents (fst (RegisterAgent_all n0 [a; b; a] tt))) =
     registered_names 100 [a; b; a] /\
   Z.of_nat (size (Distributed.agents (fst (RegisterAgent_all n0 [a; b; a] tt)))) <=
     load (fst (RegisterAgent_all n0 [a; b; a] tt)) /\
   well_formed (fst (RegisterAgent_all n0 [a; b; a] tt))).
Proof.
  intros a b n0.
  assert (Hnew : NewNode (mkNodeConfig "A" "" "" []) (inl Stubs.quiet_client) 7
                 = inl n0) by reflexivity.
  split; [exact Hnew|]. split; [vm_compute; reflexivity|].
  split; [vm_compute; reflexivity|].
  exact (RegisterAgent_all_fresh_node _ _ _ n0 [a; b; a] tt Hnew).
Defined.

(** ** Workflows: failures, joins and composition *)

Lemma member_errors_grow {W : Type} (client : AgentClient W) task index
    (a : Agent W) (st : shared W) :
  exists l, errors (member client task index a st) = errors st ++ l.
Proof.
  unfold member.
  destruct (PublishEvent client "agent_start" _ _ _) as [? w0].
  destruct (Agents.Execute a task w0) as [[s [e|]] w1]; simpl.
  - destruct (PublishEvent client "agent_error" _ _ _). eexists. reflexivity.
  - destruct (Agents.SyncState client _ s w1) as [[v [e|]] w2]; simpl.
    + eexists. reflexivity.
    + destruct (PublishEvent client "agent_complete" _ _ _).
      exists []. simpl. rewrite app_nil_r. reflexivity.
Qed.

Lemma member_failure {W : Type} (client : AgentClient W) task index
    (a : Agent W) (e : error) (st : shared W) :
  (forall x w, snd (fst (Agents.Execute a x w)) = Some e) ->
  errors (member client task index a st) =
    errors st ++ [Wrapped ("agent " +:+ pretty index +:+ " failed: ") e].
Proof.
  intros Ha. unfold member.
  destruct (PublishEvent client "agent_start" _ _ _) as [? w0].
  specialize (Ha task w0).
  destruct (Agents.Execute a task w0) as [[s e'] w1]. simpl in Ha. subst e'. simpl.
  destruct (PublishEvent client "agent_error" _ _ _). reflexivity.
Qed.

Lemma members_errors_grow {W : Type} (client : AgentClient W)
    (wf : MixtureWorkflow W) task (schedule : list nat) :
  forall st : shared W,
  exists l,
    errors (foldl (fun st index =>
                     match Workflow.agents wf !! index with
                     | Some a => member client task index a st
                     | None => st
                     end) st schedule) = errors st ++ l.
Proof.
  induction schedule as [|i schedule IH]; intros st; simpl.
  - exists []. rewrite app_nil_r. reflexivity.
  - destruct (Workflow.agents wf !! i) as [a|].
    + destruct (IH (member client task i a st)) as [l Hl].
      destruct (member_errors_grow client task i a st) as [l1 Hl1].
      rewrite Hl, Hl1, <- app_assoc. eexists. reflexivity.
    + apply IH.
Qed.

Lemma members_prefix_no_error {W : Type} (client : AgentClient W)
    (wf : MixtureWorkflow W) task (pre : list nat) :
  client_succeeds client ->
  (forall j b, j ∈ pre -> Workflow.agents wf !! j = Some b ->
     forall x w, snd (fst (Agents.Execute b x w)) = None) ->
  forall st : shared W,
    errors (foldl (fun st index =>
                     match Workflow.agents wf !! index with
                     | Some a => member client task index a st
                     | None => st
                     end) st pre) = errors st.
Proof.
  intros Hc. induction pre as [|j pre IH]; intros Hpre st; simpl; [reflexivity|].
  rewrite IH by (intros j' b Hj'; apply Hpre; right; exact Hj').
  destruct (Workflow.agents wf !! j) as [b|] eqn:Hb; [|reflexivity].
  apply member_no_error; [exact Hc|]. apply (Hpre j b); [left | exact Hb].
Qed.

(** X22.  Let the client's calls succeed.  If member [i] fails with [e]
    and the members that take their turn before it succeed, the workflow
    returns the empty string and the error of member [i] wrapped as
    "agent i failed: " with the index counted from 0 (the events it
    publishes count from 1), whatever the members scheduled later do: the
    error returned is the first one sent. *)
Theorem mixture_reports_first_failure {W : Type} (client : AgentClient W)
    (wf : MixtureWorkflow W) (task : string) (pre post : list nat) (i : nat)
    (a : Agent W) (e : error) (w : W) :
  client_succeeds client ->
  Workflow.agents wf !! i = Some a ->
  (forall x w, snd (fst (Agents.Execute a x w)) = Some e) ->
  (forall j b, j ∈ pre -> Workflow.agents wf !! j = Some b ->
     forall x w, snd (fst (Agents.Execute b x w)) = None) ->
  fst (Mixture_Execute (inl client) wf task (pre ++ i :: post) w) =
    ("", Some (Wrapped ("agent " +:+ pretty i +:+ " failed: ") e)).
Proof.
  intros Hc Hi Ha Hpre. unfold Mixture_Execute.
  pose proof (proj1 Hc "workflow_start"
                ("Starting mixture workflow with "
                   +:+ pretty (length (Workflow.agents wf)) +:+ " agents")
                [("num_agents", pretty (length (Workflow.agents wf)))] w) as Hstart.
  destruct (PublishEvent client "workflow_start" _ _ w) as [e0 w1].
  simpl in Hstart. subst e0.
  rewrite recv_or_default_closed. unfold run_members.
  rewrite foldl_app. simpl foldl. rewrite Hi.
  match goal with
  | |- context [foldl ?f (member client task i a ?st) post] =>
      destruct (members_errors_grow client wf task post
                  (member client task i a st)) as [l Hl];
      pose proof (member_failure client task i a e st Ha) as Hfail;
      pose proof (members_prefix_no_error client wf task pre Hc Hpre
                    {| results := replicate (length (Workflow.agents wf)) "";
                       errors := []; world := w1 |}) as Hquiet
  end.
  rewrite Hl, Hfail, Hquiet. simpl.
  destruct (PublishEvent client "workflow_error" _ _ _). reflexivity.
Qed.

Lemma mixture_reports_first_failure_witness :
  let A : Agent unit := Stubs.tagging "A" in
  let B : Agent unit := Stubs.failing "B" "boom" in
  let C : Agent unit := Stubs.failing "C" "bang" in
  let wf := mkMixtureWorkflow [A; B; C] (Stubs.tagging "G") in
  (client_succeeds (Stubs.quiet_client (W := unit)) /\
   Workflow.agents wf !! 2%nat = Some C /\
   (forall x w, snd (fst (Agents.Execute C x w)) = Some (ErrorString "bang")) /\
   (forall j b, j ∈ [0%nat] -> Workflow.agents wf !! j = Some b ->
      forall x w, snd (fst (Agents.Execute b x w)) = None)) /\
  fst (Mixture_Execute (inl Stubs.quiet_client) wf "task" ([0%nat] ++ 2%nat :: [1%nat]) tt) =
    ("", Some (Wrapped "agent 2 failed: " (ErrorString "bang"))).
Proof.
  intros A B C wf.
  assert (Hc : client_succeeds (Stubs.quiet_client (W := unit)))
    by (split; intros; reflexivity).
  assert (Hi : Workflow.agents wf !! 2%nat = Some C) by reflexivity.
  assert (Ha : forall x w, snd (fst (Agents.Execute C x w)) = Some (ErrorString "bang"))
    by (intros; reflexivity).
  assert (Hpre : forall j b, j ∈ [0%nat] -> Workflow.agents wf !! j = Some b ->
                   forall x w, snd (fst (Agents.Execute b x w)) = None).
  { intros j b Hj Hb x w. apply list_elem_of_singleton in Hj. subst j.
    injection Hb as <-. reflexivity. }
  split; [repeat split; assumption|].
  exact (mixture_reports_first_failure Stubs.quiet_client wf "task" [0%nat] [1%nat]
           2 C (ErrorString "bang") tt Hc Hi Ha Hpre).
Defined.

Lemma concat_snoc (sep : string) (slice : list string) (s : string) :
  String.concat sep (slice ++ [s]) =
    match slice with
    | [] => s
    | _ :: _ => String.concat sep slice +:+ sep +:+ s
    end.
Proof.
  induction slice as [|x slice IH]; [reflexivity|].
  cbn [app String.concat]. rewrite IH.
  destruct slice as [|y slice]; [reflexivity|].
  cbn [app]. rewrite !string_app_assoc. reflexivity.
Qed.

(** X23.  [stringSliceToString] joins the strings with single newlines,
    none before the first and none after the last; the join of a slice
    with one more string is the join of the slice, a newline and the
    string, except that an empty slice contributes nothing. *)
Theorem stringSliceToString_joins_lines (slice : list string) (s : string) :
  stringSliceToString slice = String.concat LF slice /\
  stringSliceToString (slice ++ [s]) =
    match slice with
    | [] => s
    | _ :: _ => stringSliceToString slice +:+ LF +:+ s
    end.
Proof.
  assert (H : forall l, stringSliceToString l = String.concat LF l).
  { intros l. unfold stringSliceToString.
    rewrite stringSliceToString_from_joined by lia. reflexivity. }
  split; [apply H|]. rewrite !H, concat_snoc. reflexivity.
Qed.

Lemma sequential_loop_shift {W : Type} (ctx : Context W) (rest : list (Agent W)) :
  forall (i len k : Z) (task fin : string) (w : W),
    sequential_loop ctx rest (i + k) (len + k) task fin w =
    sequential_loop ctx rest i len task fin w.
Proof.
  induction rest as [|a rest IH]; intros i len k task fin w; [reflexivity|].
  cbn [sequential_loop]. destruct (ctx w); [reflexivity|].
  destruct (Agents.Execute a task w) as [[s [e|]] w1]; simpl; [reflexivity|].
  replace (i + k =? len + k - 1) with (i =? len - 1)
    by (destruct (Z.eqb_spec i (len - 1)), (Z.eqb_spec (i + k) (len + k - 1));
        (reflexivity || lia)).
  replace (i + k + 1) with (i + 1 + k) by lia. apply IH.
Qed.

Lemma sequential_loop_app {W : Type} (ctx : Context W) (pre post : list (Agent W)) :
  pre <> [] -> post <> [] ->
  forall (i lenp len : Z) (task fin fin0 : string) (w : W),
    lenp = i + Z.of_nat (length pre) ->
    len = lenp + Z.of_nat (length post) ->
    sequential_loop ctx (pre ++ post) i len task fin w =
      match sequential_loop ctx pre i lenp task fin0 w with
      | (r, None, w') => sequential_loop ctx post lenp len r fin w'
      | (_, Some e, w') => (("", Some e), w')
      end.
Proof.
  intros Hpre Hpost. induction pre as [|a pre IH]; [congruence|].
  intros i lenp len task fin fin0 w Hlenp Hlen.
  cbn [app sequential_loop]. destruct (ctx w); [reflexivity|].
  destruct (Agents.Execute a task w) as [[s [e|]] w1]; simpl; [reflexivity|].
  assert (0 < Z.of_nat (length post)) by (destruct post; [congruence | simpl; lia]).
  destruct pre as [|b pre].
  - simpl in *.
    destruct (Z.eqb_spec i (len - 1)); [lia|].
    destruct (Z.eqb_spec i (lenp - 1)); [|lia].
    replace (i + 1) with lenp by lia. reflexivity.
  - cbn [length] in *.
    destruct (Z.eqb_spec i (len - 1)); [lia|].
    destruct (Z.eqb_spec i (lenp - 1)); [lia|].
    apply IH; [discriminate | cbn [length]; lia | lia].
Qed.

(** X24.  A sequential workflow over [pre ++ post], both non-empty, is the
    workflow over [pre] followed by the workflow over [post] on its
    result: a failure or a cancellation in [pre] ends the run with that
    error and the empty result, and [post] starts from the world [pre]
    left.  With [post] a single agent this is what [AddAgent] adds to a
    workflow. *)
Theorem sequential_workflow_splits {W : Type} (ctx : Context W)
    (pre post : list (Agent W)) (task : string) (w : W) :
  pre <> [] -> post <> [] ->
  Sequential_Execute ctx (pre ++ post) task w =
    match Sequential_Execute ctx pre task w with
    | (r, None, w') => Sequential_Execute ctx post r w'
    | (_, Some e, w') => (("", Some e), w')
    end.
Proof.
  intros Hpre Hpost. unfold Sequential_Execute.
  rewrite (sequential_loop_app ctx pre post Hpre Hpost 0
             (Z.of_nat (length pre))
             (Z.of_nat (length (pre ++ post))) task "" "" w)
    by (rewrite ?length_app; lia).
  destruct (sequential_loop ctx pre 0 (Z.of_nat (length pre)) task "" w)
    as [[r [e|]] w']; [reflexivity|].
  rewrite length_app, Nat2Z.inj_add.
  rewrite <- (sequential_loop_shift ctx post 0 (Z.of_nat (length post))
                (Z.of_nat (length pre)) r "" w').
  f_equal; lia.
Qed.

Lemma sequential_workflow_splits_witness :
  let A : Agent unit := Stubs.tagging "A" in
  let B : Agent unit := Stubs.tagging "B" in
  let C : Agent unit := Stubs.failing "C" "boom" in
  let ctx : Context unit := fun _ => None in
  ([A; C] <> [] /\ [B] <> []) /\
  Sequential_Execute ctx [A] "x" tt = (("A(x)", None), tt) /\
  Sequential_Execute ctx (AddAgent [A] B) "x" tt = (("B(A(x))", None), tt) /\
  Sequential_Execute ctx ([A; C] ++ [B]) "x" tt =
    match Sequential_Execute ctx [A; C] "x" tt with
    | (r, None, w') => Sequential_Execute ctx [B] r w'
    | (_, Some e, w') => (("", Some e), w')
    end.
Proof.
  intros A B C ctx.
  assert (Hpre : [A; C] <> []) by discriminate.
  assert (Hpost : [B] <> []) by discriminate.
  split; [split; assumption|].
  split; [vm_compute; reflexivity|]. split; [vm_compute; reflexivity|].
  exact (sequential_workflow_splits ctx [A; C] [B] "x" tt Hpre Hpost).
Defined.

(** ** The coordinator *)

Import Coordination Sentinels.


(** X26.  [RegisterWorkflow] always registers: a workflow already held
    under the name is replaced without notice, and a failure to publish
    the event is dropped.  Afterwards [ExecuteWorkflow] under that name
    depends on the new workflow and the client alone, and under every
    other name it behaves as before. *)
Theorem RegisterWorkflow_replaces {W : Type} (c : Coordinator W)
    (name other : string) (wf : Workflow W) (w0 : W) (task : string) (w : W) :
  ExecuteWorkflow (fst (RegisterWorkflow c name wf w0)) name task w =
    ExecuteWorkflow (mkCoordinator {[name := wf]} (coordinator_client c))
                    name task w /\
  (other <> name ->
   ExecuteWorkflow (fst (RegisterWorkflow c name wf w0)) other task w =
     ExecuteWorkflow c other task w).
Proof.
  unfold RegisterWorkflow.
  destruct (PublishEvent (coordinator_client c) "workflow_registered" _ _ w0)
    as [err w1].
  unfold ExecuteWorkflow. simpl. split.
  - rewrite lookup_insert_eq, lookup_singleton_eq. reflexivity.
  - intros Hother. rewrite lookup_insert_ne by congruence. reflexivity.
Qed.

(** ** The tool registry *)

Import ToolsSpec.

Lemma RegisterTool_all_snoc {V W : Type}
    (regs : list (string * Tools.Tool V W * option (Tools.Validator V W))) r :
  Tools.RegisterTool_all (regs ++ [r]) =
    snd (Tools.RegisterTool (Tools.RegisterTool_all regs) r.1.1 r.1.2 r.2).
Proof. unfold Tools.RegisterTool_all. rewrite foldl_app. reflexivity. Qed.

Lemma first_registration_snoc {V W : Type} name
    (regs : list (string * Tools.Tool V W * option (Tools.Validator V W))) r :
  first_registration name (regs ++ [r]) =
    match first_registration name regs with
    | Some x => Some x
    | None => if decide (r.1.1 = name) then Some r else None
    end.
Proof.
  unfold first_registration. rewrite filter_app.
  destruct (filter _ regs) as [|x l]; simpl.
  - rewrite filter_cons, filter_nil. case_decide; reflexivity.
  - reflexivity.
Qed.

Lemma RegisterTool_all_lookup {V W : Type}
    (regs : list (string * Tools.Tool V W * option (Tools.Validator V W))) :
  forall name,
    Tools.tools (Tools.RegisterTool_all regs) !! name =
      (fun r => r.1.2) <$> first_registration name regs /\
    Tools.validators (Tools.RegisterTool_all regs) !! name =
      first_registration name regs ≫= (fun r => r.2).
Proof.
  induction regs as [|r regs IH] using rev_ind; intros name.
  - split; reflexivity.
  - rewrite RegisterTool_all_snoc, first_registration_snoc.
    destruct r as [[rn rt] rv]. simpl. unfold Tools.RegisterTool.
    destruct (IH rn) as [Ht Hv]. destruct (IH name) as [Ht' Hv'].
    destruct (Tools.tools (Tools.RegisterTool_all regs) !! rn) as [held|] eqn:Hheld;
      simpl.
    + rewrite Ht', Hv'.
      destruct (first_registration name regs) eqn:Hf; [split; reflexivity|].
      case_decide as Hname; [|split; reflexivity].
      subst rn. rewrite Hf in Ht. discriminate.
    + destruct (first_registration rn regs) eqn:Hfree; [discriminate|].
      destruct (decide (rn = name)) as [-> | Hname].
      * rewrite Hfree. rewrite lookup_insert_eq. split; [reflexivity|].
        destruct rv as [v|]; simpl; [rewrite lookup_insert_eq; reflexivity|].
        rewrite Hv. reflexivity.
      * rewrite lookup_insert_ne by assumption. rewrite Ht'.
        split; [destruct (first_registration name regs); reflexivity|].
        destruct rv as [v|]; simpl; [rewrite lookup_insert_ne by assumption|];
          rewrite Hv'; destruct (first_registration name regs); reflexivity.
Qed.

(** X27.  Register any sequence of tools with a new registry.
    [ExecuteTool] under a name runs the tool of the first registration
    under that name, guarded by the validator given at that registration
    and no other: a later registration under the name changes neither, and
    its validator is not kept.  A failing validator returns its error
    wrapped and the tool does not run; an unknown name gives "tool not
    found". *)
Theorem ExecuteTool_uses_first_registration {V W : Type}
    (regs : list (string * Tools.Tool V W * option (Tools.Validator V W)))
    (name : string) (input : Tools.any V) (w : W) :
  Tools.ExecuteTool (Tools.RegisterTool_all regs) name input w =
    match first_registration name regs with
    | None => ((None, Some (ErrorString ("tool not found: " +:+ name))), w)
    | Some (_, tool, None) => Tools.Execute tool input w
    | Some (_, tool, Some validator) =>
        let (err, w1) := validator input w in
        match err with
        | Some e => ((None, Some (Wrapped "input validation failed: " e)), w1)
        | None => Tools.Execute tool input w1
        end
    end.
Proof.
  unfold Tools.ExecuteTool.
  destruct (RegisterTool_all_lookup regs name) as [-> ->].
  destruct (first_registration name regs) as [[[rn tool] [v|]]|]; reflexivity.
Qed.

(** ** The base vector store *)

Lemma foldl_Store {V : Type} (batches : list (list V)) :
  forall acc, foldl Memory.Store acc batches = acc ++ concat batches.
Proof.
  induction batches as [|b batches IH]; intros acc; simpl.
  - rewrite app_nil_r. reflexivity.
  - rewrite IH. unfold Memory.Store. rewrite <- app_assoc. reflexivity.
Qed.

(** X28.  After any sequence of [Store] calls on a new store, [Query]
    with a bound [k >= 0] returns the first [k] vectors in the order they
    were stored (all of them when fewer are held), whatever the query
    vector; with a negative bound the slice expression panics. *)
Theorem Query_returns_oldest {V : Type} (batches : list (list V)) (vector : V)
    (k : Z) :
  Memory.Query (foldl Memory.Store [] batches) vector k =
    if k <? 0 then None else Some (take (Z.to_nat k) (concat batches)).
Proof.
  rewrite foldl_Store. simpl. unfold Memory.Query.
  destruct (Z.ltb_spec (Z.of_nat (length (concat batches))) k) as [Hmore|Hless].
  - destruct (Z.ltb_spec (Z.of_nat (length (concat batches))) 0); [lia|].
    destruct (Z.ltb_spec k 0); [lia|].
    rewrite !take_ge by lia. reflexivity.
  - reflexivity.
Qed.

(** ** Health checks *)

Import Health HealthSpec.

Lemma RunChecks_snoc {D W : Type} (hc : HealthChecker D W) visited name (w : W) :
  RunChecks hc (visited ++ [name]) w =
    match checks (fst (RunChecks hc visited w)) !! name with
    | Some check =>
        ({| checks := checks (fst (RunChecks hc visited w));
            statuses := <[name := fst (check (snd (RunChecks hc visited w)))]>
                          (statuses (fst (RunChecks hc visited w))) |},
         snd (check (snd (RunChecks hc visited w))))
    | None => RunChecks hc visited w
    end.
Proof.
  unfold RunChecks. rewrite foldl_app. simpl.
  destruct (checks _ !! name) as [check|]; [|reflexivity].
  destruct (check _). reflexivity.
Qed.

Lemma RunChecks_checks {D W : Type} (hc : HealthChecker D W) visited (w : W) :
  checks (fst (RunChecks hc visited w)) = checks hc.
Proof.
  induction visited as [|name visited IH] using rev_ind; [reflexivity|].
  rewrite RunChecks_snoc.
  destruct (checks (fst (RunChecks hc visited w)) !! name); simpl; exact IH.
Qed.

Lemma RunChecks_status {D W : Type} (hc : HealthChecker D W) visited (w : W)
    name check s :
  name ∈ visited -> checks hc !! name = Some check -> reports check s ->
  statuses (fst (RunChecks hc visited w)) !! name = Some s.
Proof.
  intros Hin Hcheck Hs.
  induction visited as [|x visited IH] using rev_ind.
  - apply elem_of_nil in Hin. contradiction.
  - rewrite RunChecks_snoc, RunChecks_checks.
    destruct (decide (x = name)) as [-> | Hx].
    + unfold HealthCheck in *. rewrite Hcheck. simpl.
      rewrite lookup_insert_eq, Hs. reflexivity.
    + apply elem_of_app in Hin as [Hin | Hin];
        [|apply list_elem_of_singleton in Hin; congruence].
      destruct (checks hc !! x); simpl;
        [rewrite lookup_insert_ne by assumption|]; exact (IH Hin).
Qed.

Lemma IsHealthy_false {D : Type} (walk : list (HealthStatus D)) s :
  s ∈ walk -> Status s <> "healthy" -> IsHealthy walk = false.
Proof.
  intros Hin Hs. induction walk as [|x walk IH].
  - apply elem_of_nil in Hin. contradiction.
  - simpl. destruct (String.eqb_spec (Status x) "healthy") as [Hx|Hx];
      [|reflexivity].
    simpl. apply IH. apply elem_of_cons in Hin as [-> | Hin];
      [contradiction | exact Hin].
Qed.

(** X29.  Let a check registered under [name] report [s] whenever it
    runs.  After a run of [RunChecks] that visits the name, [GetStatus]
    finds [s] under it, and if [s] is not "healthy" then [IsHealthy] is
    false in every order of its walk.  The same checker before any run
    holds no status, and [IsHealthy] is true of it whatever its checks
    would report. *)
Theorem RunChecks_records_reports {D W : Type} (hc : HealthChecker D W)
    (visited : list string) (w : W) (name : string) (check : HealthCheck D W)
    (s zero : HealthStatus D) :
  name ∈ visited -> checks hc !! name = Some check -> reports check s ->
  GetStatus zero (fst (RunChecks hc visited w)) name = (s, true) /\
  (Status s <> "healthy" ->
   forall walk, status_walk (fst (RunChecks hc visited w)) walk ->
                IsHealthy walk = false) /\
  (forall walk, status_walk (mkHealthChecker (checks hc) ∅) walk ->
                IsHealthy walk = true).
Proof.
  intros Hin Hcheck Hs.
  pose proof (RunChecks_status hc visited w name check s Hin Hcheck Hs) as Hst.
  split; [unfold GetStatus; rewrite Hst; reflexivity|]. split.
  - intros Hbad walk Hwalk. apply (IsHealthy_false walk s); [|exact Hbad].
    unfold status_walk in Hwalk. rewrite Hwalk.
    apply list_elem_of_fmap. exists (name, s). split; [reflexivity|].
    apply elem_of_map_to_list. exact Hst.
  - intros walk Hwalk. unfold status_walk in Hwalk. simpl in Hwalk.
    rewrite map_to_list_empty in Hwalk. simpl in Hwalk.
    apply Permutation_nil_r in Hwalk. subst walk. reflexivity.
Qed.

Lemma RunChecks_records_reports_witness :
  let degraded : HealthStatus unit := mkHealthStatus "degraded" "" 0 tt in
  let zero : HealthStatus unit := mkHealthStatus "" "" 0 tt in
  let hc : HealthChecker unit unit :=
    RegisterCheck (RegisterCheck NewHealthChecker "db" (constant_check "healthy"))
                  "cache" (constant_check "degraded") in
  ("cache" ∈ ["db"; "cache"] /\
   checks hc !! "cache" = Some (constant_check "degraded") /\
   reports (constant_check "degraded") degraded) /\
  GetStatus zero (fst (RunChecks hc ["db"; "cache"] tt)) "cache" = (degraded, true) /\
  (Status degraded <> "healthy" ->
   forall walk, status_walk (fst (RunChecks hc ["db"; "cache"] tt)) walk ->
                IsHealthy walk = false) /\
  (forall walk, status_walk (mkHealthChecker (checks hc) ∅) walk ->
                IsHealthy walk = true).
Proof.
  intros degraded zero hc.
  assert (Hin : "cache" ∈ ["db"; "cache"]) by (right; left).
  assert (Hcheck : checks hc !! "cache" = Some (constant_check "degraded"))
    by (vm_compute; reflexivity).
  assert (Hs : reports (constant_check "degraded") degraded)
    by (intros w; reflexivity).
  split; [repeat split; assumption|].
  exact (RunChecks_records_reports hc ["db"; "cache"] tt "cache"
           (constant_check "degraded") degraded zero Hin Hcheck Hs).
Defined.

(** ** Circuit breaker: an open breaker and its probe *)

Import BreakerRunSpec.

Lemma Execute_rejected {W : Type} (cb : CircuitBreaker) (fn : Func W)
    t_allow t_record (w : W) :
  state cb = StateOpen -> ~ timeout_elapsed cb t_allow ->
  Reliability.Execute cb fn t_allow t_record w = (Some ErrCircuitOpen, cb, w).
Proof.
  intros Hopen Hnot. unfold Reliability.Execute, AllowRequest. rewrite Hopen.
  unfold timeout_elapsed in Hnot.
  destruct (Z.ltb_spec (resetTimeout cb) (Since t_allow (lastFailure cb)));
    [lia | reflexivity].
Qed.

Lemma Execute_each_rejected {W : Type} (cb : CircuitBreaker) (fn : Func W)
    (times : list (Time * Time)) (w : W) :
  state cb = StateOpen ->
  Forall (fun t => ~ timeout_elapsed cb t.1) times ->
  Execute_each cb fn times w =
    (replicate (length times) (Some ErrCircuitOpen), cb, w).
Proof.
  intros Hopen. induction times as [|t times IH] using rev_ind; intros Hall.
  - reflexivity.
  - apply Forall_app in Hall as [Hall Ht]. inversion Ht; subst.
    unfold Execute_each in *. rewrite foldl_app, IH by assumption. simpl.
    rewrite Execute_rejected by assumption.
    rewrite length_app. simpl. rewrite Nat.add_1_r, replicate_S_end. reflexivity.
Qed.

(** X30.  An Open breaker rejects every [Execute] made before
    [resetTimeout] has elapsed since the last failure: each returns
    [ErrCircuitOpen], the callback is not invoked and neither the breaker
    nor the world changes, however many calls are made.  The first
    [Execute] after the timeout invokes the callback once as a probe: on
    success the breaker is Closed with a failure count of 0, on failure it
    is Open again with the last failure stamped at the time of
    recording. *)
Theorem breaker_open_rejects_then_probes {W : Type} (cb : CircuitBreaker)
    (fn : Func W) (times : list (Time * Time)) (t_allow t_record : Time) (w : W) :
  state cb = StateOpen ->
  Forall (fun t => ~ timeout_elapsed cb t.1) times ->
  timeout_elapsed cb t_allow ->
  Execute_each cb fn times w =
    (replicate (length times) (Some ErrCircuitOpen), cb, w) /\
  Reliability.Execute cb fn t_allow t_record w =
    (fst (fn w),
     match fst (fn w) with
     | None =>
         mkCircuitBreaker StateClosed 0 (failureThreshold cb) (resetTimeout cb)
                          (lastFailure cb)
     | Some _ =>
         mkCircuitBreaker StateOpen (wrap64 (failureCount cb + 1))
                          (failureThreshold cb) (resetTimeout cb) t_record
     end,
     snd (fn w)).
Proof.
  intros Hopen Hall Hel. split; [apply Execute_each_rejected; assumption|].
  unfold Reliability.Execute, AllowRequest. rewrite Hopen.
  unfold timeout_elapsed in Hel.
  destruct (Z.ltb_spec (resetTimeout cb) (Since t_allow (lastFailure cb)));
    [|lia].
  simpl. destruct (fn w) as [[e|] w']; reflexivity.
Qed.

Lemma breaker_open_rejects_then_probes_witness :
  let cb := mkCircuitBreaker StateOpen 3 3 (5 * Second) 0 in
  let fn : Func nat := MoreStubs.recovers_after 0 in
  let times := [(1 * Second, 1 * Second); (5 * Second, 5 * Second)] in
  (state cb = StateOpen /\
   Forall (fun t => ~ timeout_elapsed cb t.1) times /\
   timeout_elapsed cb (6 * Second)) /\
  Execute_each cb fn times 0%nat =
    ([Some ErrCircuitOpen; Some ErrCircuitOpen], cb, 0%nat) /\
  Reliability.Execute cb fn (6 * Second) (7 * Second) 0%nat =
    (None, mkCircuitBreaker StateClosed 0 3 (5 * Second) 0, 1%nat).
Proof.
  intros cb fn times.
  assert (Hopen : state cb = StateOpen) by reflexivity.
  assert (Hall : Forall (fun t => ~ timeout_elapsed cb t.1) times).
  { repeat constructor; unfold timeout_elapsed; vm_compute; discriminate. }
  assert (Hel : timeout_elapsed cb (6 * Second))
    by (unfold timeout_elapsed; vm_compute; reflexivity).
  split; [repeat split; assumption|].
  exact (breaker_open_rejects_then_probes cb fn times (6 * Second) (7 * Second)
           0%nat Hopen Hall Hel).
Defined.
